(** * move-app: the drawing canvas, its undo history, the bucket fill and the
    bouncing sprite of [src/App.tsx], as a shallow embedding.

    - The canvas raster is the flat [Uint8ClampedArray] of [ImageData]:
      a [list Z] holding four channel bytes per pixel, row-major, indexed
      with [(py * canvasWidth + px) * 4] exactly as the source does.
    - The React refs ([historyRef], [historyIndexRef], [imgPosRef],
      [velocityRef]) are fields of explicit state records that every
      handler takes and returns.
    - JavaScript numbers that only ever hold integers (indices, channel
      values, coordinates after [Math.floor]) are [Z]; the sprite position
      and velocity, which hold fractions, are exact rationals [Q].
    - [Math.random] is a sequence of draws together with the number of
      draws made so far; speech synthesis is a flag and a log of what was
      spoken; the browser's rasterisers are the class [DisplaySurface].

    The file has five parts: the embedding of the source; the vocabulary
    of the statements and small inputs for the examples; the lemmas; the
    claims C1 to C10, each with its witness, counterexample or example; and
    further properties X1 to X21 of the functions around them. *)

From Stdlib Require Import ZArith QArith Qround Lia Lqa Ascii String.
From stdpp Require Import base numbers list.

Local Open Scope Z_scope.

(* ===================================================================== *)
(** * Raster data                                                          *)
(* ===================================================================== *)

(** A JavaScript value as the raster code sees it: a number holding an
    integer, [NaN] (what [parseInt] gives for a string without digits), or
    [undefined] (what an array read outside its bounds gives). *)
Inductive jsval : Type :=
  | Num (z : Z)
  | NaN
  | Undefined.

(** A colour as the source passes it around: a four-element array
    [[r, g, b, a]]. *)
Definition rgba : Type := (jsval * jsval * jsval * jsval)%type.

Definition rgbOf (r g b a : Z) : rgba := (Num r, Num g, Num b, Num a).

(** [data[i]] on a typed array: [undefined] for a negative or too large
    index. *)
Definition data_get (data : list Z) (i : Z) : jsval :=
  if decide (0 <= i) then
    match data !! Z.to_nat i with
    | Some v => Num v
    | None => Undefined
    end
  else Undefined.

(** Storing into a [Uint8ClampedArray] converts the value to a byte:
    numbers are clamped to 0..255, [NaN] and [undefined] become 0.  A store
    outside the array is ignored. *)
Definition clamp8 (v : jsval) : Z :=
  match v with
  | Num z => Z.max 0 (Z.min 255 z)
  | NaN | Undefined => 0
  end.

Definition data_set (data : list Z) (i : Z) (v : jsval) : list Z :=
  if decide (0 <= i) then <[Z.to_nat i := clamp8 v]> data else data.

(** [getPixelColor] of [fillFlood]. *)
Definition getPixelColor (canvasWidth : Z) (data : list Z) (px py : Z) : rgba :=
  let idx := (py * canvasWidth + px) * 4 in
  (data_get data idx, data_get data (idx + 1),
   data_get data (idx + 2), data_get data (idx + 3)).

(** [a === b]: [NaN] equals nothing, [undefined] only itself. *)
Definition strictEq (a b : jsval) : bool :=
  match a, b with
  | Num x, Num y => bool_decide (x = y)
  | Undefined, Undefined => true
  | _, _ => false
  end.

(** [colorsMatch] of [fillFlood]: all four channels strictly equal. *)
Definition colorsMatch (c1 c2 : rgba) : bool :=
  let '(a0, a1, a2, a3) := c1 in
  let '(b0, b1, b2, b3) := c2 in
  strictEq a0 b0 && strictEq a1 b1 && strictEq a2 b2 && strictEq a3 b3.

(** The four stores of the loop body. *)
Definition paintPixel (data : list Z) (idx : Z) (fillColor : rgba) : list Z :=
  let '(f0, f1, f2, f3) := fillColor in
  data_set (data_set (data_set (data_set data idx f0) (idx + 1) f1)
              (idx + 2) f2) (idx + 3) f3.

(** The four coordinates pushed after a pixel is recoloured, in the
    source's order: left, right, up, down. *)
Definition neighbours (p : Z * Z) : list (Z * Z) :=
  let '(cx, cy) := p in [(cx - 1, cy); (cx + 1, cy); (cx, cy - 1); (cx, cy + 1)].

(** State of the [while] loop.  [queue] and [data] are the source's
    variables; [painted] and [pushed] are ghost logs that record, in order,
    the pixels that were recoloured and the coordinates that were pushed. *)
Record fillState : Type := FillState {
  queue : list (Z * Z);
  data : list Z;
  painted : list (Z * Z);
  pushed : list (Z * Z)
}.

(** The bounds test of the loop: [cx < 0 || cx >= canvasWidth || cy < 0 ||
    cy >= canvasHeight]. *)
Definition outOfBounds (canvasWidth canvasHeight : Z) (p : Z * Z) : bool :=
  let '(cx, cy) := p in
  (cx <? 0) || (cx >=? canvasWidth) || (cy <? 0) || (cy >=? canvasHeight).

(** One iteration of [while (queue.length > 0)]; [None] when the queue is
    empty and the loop exits. *)
Definition fillStep (canvasWidth canvasHeight : Z) (targetColor : rgba)
    (fillColor : rgba) (st : fillState) : option fillState :=
  match queue st with
  | [] => None
  | (cx, cy) :: rest =>
      if outOfBounds canvasWidth canvasHeight (cx, cy) then
        Some (FillState rest (data st) (painted st) (pushed st))
      else
        let idx := (cy * canvasWidth + cx) * 4 in
        let currentColor :=
          (data_get (data st) idx, data_get (data st) (idx + 1),
           data_get (data st) (idx + 2), data_get (data st) (idx + 3)) in
        if colorsMatch currentColor targetColor then
          Some (FillState (rest ++ neighbours (cx, cy))
                  (paintPixel (data st) idx fillColor)
                  (painted st ++ [(cx, cy)])
                  (pushed st ++ neighbours (cx, cy)))
        else
          Some (FillState rest (data st) (painted st) (pushed st))
  end.

(** The loop, with fuel: [None] means the fuel ran out before the queue
    drained. *)
Fixpoint fillLoop (fuel : nat) (canvasWidth canvasHeight : Z)
    (targetColor : rgba) (fillColor : rgba) (st : fillState)
    : option fillState :=
  match fuel with
  | O => None
  | S fuel' =>
      match fillStep canvasWidth canvasHeight targetColor fillColor st with
      | None => Some st
      | Some st' => fillLoop fuel' canvasWidth canvasHeight targetColor fillColor st'
      end
  end.

(** The canvas: its size and the raster that [getImageData(0, 0, width,
    height)] reads and [putImageData(_, 0, 0)] replaces. *)
Record Canvas : Type := MkCanvas {
  cwidth : Z;
  cheight : Z;
  pixels : list Z
}.

(** [fillFlood], returning the final loop state as well ([None]: out of
    fuel).  The early [return] leaves the canvas alone and runs no loop. *)
Definition fillFloodTrace (fuel : nat) (ctx : Canvas) (x y : Z) (fillColor : rgba)
    : option (Canvas * fillState) :=
  let canvasWidth := cwidth ctx in
  let canvasHeight := cheight ctx in
  let data0 := pixels ctx in
  let targetColor := getPixelColor canvasWidth data0 x y in
  if colorsMatch targetColor fillColor then
    Some (ctx, FillState [] data0 [] [])
  else
    match fillLoop fuel canvasWidth canvasHeight targetColor fillColor
            (FillState [(x, y)] data0 [] [(x, y)]) with
    | Some st => Some (MkCanvas canvasWidth canvasHeight (data st), st)
    | None => None
    end.

Definition fillFlood (fuel : nat) (ctx : Canvas) (x y : Z) (fillColor : rgba)
    : option Canvas :=
  fst <$> fillFloodTrace fuel ctx x y fillColor.

(** Fuel that always suffices: the loop body runs at most once for the seed
    and four times per pixel, and one more test finds the queue empty. *)
Definition fillFuel (ctx : Canvas) : nat :=
  Z.to_nat (4 * (cwidth ctx * cheight ctx)) + 2.

(* ===================================================================== *)
(** * The Raster Canvas Store: canvas, history, undo and redo              *)
(* ===================================================================== *)

(** What [getImageData(0, 0, canvas.width, canvas.height)] captures: the
    bytes of the whole canvas.  Every snapshot in the history is such a
    full capture of the one canvas, so [putImageData(imageData, 0, 0)]
    replaces the raster. *)
Abbreviation ImageData := (list Z) (only parsing).

Definition getImageData (canvas : Canvas) : ImageData := pixels canvas.

Definition putImageData (imageData : ImageData) (canvas : Canvas) : Canvas :=
  MkCanvas (cwidth canvas) (cheight canvas) imageData.

(** The raster of an all-white opaque canvas. *)
Definition whiteData (w h : Z) : list Z :=
  replicate (Z.to_nat (4 * (w * h))) 255.

(** [ctx.clearRect(0, 0, w, h); ctx.fillStyle = 'white';
    ctx.fillRect(0, 0, w, h)]. *)
Definition fillWhite (canvas : Canvas) : Canvas :=
  MkCanvas (cwidth canvas) (cheight canvas)
    (whiteData (cwidth canvas) (cheight canvas)).

(** [canvasRef], [historyRef] and [historyIndexRef].  [canvasRef] is
    [None] while the component is not mounted ([canvasRef.current] is
    [null]); every handler guards on it.  (The handlers also guard on
    [getContext('2d')], which a canvas element always provides.) *)
Record Store : Type := MkStore {
  canvasRef : option Canvas;
  historyRef : list ImageData;
  historyIndexRef : Z
}.

(** [arr.slice(0, e)]: a negative end counts from the end of the array. *)
Definition sliceTo {A} (e : Z) (arr : list A) : list A :=
  let len := Z.of_nat (length arr) in
  take (Z.to_nat (if e <? 0 then Z.max (len + e) 0 else e)) arr.

(** [arr[i]]: [undefined] ([None]) outside the array. *)
Definition arrayGet {A} (arr : list A) (i : Z) : option A :=
  if decide (0 <= i) then arr !! Z.to_nat i else None.

Definition saveHistory (s : Store) : Store :=
  match canvasRef s with
  | None => s
  | Some canvas =>
      let imageData := getImageData canvas in
      let history1 :=
        if historyIndexRef s <? Z.of_nat (length (historyRef s)) - 1
        then sliceTo (historyIndexRef s + 1) (historyRef s)
        else historyRef s in
      let history2 := history1 ++ [imageData] in
      if Z.of_nat (length history2) >? 20
      then MkStore (canvasRef s) (tail history2) (historyIndexRef s)
      else MkStore (canvasRef s) history2 (historyIndexRef s + 1)
  end.

Definition undo (s : Store) : Store :=
  match canvasRef s with
  | None => s
  | Some canvas =>
      if historyIndexRef s <=? 0 then
        MkStore (Some (fillWhite canvas)) (historyRef s) (-1)
      else
        let index := historyIndexRef s - 1 in
        match arrayGet (historyRef s) index with
        | Some imageData =>
            MkStore (Some (putImageData imageData canvas)) (historyRef s) index
        | None => MkStore (canvasRef s) (historyRef s) index
        end
  end.

Definition redo (s : Store) : Store :=
  if historyIndexRef s >=? Z.of_nat (length (historyRef s)) - 1 then s
  else
    match canvasRef s with
    | None => s
    | Some canvas =>
        let index := historyIndexRef s + 1 in
        match arrayGet (historyRef s) index with
        | Some imageData =>
            MkStore (Some (putImageData imageData canvas)) (historyRef s) index
        | None => MkStore (canvasRef s) (historyRef s) index
        end
    end.

(** The "initial canvas setup" effect, for a canvas of [w] by [h]; the
    component runs it with [CANVAS_WIDTH] and [CANVAS_HEIGHT]. *)
Definition CANVAS_WIDTH : Z := 600.
Definition CANVAS_HEIGHT : Z := 400.

Definition setupCanvas (w h : Z) (s : Store) : Store :=
  match canvasRef s with
  | None => s
  | Some _ =>
      let canvas := fillWhite (MkCanvas w h []) in
      MkStore (Some canvas) [getImageData canvas] 0
  end.

(** The store part of [stopAnimation]. *)
Definition resetStore (s : Store) : Store :=
  match canvasRef s with
  | None => s
  | Some canvas => MkStore (Some (fillWhite canvas)) [] (-1)
  end.

(** [hasDrawing]: some pixel is not pure opaque white. *)
Fixpoint anyNonWhite (d : list Z) : bool :=
  match d with
  | r :: g :: b :: a :: rest =>
      if (r =? 255) && (g =? 255) && (b =? 255) && (a =? 255)
      then anyNonWhite rest else true
  | [] => false
  | _ => true
  end.

Definition hasDrawing (s : Store) : bool :=
  match canvasRef s with
  | None => false
  | Some canvas => anyNonWhite (getImageData canvas)
  end.

(* ===================================================================== *)
(** * The Paint Engine                                                     *)
(* ===================================================================== *)

Inductive Mode : Type := ModePen | ModeFill | ModeEraser.

(** ** [hexToRgba] *)

Definition hexDigit (c : ascii) : option Z :=
  let n := Z.of_nat (nat_of_ascii c) in
  if (48 <=? n) && (n <=? 57) then Some (n - 48)
  else if (97 <=? n) && (n <=? 102) then Some (n - 87)
  else if (65 <=? n) && (n <=? 70) then Some (n - 55)
  else None.

Definition isSpace (c : ascii) : bool :=
  let n := Z.of_nat (nat_of_ascii c) in
  ((9 <=? n) && (n <=? 13)) || (n =? 32).

Fixpoint trimStart (s : string) : string :=
  match s with
  | String c r => if isSpace c then trimStart r else s
  | EmptyString => s
  end.

(** The value of the longest prefix of hexadecimal digits, [None] when it
    is empty. *)
Fixpoint hexPrefix (acc : option Z) (s : string) : option Z :=
  match s with
  | String c r =>
      match hexDigit c with
      | Some dgt => hexPrefix (Some (default 0 acc * 16 + dgt)) r
      | None => acc
      end
  | EmptyString => acc
  end.

(** [parseInt(s, 16)]: leading white space, an optional sign and an
    optional [0x] are skipped; then the longest run of hexadecimal digits
    is read, and [NaN] results when there is none.  (Only the ASCII white
    space characters are recognised here.) *)
Definition parseInt16 (s : string) : jsval :=
  let s1 := trimStart s in
  let '(sign, s2) :=
    match s1 with
    | String c r =>
        if Ascii.eqb c "-" then (-1, r)
        else if Ascii.eqb c "+" then (1, r)
        else (1, s1)
    | EmptyString => (1, s1)
    end in
  let s3 :=
    match s2 with
    | String c (String d r) =>
        if Ascii.eqb c "0" && (Ascii.eqb d "x" || Ascii.eqb d "X") then r else s2
    | _ => s2
    end in
  match hexPrefix None s3 with
  | Some n => Num (sign * n)
  | None => NaN
  end.

Definition hexToRgba (hex : string) : rgba :=
  if Nat.eqb (String.length hex) 7 then
    (parseInt16 (substring 1 2 hex), parseInt16 (substring 3 2 hex),
     parseInt16 (substring 5 2 hex), Num 255)
  else (Num 0, Num 0, Num 0, Num 255).

(** ** Pointer events and the display surface *)

(** A mouse or touch event: the client position it carries and the
    bounding rectangle the canvas element has when it arrives (a rendered
    element, so of positive width and height). *)
Record PointerEvent : Type := MkPointerEvent {
  clientX : Q;
  clientY : Q;
  rectLeft : Q;
  rectTop : Q;
  rectWidth : Q;
  rectHeight : Q
}.

Definition getCanvasRelativePosition (e : PointerEvent) (canvas : Canvas) : Q * Q :=
  let scaleX := (inject_Z (cwidth canvas) / rectWidth e)%Q in
  let scaleY := (inject_Z (cheight canvas) / rectHeight e)%Q in
  (((clientX e - rectLeft e) * scaleX)%Q, ((clientY e - rectTop e) * scaleY)%Q).

(** The 2D context's rasterisers, which are the browser's and not part of
    the program: stroking a round-capped segment with a style and a width,
    and compositing the sprite at a position and rotation.  All the code
    relies on is that they draw into the canvas they are given, which keeps
    its size. *)
Class DisplaySurface : Type := {
  strokeLine : string -> Z -> Q * Q -> Q * Q -> Canvas -> Canvas;
  drawImage : Canvas -> Q -> Q -> Q -> Canvas -> Canvas;
  strokeLine_width : forall st lw a b c, cwidth (strokeLine st lw a b c) = cwidth c;
  strokeLine_height : forall st lw a b c, cheight (strokeLine st lw a b c) = cheight c;
  strokeLine_length : forall st lw a b c,
    length (pixels (strokeLine st lw a b c)) = length (pixels c);
  drawImage_width : forall img x y r c, cwidth (drawImage img x y r c) = cwidth c;
  drawImage_height : forall img x y r c, cheight (drawImage img x y r c) = cheight c;
  drawImage_length : forall img x y r c,
    length (pixels (drawImage img x y r c)) = length (pixels c)
}.

(** ** Component state *)

(** The tool state and the stroke session. *)
Record Pen : Type := MkPen {
  isDrawing : bool;
  position : Q * Q;
  color : string;
  lineWidth : Z;
  mode : Mode
}.

Record ImgPos : Type := MkImgPos { posX : Q; posY : Q; rotation : Q }.
Record Velocity : Type := MkVelocity { vx : Q; vy : Q; vr : Q }.

(** The animation state: [animating], [offscreenCanvasRef], [imgPosRef],
    [velocityRef]. *)
Record Anim : Type := MkAnim {
  animating : bool;
  offscreenCanvasRef : option Canvas;
  imgPosRef : ImgPos;
  velocityRef : Velocity
}.

(** The collaborators: whether [window.speechSynthesis] exists, the
    phrases spoken so far (by index into the fixed [phrases] table, newest
    last), and [Math.random] as a sequence of draws with the number of
    draws made so far. *)
Record Env : Type := MkEnv {
  speechSynthesis : bool;
  spoken : list Z;
  random : nat -> Q;
  drawn : nat
}.

Record App : Type := MkApp {
  store : Store;
  pen : Pen;
  anim : Anim;
  env : Env
}.

Definition withStore (st : Store) (s : App) : App := MkApp st (pen s) (anim s) (env s).
Definition withPen (p : Pen) (s : App) : App := MkApp (store s) p (anim s) (env s).
Definition withAnim (a : Anim) (s : App) : App := MkApp (store s) (pen s) a (env s).
Definition withEnv (e : Env) (s : App) : App := MkApp (store s) (pen s) (anim s) e.

Definition withCanvas (c : Canvas) (st : Store) : Store :=
  MkStore (Some c) (historyRef st) (historyIndexRef st).

(** ** [startDrawing], [draw], [stopDrawing] *)

(** [None] stands for a call that does not return: the bucket fill is run
    with [fillFuel], which is enough for the loop to drain whenever the fill
    colour has byte channels, as [hexToRgba] yields for ['black'] and for
    every value of the colour input. *)
Definition startDrawing (e : PointerEvent) (s : App) : option App :=
  if animating (anim s) then Some s
  else
    match canvasRef (store s) with
    | None => Some s
    | Some canvas =>
        let '(x, y) := getCanvasRelativePosition e canvas in
        match mode (pen s) with
        | ModeFill =>
            let st1 := saveHistory (store s) in
            let fillColor := hexToRgba (color (pen s)) in
            match fillFlood (fillFuel canvas) canvas (Qfloor x) (Qfloor y) fillColor with
            | Some canvas' => Some (withStore (withCanvas canvas' st1) s)
            | None => None
            end
        | _ =>
            let st1 := saveHistory (store s) in
            Some (withPen (MkPen true (x, y) (color (pen s)) (lineWidth (pen s))
                             (mode (pen s)))
                    (withStore st1 s))
        end
    end.

Definition draw `{DisplaySurface} (e : PointerEvent) (s : App) : App :=
  if negb (isDrawing (pen s)) then s
  else if animating (anim s) then s
  else
    match canvasRef (store s) with
    | None => s
    | Some canvas =>
        let '(x, y) := getCanvasRelativePosition e canvas in
        let '(strokeStyle, width) :=
          match mode (pen s) with
          | ModeEraser => ("white"%string, lineWidth (pen s) * 3)
          | _ => (color (pen s), lineWidth (pen s))
          end in
        let canvas' := strokeLine strokeStyle width (position (pen s)) (x, y) canvas in
        withPen (MkPen (isDrawing (pen s)) (x, y) (color (pen s))
                   (lineWidth (pen s)) (mode (pen s)))
          (withStore (withCanvas canvas' (store s)) s)
    end.

Definition stopDrawing (s : App) : App :=
  withPen (MkPen false (position (pen s)) (color (pen s)) (lineWidth (pen s))
             (mode (pen s))) s.

(* ===================================================================== *)
(** * The Sprite Animator                                                  *)
(* ===================================================================== *)

(** The test [r === 255 && g === 255 && b === 255 && a === 255]. *)
Definition isWhite (c : rgba) : bool :=
  let '(r, g, b, a) := c in
  strictEq r (Num 255) && strictEq g (Num 255) && strictEq b (Num 255)
    && strictEq a (Num 255).

(** The body of the two nested loops of [getDrawingBoundingBox]. *)
Definition bboxVisit (width : Z) (d : list Z) (y : Z)
    (acc : Z * Z * Z * Z) (x : Z) : Z * Z * Z * Z :=
  let '(minX, minY, maxX, maxY) := acc in
  if isWhite (getPixelColor width d x y) then acc
  else (if x <? minX then x else minX,
        if y <? minY then y else minY,
        if x >? maxX then x else maxX,
        if y >? maxY then y else maxY).

Definition getDrawingBoundingBox (canvas : Canvas) : option (Z * Z * Z * Z) :=
  let width := cwidth canvas in
  let height := cheight canvas in
  let d := getImageData canvas in
  let '(minX, minY, maxX, maxY) :=
    foldl (fun acc y => foldl (bboxVisit width d y) acc (seqZ 0 width))
      (width, height, 0, 0) (seqZ 0 height) in
  if (minX >? maxX) || (minY >? maxY) then None
  else Some (minX, minY, maxX, maxY).

(** [ctx.getImageData(minX, minY, drawWidth, drawHeight)] put into a fresh
    canvas of that size (the rectangle lies inside the source canvas). *)
Definition cropCanvas (canvas : Canvas) (minX minY drawWidth drawHeight : Z) : Canvas :=
  MkCanvas drawWidth drawHeight
    (flat_map (fun y =>
                 take (Z.to_nat (4 * drawWidth))
                   (drop (Z.to_nat ((y * cwidth canvas + minX) * 4)) (pixels canvas)))
       (seqZ minY drawHeight)).

(** [speakRandom]: without [window.speechSynthesis] it returns at once;
    otherwise it speaks [phrases[Math.floor(Math.random() * phrases.length)]]
    (there are 8 phrases) and replaces the velocity. *)
Definition speakRandom (s : App) : App :=
  let e := env s in
  if negb (speechSynthesis e) then s
  else
    let n := drawn e in
    let phrase := Qfloor (random e n * 8) in
    let velocity :=
      MkVelocity (random e (n + 1) * 12 - 6)%Q
                 (random e (n + 2) * 12 - 6)%Q
                 ((random e (n + 3) * (2 # 10) + (5 # 100))
                  * (if Qlt_le_dec (5 # 10) (random e (n + 4)) then 1 else -1))%Q in
    withEnv (MkEnv (speechSynthesis e) (spoken e ++ [phrase]) (random e) (n + 5))
      (withAnim (MkAnim (animating (anim s)) (offscreenCanvasRef (anim s))
                   (imgPosRef (anim s)) velocity) s).

Definition startAnimation (s : App) : App :=
  match canvasRef (store s) with
  | None => s
  | Some canvas =>
      match getDrawingBoundingBox canvas with
      | None => s
      | Some (minX, minY, maxX, maxY) =>
          let drawWidth := maxX - minX + 1 in
          let drawHeight := maxY - minY + 1 in
          let offCanvas := cropCanvas canvas minX minY drawWidth drawHeight in
          let e := env s in
          let n := drawn e in
          let imgPos :=
            MkImgPos (inject_Z (cwidth canvas) / 2)%Q
                     (inject_Z (cheight canvas) / 2)%Q 0%Q in
          let velocity :=
            MkVelocity (random e n * 12 - 6)%Q
                       (random e (n + 1) * 12 - 6)%Q
                       ((random e (n + 2) * (2 # 10) + (5 # 100))
                        * (if Qlt_le_dec (5 # 10) (random e (n + 3)) then 1 else -1))%Q in
          speakRandom
            (withEnv (MkEnv (speechSynthesis e) (spoken e) (random e) (n + 4))
               (withAnim (MkAnim true (Some offCanvas) imgPos velocity) s))
      end
  end.

Definition stopAnimation (s : App) : App :=
  let a := anim s in
  withStore (resetStore (store s))
    (withAnim (MkAnim false (offscreenCanvasRef a) (imgPosRef a) (velocityRef a)) s).

(** The position and velocity update of [animate], for a sprite of
    [imgWidth] by [imgHeight] on a canvas of [width] by [height]. *)
Definition advance (imgWidth imgHeight width height : Q)
    (p : ImgPos) (v : Velocity) : ImgPos * Velocity :=
  let x := (posX p + vx v)%Q in
  let y := (posY p + vy v)%Q in
  let rotation := (rotation p + vr v)%Q in
  let '(x, vx) :=
    if Qlt_le_dec (x - imgWidth / 2) 0 then ((imgWidth / 2)%Q, (- vx v)%Q)
    else if Qlt_le_dec width (x + imgWidth / 2)
         then ((width - imgWidth / 2)%Q, (- vx v)%Q)
         else (x, vx v) in
  let '(y, vy) :=
    if Qlt_le_dec (y - imgHeight / 2) 0 then ((imgHeight / 2)%Q, (- vy v)%Q)
    else if Qlt_le_dec height (y + imgHeight / 2)
         then ((height - imgHeight / 2)%Q, (- vy v)%Q)
         else (y, vy v) in
  (MkImgPos x y rotation, MkVelocity vx vy (vr v)).

(** One call of [animate]: the effect runs it only while [animating] and
    with both canvases present. *)
Definition animate `{DisplaySurface} (s : App) : App :=
  if negb (animating (anim s)) then s
  else
    match canvasRef (store s), offscreenCanvasRef (anim s) with
    | Some canvas, Some offCanvas =>
        let '(p, v) :=
          advance (inject_Z (cwidth offCanvas)) (inject_Z (cheight offCanvas))
            (inject_Z (cwidth canvas)) (inject_Z (cheight canvas))
            (imgPosRef (anim s)) (velocityRef (anim s)) in
        let canvas' := drawImage offCanvas (posX p) (posY p) (rotation p)
                         (fillWhite canvas) in
        withStore (withCanvas canvas' (store s))
          (withAnim (MkAnim (animating (anim s)) (offscreenCanvasRef (anim s)) p v) s)
    | _, _ => s
    end.

(* ===================================================================== *)
(** * The component as a state machine                                     *)
(* ===================================================================== *)

(** What the user and the browser can make the component do.  The colour,
    width and mode inputs and the undo and redo buttons are disabled while
    [animating]; the "finish" button is rendered only while not animating,
    "back" and "more" only while animating, and frames are scheduled only
    while animating.  (The buttons' [historyIndexRef]-based [disabled]
    values are computed at the last render and refs do not cause one, so
    they do not stop [undo] and [redo] from being called.) *)
Inductive Event : Type :=
  | PointerDown (e : PointerEvent)
  | PointerMove (e : PointerEvent)
  | PointerUp
  | ChangeColor (c : string)
  | ChangeLineWidth (n : Z)
  | ChangeMode (m : Mode)
  | ClickUndo
  | ClickRedo
  | ClickFinish
  | ClickBack
  | ClickMore
  | AnimationFrame.

Definition handle `{DisplaySurface} (ev : Event) (s : App) : option App :=
  let p := pen s in
  let busy := animating (anim s) in
  match ev with
  | PointerDown e => startDrawing e s
  | PointerMove e => Some (draw e s)
  | PointerUp => Some (stopDrawing s)
  | ChangeColor c =>
      Some (if busy || (if mode p is ModeEraser then true else false) then s
            else withPen (MkPen (isDrawing p) (position p) c (lineWidth p) (mode p)) s)
  | ChangeLineWidth n =>
      Some (if busy then s
            else withPen (MkPen (isDrawing p) (position p) (color p) n (mode p)) s)
  | ChangeMode m =>
      Some (if busy then s
            else withPen (MkPen (isDrawing p) (position p) (color p) (lineWidth p) m) s)
  | ClickUndo => Some (if busy then s else withStore (undo (store s)) s)
  | ClickRedo => Some (if busy then s else withStore (redo (store s)) s)
  | ClickFinish => Some (if busy then s else startAnimation s)
  | ClickBack => Some (if busy then stopAnimation s else s)
  | ClickMore => Some (if busy then speakRandom s else s)
  | AnimationFrame => Some (animate s)
  end.

(** Handling a sequence of events, oldest first. *)
Fixpoint run `{DisplaySurface} (evs : list Event) (s : App) : option App :=
  match evs with
  | [] => Some s
  | ev :: rest =>
      match handle ev s with
      | Some s' => run rest s'
      | None => None
      end
  end.

(** The component right after mounting, before its effects run: the canvas
    element exists with the default size of a canvas element and a
    transparent raster; the state has the values of the [useState] and
    [useRef] calls. *)
Definition defaultCanvas : Canvas :=
  MkCanvas 300 150 (replicate (Z.to_nat (4 * (300 * 150))) 0).

Definition mounted (speech : bool) (rand : nat -> Q) : App :=
  MkApp (MkStore (Some defaultCanvas) [] (-1))
        (MkPen false (0, 0)%Q "black" 2 ModePen)
        (MkAnim false None (MkImgPos 0 0 0)
           (MkVelocity (4 + rand 0%nat * 8)%Q (4 + rand 1%nat * 8)%Q
              ((rand 2%nat * (2 # 10) + (5 # 100))
               * (if Qlt_le_dec (5 # 10) (rand 3%nat) then 1 else -1))%Q))
        (MkEnv speech [] rand 4).

(** The state after the setup effect, for a canvas of [w] by [h]. *)
Definition started (w h : Z) (speech : bool) (rand : nat -> Q) : App :=
  let s := mounted speech rand in
  withStore (setupCanvas w h (store s)) s.

Definition initial (speech : bool) (rand : nat -> Q) : App :=
  started CANVAS_WIDTH CANVAS_HEIGHT speech rand.

(** States the component can be in. *)
Inductive reachable `{DisplaySurface} (w h : Z) : App -> Prop :=
  | reachable_start speech rand : reachable w h (started w h speech rand)
  | reachable_step s ev s' :
      reachable w h s -> handle ev s = Some s' -> reachable w h s'.

(* ===================================================================== *)
(** * The vocabulary of the statements                                     *)
(* ===================================================================== *)

(** ** Well-formedness and the pixel view used in statements *)

(** An [ImageData] of [w] by [h] pixels carries [4 * w * h] bytes. *)
Definition wfCanvas (c : Canvas) : Prop :=
  0 <= cwidth c /\ 0 <= cheight c /\
  Z.of_nat (length (pixels c)) = 4 * (cwidth c * cheight c).

Definition inBounds (w h : Z) (p : Z * Z) : Prop :=
  0 <= p.1 < w /\ 0 <= p.2 < h.

(** Channels of an RGBA colour are bytes. *)
Definition byteVal (v : jsval) : Prop :=
  match v with
  | Num z => 0 <= z <= 255
  | NaN | Undefined => False
  end.

Definition validColor (c : rgba) : Prop :=
  byteVal c.1.1.1 /\ byteVal c.1.1.2 /\ byteVal c.1.2 /\ byteVal c.2.

Definition pixelAt (w : Z) (d : list Z) (p : Z * Z) : rgba :=
  getPixelColor w d p.1 p.2.

Definition adjacent (p q : Z * Z) : Prop := q ∈ neighbours p.

(** The 4-connected region of [targetColor] pixels around the seed, in the
    raster [d] as it was before the fill. *)
Inductive connected (w h : Z) (d : list Z) (seed : Z * Z) : Z * Z -> Prop :=
  | connected_seed :
      inBounds w h seed -> connected w h d seed seed
  | connected_step p q :
      connected w h d seed p -> adjacent p q -> inBounds w h q ->
      pixelAt w d q = pixelAt w d seed ->
      connected w h d seed q.

(** The four-neighbour (von Neumann) relation of the plane, stated on the
    coordinates alone: two pixels share an edge when they differ by one
    step on exactly one axis, that is, their Manhattan distance is 1. *)
Definition edgeAdjacent (p q : Z * Z) : Prop :=
  Z.abs (q.1 - p.1) + Z.abs (q.2 - p.2) = 1.

(** The 4-connected closure of the seed among the pixels of the canvas
    that show exactly the seed's colour in the raster [d]: what can be
    reached from the seed by steps between edge-adjacent pixels, every one
    of them on the canvas and of the seed's RGBA colour. *)
Inductive region (w h : Z) (d : list Z) (seed : Z * Z) : Z * Z -> Prop :=
  | region_seed :
      inBounds w h seed -> region w h d seed seed
  | region_step p q :
      region w h d seed p -> edgeAdjacent p q -> inBounds w h q ->
      pixelAt w d q = pixelAt w d seed ->
      region w h d seed q.

(** The index of the first byte of a pixel. *)
Definition pixelIndex (w : Z) (p : Z * Z) : Z := (p.2 * w + p.1) * 4.

(** What a stored colour reads back as. *)
Definition stored (f : rgba) : rgba :=
  (Num (clamp8 f.1.1.1), Num (clamp8 f.1.1.2), Num (clamp8 f.1.2), Num (clamp8 f.2)).

(** How often a coordinate occurs in a list. *)
Definition occurrences (p : Z * Z) (l : list (Z * Z)) : nat :=
  length (filter (fun q => q = p) l).

#[global] Instance adjacent_dec p q : Decision (adjacent p q).
Proof. unfold adjacent. apply _. Defined.

(** The three outcomes of an iteration, on the pixel view. *)
Definition popOnly (st : fillState) (rest : list (Z * Z)) : fillState :=
  FillState rest (data st) (painted st) (pushed st).

Definition paintAt (w : Z) (fillColor : rgba) (st : fillState)
    (p : Z * Z) (rest : list (Z * Z)) : fillState :=
  FillState (rest ++ neighbours p)
    (paintPixel (data st) (pixelIndex w p) fillColor)
    (painted st ++ [p]) (pushed st ++ neighbours p).

(** ** Invariants of the bucket fill loop *)

(** The invariant that bounds the work: it needs no assumption on where
    the target colour came from.  [d0] is the raster before the fill and
    [q0] the initial queue. *)
Record basicInv (w h : Z) (d0 : list Z) (fill : rgba) (q0 : list (Z * Z))
    (st : fillState) : Prop := BasicInv {
  bi_len : length (data st) = length d0;
  bi_nodup : NoDup (painted st);
  bi_painted : forall p, p ∈ painted st ->
                 inBounds w h p /\ pixelAt w (data st) p = fill;
  bi_pushed : pushed st = q0 ++ flat_map neighbours (painted st)
}.

(** The quantity that drops by one at every iteration. *)
Definition fillMeasure (w h : Z) (st : fillState) : nat :=
  4 * (Z.to_nat (w * h) - length (painted st)) + length (queue st).

(** The invariant that ties the recoloured pixels to the 4-connected
    region of the seed. *)
Record connInv (w h : Z) (d0 : list Z) (fill : rgba) (seed : Z * Z)
    (st : fillState) : Prop := ConnInv {
  ci_basic : basicInv w h d0 fill [seed] st;
  ci_rest : forall p, inBounds w h p -> p ∉ painted st ->
              pixelAt w (data st) p = pixelAt w d0 p;
  ci_conn : forall p, p ∈ painted st -> connected w h d0 seed p;
  ci_frontier : forall p n, p ∈ painted st -> adjacent p n -> inBounds w h n ->
                  pixelAt w d0 n = pixelAt w d0 seed -> n ∈ painted st \/ n ∈ queue st;
  ci_queue : forall q, q ∈ queue st -> inBounds w h q ->
               pixelAt w d0 q = pixelAt w d0 seed -> connected w h d0 seed q;
  ci_seed : seed ∈ painted st \/ seed ∈ queue st
}.

(** ** The store and the drawing session *)

(** The raster the canvas shows. *)
Definition rasterOf (s : App) : option (list Z) := pixels <$> canvasRef (store s).

Definition historyLength (s : Store) : Z := Z.of_nat (length (historyRef s)).

(** What every reachable store satisfies: the canvas is there, the index is
    the sentinel [-1] or a position of the stack, and the stack holds at
    most 20 snapshots. *)
Definition storeInv (s : Store) : Prop :=
  is_Some (canvasRef s) /\
  -1 <= historyIndexRef s < historyLength s /\
  historyLength s <= 20.

(** Events of the drawing phase: pointer presses, moves and releases, and
    changes of the tool. *)
Definition isPaintEvent (ev : Event) : bool :=
  match ev with
  | PointerDown _ | PointerMove _ | PointerUp
  | ChangeColor _ | ChangeLineWidth _ | ChangeMode _ => true
  | _ => false
  end.

(** Every press starts one stroke or one fill. *)
Definition isDown (ev : Event) : bool :=
  match ev with PointerDown _ => true | _ => false end.

Definition gestures (evs : list Event) : nat := length (filter isDown evs).

(** After [n] gestures from the start (at most 19): the stack is the
    seeded white frame followed by [n] snapshots, the index is on the last
    one, and before the first gesture the canvas is still white. *)
Record paintInv (w h : Z) (n : nat) (s : App) : Prop := PaintInv {
  pi_idle : animating (anim s) = false;
  pi_canvas : is_Some (canvasRef (store s));
  pi_index : historyIndexRef (store s) = Z.of_nat n;
  pi_length : length (historyRef (store s)) = S n;
  pi_seed : historyRef (store s) !! 0%nat = Some (whiteData w h);
  pi_fresh : n = 0%nat ->
             isDrawing (pen s) = false /\ rasterOf s = Some (whiteData w h)
}.

(** ** Colours of the colour input *)

(** The value of an [<input type="color">]: [#] and six hexadecimal
    digits. *)
Definition isHexDigit (c : ascii) : bool :=
  match hexDigit c with Some _ => true | None => false end.

Definition isHexColor (s : string) : bool :=
  match s with
  | String h (String a (String b (String c (String d (String e (String f
      EmptyString)))))) =>
      Ascii.eqb h "#" && isHexDigit a && isHexDigit b && isHexDigit c
        && isHexDigit d && isHexDigit e && isHexDigit f
  | _ => false
  end.

(** The colours the component can hold: the initial ['black'] and the
    values of the colour input. *)
Definition goodColor (s : string) : Prop := s = "black"%string \/ isHexColor s = true.

(** Events whose payload respects the colour input's contract. *)
Definition goodEvent (ev : Event) : Prop :=
  match ev with
  | ChangeColor c => isHexColor c = true
  | _ => True
  end.

Definition rasterLength (w h : Z) : nat := Z.to_nat (4 * (w * h)).

(** The canvas and every snapshot have the size of the setup, and the pen
    colour is one the bucket fill can use. *)
Record wfInv (w h : Z) (s : App) : Prop := WfInv {
  wi_canvas : exists canvas, canvasRef (store s) = Some canvas /\
                cwidth canvas = w /\ cheight canvas = h /\
                length (pixels canvas) = rasterLength w h;
  wi_history : Forall (fun img => length img = rasterLength w h)
                 (historyRef (store s));
  wi_color : goodColor (color (pen s))
}.

(** ** The sprite *)

(** The accumulator of [getDrawingBoundingBox] stays on the canvas. *)
Definition boxInv (w h : Z) (acc : Z * Z * Z * Z) : Prop :=
  let '(minX, minY, maxX, maxY) := acc in
  0 <= minX <= w /\ 0 <= minY <= h /\ 0 <= maxX < w /\ 0 <= maxY < h.

(** The canvas is present and has the size of the setup. *)
Definition sameSize (w h : Z) (s : Store) : Prop :=
  exists canvas, canvasRef s = Some canvas /\ cwidth canvas = w /\ cheight canvas = h.

Local Open Scope Q_scope.

(** While animating, the sprite is a crop no larger than the canvas and
    its centre keeps half its extent away from every wall. *)
Record animInv (w h : Z) (s : App) : Prop := AnimInv {
  ai_size : sameSize w h (store s);
  ai_sprite : forall off, offscreenCanvasRef (anim s) = Some off ->
                (1 <= cwidth off <= w)%Z /\ (1 <= cheight off <= h)%Z;
  ai_inside : animating (anim s) = true ->
    exists off, offscreenCanvasRef (anim s) = Some off /\
      inject_Z (cwidth off) / 2 <= posX (imgPosRef (anim s))
        <= inject_Z w - inject_Z (cwidth off) / 2 /\
      inject_Z (cheight off) / 2 <= posY (imgPosRef (anim s))
        <= inject_Z h - inject_Z (cheight off) / 2
}.

(** The velocity that both [startAnimation] and [speakRandom] build from
    four consecutive draws [r0 .. r3]:
    [vx = r0 * 12 - 6], [vy = r1 * 12 - 6],
    [vr = (r2 * 0.2 + 0.05) * (r3 > 0.5 ? 1 : -1)]. *)
Definition rolled (r0 r1 r2 r3 : Q) : Velocity :=
  MkVelocity (r0 * 12 - 6) (r1 * 12 - 6)
    ((r2 * (2 # 10) + (5 # 100)) * (if Qlt_le_dec (5 # 10) r3 then 1 else -1)).

Local Close Scope Q_scope.

(** ** Vocabulary of the further properties *)

(** What [parseInt] of at most two characters can be: [NaN], or an integer
    from [-15] (a sign and one digit) to [255] (two digits). *)
Definition channelVal (v : jsval) : Prop :=
  match v with
  | Num z => -15 <= z <= 255
  | NaN => True
  | Undefined => False
  end.

(** Every pixel of the raster shows the colour [c]. *)
Definition uniform (w h : Z) (d : list Z) (c : rgba) : Prop :=
  forall p, inBounds w h p -> pixelAt w d p = c.

(** The canvas shows the snapshot under the history index. *)
Definition synced (s : Store) : Prop :=
  pixels <$> canvasRef s = arrayGet (historyRef s) (historyIndexRef s).

(** The style and width [draw] strokes with: white and three times the
    width for the eraser, the pen colour and width otherwise. *)
Definition penStyle (p : Pen) : string * Z :=
  match mode p with
  | ModeEraser => ("white"%string, lineWidth p * 3)
  | _ => (color p, lineWidth p)
  end.

(** The segments from [p] through [pts], stroked one after the other. *)
Fixpoint strokePath `{DisplaySurface} (style : string) (width : Z) (p : Q * Q)
    (pts : list (Q * Q)) (c : Canvas) : Canvas :=
  match pts with
  | [] => c
  | q :: rest => strokePath style width q rest (strokeLine style width p q c)
  end.

(** A pixel that [getDrawingBoundingBox] and [hasDrawing] take for part of
    the drawing: not pure opaque white. *)
Definition drawnAt (w : Z) (d : list Z) (p : Z * Z) : Prop :=
  isWhite (pixelAt w d p) = false.

(** What the accumulator of [getDrawingBoundingBox] holds after the pixels
    [seen] were visited: it bounds the drawn pixels among them, each bound
    is either still the initial one or met by a drawn pixel, and it is the
    initial accumulator as long as no drawn pixel was seen. *)
Definition boxOf (w h : Z) (d : list Z) (seen : list (Z * Z))
    (acc : Z * Z * Z * Z) : Prop :=
  let '(minX, minY, maxX, maxY) := acc in
  (forall p, p ∈ seen -> drawnAt w d p ->
     minX <= p.1 <= maxX /\ minY <= p.2 <= maxY) /\
  (minX = w \/ exists p, p ∈ seen /\ drawnAt w d p /\ p.1 = minX) /\
  (minY = h \/ exists p, p ∈ seen /\ drawnAt w d p /\ p.2 = minY) /\
  (maxX = 0 \/ exists p, p ∈ seen /\ drawnAt w d p /\ p.1 = maxX) /\
  (maxY = 0 \/ exists p, p ∈ seen /\ drawnAt w d p /\ p.2 = maxY) /\
  ((forall p, p ∈ seen -> ~ drawnAt w d p) -> acc = (w, h, 0, 0)).

(** The pixels of the rows [ys], in the order the two loops visit them. *)
Definition rowsOf (w : Z) (ys : list Z) : list (Z * Z) :=
  ys ≫= (fun y => (fun x => (x, y)) <$> seqZ 0 w).


(* ===================================================================== *)
(** * Small inputs for the examples                                        *)
(* ===================================================================== *)

(** A stroke blackens the pixel under the end point of the segment (if it
    lies on the canvas); compositing the sprite draws nothing. *)
Definition dotAt (p : Q * Q) (c : Canvas) : Canvas :=
  let x := Qfloor p.1 in
  let y := Qfloor p.2 in
  if outOfBounds (cwidth c) (cheight c) (x, y) then c
  else MkCanvas (cwidth c) (cheight c)
         (paintPixel (pixels c) ((y * cwidth c + x) * 4) (rgbOf 0 0 0 255)).

Definition dotSurface : DisplaySurface.
Proof.
  refine {| strokeLine := fun _ _ _ b c => dotAt b c;
            drawImage := fun _ _ _ _ c => c |}; try done.
  all: intros _ _ _ b c; unfold dotAt; destruct (outOfBounds _ _ _); try done.
  cbn [pixels]. unfold paintPixel, rgbOf, data_set.
  repeat case_decide; by rewrite ?length_insert.
Defined.

(** A 3 by 3 canvas, white but for a black middle column that separates
    the left column from the right one. *)
Definition wall3 : Canvas :=
  MkCanvas 3 3
    (flat_map (fun k => if k `mod` 3 =? 1 then [0; 0; 0; 255]
                        else [255; 255; 255; 255]) (seqZ 0 9)).

Definition red : rgba := rgbOf 255 0 0 255.
Definition white : rgba := rgbOf 255 255 255 255.

(** A pointer event at canvas position [(x, y)], the element being shown
    at its natural size with its corner at the client origin. *)
Definition pointerAt (w h x y : Z) : PointerEvent :=
  MkPointerEvent (inject_Z x) (inject_Z y) 0 0 (inject_Z w) (inject_Z h).

(** A pen gesture on a [w] by [h] canvas: press at [(x, y)], move to
    [(x', y')], release. *)
Definition stroke (w h x y x' y' : Z) : list Event :=
  [PointerDown (pointerAt w h x y); PointerMove (pointerAt w h x' y'); PointerUp].

Definition noDraws : nat -> Q := fun _ => 0%Q.

(** Twenty-one strokes on a 5 by 5 canvas, each ending on a pixel of its
    own, and the state after them. *)
Definition strokes21 : list Event :=
  flat_map (fun k => stroke 5 5 0 0 (k `mod` 5) (k `div` 5)) (seqZ 0 21).

Definition after21 : App :=
  default (started 5 5 true noDraws)
    (@run dotSurface strokes21 (started 5 5 true noDraws)).

(** Draws that differ from one another: [k / 16] for the [k]-th draw (a
    value in [[0, 1)] for the first sixteen draws, which is all the
    examples use). *)
Definition ramp : nat -> Q := fun k => (Z.of_nat k # 16)%Q.

(** The state after a stroke and "finish" in a browser without speech
    synthesis. *)
Definition animatingMute : App :=
  default (started 2 2 false ramp)
    (@run dotSurface (stroke 2 2 0 0 1 0 ++ [ClickFinish]) (started 2 2 false ramp)).

(** Two black pixels side by side. *)
Definition black2 : Canvas := MkCanvas 2 1 [0; 0; 0; 255; 0; 0; 0; 255].

(** The state after a stroke and an undo. *)
Definition undone : App :=
  default (started 2 2 true noDraws)
    (@run dotSurface (stroke 2 2 0 0 1 0 ++ [ClickUndo]) (started 2 2 true noDraws)).

(** The state after a stroke, "finish", "back" and a second stroke: the
    reset emptied the history, so the press of the second stroke saved the
    white canvas as snapshot 0, and the canvas now shows that stroke. *)
Definition redrawn : App :=
  default (started 2 2 false ramp)
    (@run dotSurface
       (stroke 2 2 0 0 1 0 ++ [ClickFinish; ClickBack] ++ stroke 2 2 0 0 1 0)
       (started 2 2 false ramp)).

(** A state whose canvas shows [wall3], in a browser with speech
    synthesis. *)
Definition wallState : App :=
  withStore (MkStore (Some wall3) [whiteData 3 3] 0) (started 3 3 true ramp).


(* ===================================================================== *)
(** * Lemmas                                                               *)
(* ===================================================================== *)

(** ** The byte array seen as pixels *)

Lemma pixelIndex_range w h p :
  inBounds w h p -> 0 <= pixelIndex w p /\ pixelIndex w p + 3 < 4 * (w * h).
Proof.
  unfold inBounds, pixelIndex. destruct p as [x y]; simpl. intros [Hx Hy]. nia.
Qed.

Lemma pixelIndex_inj w h p q :
  inBounds w h p -> inBounds w h q -> pixelIndex w p = pixelIndex w q -> p = q.
Proof.
  unfold inBounds, pixelIndex. destruct p as [x y], q as [x' y']; simpl.
  intros [Hx Hy] [Hx' Hy'] Heq.
  assert (y = y') by nia. subst y'.
  assert (x = x') by nia. by subst.
Qed.

Lemma length_data_set d i v : length (data_set d i v) = length d.
Proof. unfold data_set. case_decide; [apply length_insert | done]. Qed.

Lemma data_get_set_eq d i v :
  0 <= i < Z.of_nat (length d) -> data_get (data_set d i v) i = Num (clamp8 v).
Proof.
  intros Hi. unfold data_get, data_set.
  rewrite !decide_True by lia.
  rewrite list_lookup_insert_eq by lia. done.
Qed.

Lemma data_get_set_ne d i j v :
  i <> j -> data_get (data_set d i v) j = data_get d j.
Proof.
  intros Hne. unfold data_get, data_set.
  destruct (decide (0 <= j)); [|done].
  destruct (decide (0 <= i)); [|done].
  rewrite list_lookup_insert_ne by lia. done.
Qed.

Lemma length_paintPixel d idx f : length (paintPixel d idx f) = length d.
Proof.
  destruct f as [[[f0 f1] f2] f3]. unfold paintPixel.
  by rewrite !length_data_set.
Qed.

Lemma pixelAt_paint_same w h d p f :
  inBounds w h p -> Z.of_nat (length d) = 4 * (w * h) ->
  pixelAt w (paintPixel d (pixelIndex w p) f) p = stored f.
Proof.
  intros Hp Hlen. pose proof (pixelIndex_range w h p Hp) as [H0 H3].
  destruct f as [[[f0 f1] f2] f3].
  unfold pixelAt, getPixelColor, paintPixel, stored. fold (pixelIndex w p).
  set (i := pixelIndex w p) in *. simpl.
  repeat f_equal.
  - rewrite !data_get_set_ne by lia. apply data_get_set_eq. lia.
  - rewrite !data_get_set_ne by lia. apply data_get_set_eq.
    rewrite length_data_set. lia.
  - rewrite !data_get_set_ne by lia. apply data_get_set_eq.
    rewrite !length_data_set. lia.
  - apply data_get_set_eq. rewrite !length_data_set. lia.
Qed.

Lemma pixelAt_paint_other w h d p q f :
  inBounds w h p -> inBounds w h q -> p <> q ->
  pixelAt w (paintPixel d (pixelIndex w p) f) q = pixelAt w d q.
Proof.
  intros Hp Hq Hne.
  assert (pixelIndex w p <> pixelIndex w q) as Hidx
    by (intros E; apply Hne; eauto using pixelIndex_inj).
  assert (exists a b, pixelIndex w p = 4 * a /\ pixelIndex w q = 4 * b) as (a & b & Ha & Hb)
    by (unfold pixelIndex; exists (p.2 * w + p.1), (q.2 * w + q.1); lia).
  destruct f as [[[f0 f1] f2] f3].
  unfold pixelAt, getPixelColor, paintPixel. fold (pixelIndex w q).
  rewrite !data_get_set_ne by lia. done.
Qed.

Lemma strictEq_true a b : strictEq a b = true -> a = b.
Proof.
  destruct a, b; simpl; try discriminate; try done.
  intros H. apply bool_decide_eq_true in H. by subst.
Qed.

Lemma colorsMatch_true c1 c2 : colorsMatch c1 c2 = true -> c1 = c2.
Proof.
  destruct c1 as [[[a0 a1] a2] a3], c2 as [[[b0 b1] b2] b3]. simpl.
  rewrite !andb_true_iff. intros [[[H0 H1] H2] H3].
  apply strictEq_true in H0, H1, H2, H3. by subst.
Qed.

Lemma data_get_not_NaN d i : data_get d i <> NaN.
Proof. unfold data_get. case_decide; [destruct (d !! _)|]; done. Qed.

Lemma strictEq_refl a : a <> NaN -> strictEq a a = true.
Proof. destruct a; simpl; try done. intros _. by apply bool_decide_eq_true. Qed.

Lemma colorsMatch_pixel_refl w d p : colorsMatch (pixelAt w d p) (pixelAt w d p) = true.
Proof.
  unfold pixelAt, getPixelColor. simpl.
  rewrite !strictEq_refl by apply data_get_not_NaN. done.
Qed.

Lemma colorsMatch_pixel_iff w d p c :
  colorsMatch (pixelAt w d p) c = true <-> pixelAt w d p = c.
Proof.
  split; [apply colorsMatch_true|]. intros <-. apply colorsMatch_pixel_refl.
Qed.

Lemma clamp8_byte v : byteVal v -> Num (clamp8 v) = v.
Proof. destruct v; simpl; try done. intros H. f_equal. lia. Qed.

Lemma stored_valid f : validColor f -> stored f = f.
Proof.
  destruct f as [[[f0 f1] f2] f3]. unfold validColor, stored. simpl.
  intros (H0 & H1 & H2 & H3). by rewrite !clamp8_byte.
Qed.

Lemma outOfBounds_false w h p : outOfBounds w h p = false <-> inBounds w h p.
Proof.
  destruct p as [x y]. unfold outOfBounds, inBounds. simpl.
  rewrite !orb_false_iff, !Z.ltb_ge, !Z.geb_leb, !Z.leb_gt. lia.
Qed.

Lemma outOfBounds_true w h p : outOfBounds w h p = true <-> ~ inBounds w h p.
Proof.
  rewrite <- outOfBounds_false. by destruct (outOfBounds w h p).
Qed.

Lemma length_neighbours p : length (neighbours p) = 4%nat.
Proof. by destruct p. Qed.

Lemma fillStep_nil w h t f st : queue st = [] -> fillStep w h t f st = None.
Proof. unfold fillStep. by intros ->. Qed.

Lemma fillStep_cons w h t f st p rest :
  queue st = p :: rest ->
  fillStep w h t f st =
    Some (if outOfBounds w h p then popOnly st rest
          else if colorsMatch (pixelAt w (data st) p) t then paintAt w f st p rest
          else popOnly st rest).
Proof.
  unfold fillStep. intros ->. destruct p as [cx cy].
  destruct (outOfBounds w h (cx, cy)); [done|].
  change (data_get (data st) ((cy * w + cx) * 4),
          data_get (data st) ((cy * w + cx) * 4 + 1),
          data_get (data st) ((cy * w + cx) * 4 + 2),
          data_get (data st) ((cy * w + cx) * 4 + 3))
    with (pixelAt w (data st) (cx, cy)).
  by destruct (colorsMatch _ t).
Qed.

Lemma fillStep_None w h t f st : fillStep w h t f st = None -> queue st = [].
Proof.
  destruct (queue st) as [|p rest] eqn:E; [done|].
  by rewrite (fillStep_cons _ _ _ _ _ _ _ E).
Qed.

(** Loop rule: a property kept by every iteration holds when the loop
    exits, and the queue is then empty. *)
Lemma fillLoop_rule w h t f (I : fillState -> Prop) :
  (forall st st', I st -> fillStep w h t f st = Some st' -> I st') ->
  forall fuel st st',
    I st -> fillLoop fuel w h t f st = Some st' -> I st' /\ queue st' = [].
Proof.
  intros Hstep. induction fuel as [|fuel IH]; intros st st' HI; simpl; [done|].
  destruct (fillStep w h t f st) as [st1|] eqn:E.
  - intros Hrun. eapply IH; [|exact Hrun]. eauto.
  - intros [= <-]. split; [done|]. by eapply fillStep_None.
Qed.

(** ** The loop invariant that bounds the work

    It needs no assumption on where the target colour came from, only that
    storing the fill colour yields a pixel that no longer matches it. *)
Section FillBasic.
Variables (w h : Z) (d0 : list Z) (target fill : rgba) (q0 : list (Z * Z)).
Hypothesis Hw : 0 <= w.
Hypothesis Hh : 0 <= h.
Hypothesis Hlen : Z.of_nat (length d0) = 4 * (w * h).
Hypothesis Hfill : validColor fill.
Hypothesis Hdiff : colorsMatch target fill = false.

Lemma target_ne_fill : target <> fill.
Proof.
  intros ->. destruct fill as [[[f0 f1] f2] f3].
  destruct Hfill as (H0 & H1 & H2 & H3). simpl in *.
  destruct f0, f1, f2, f3; simpl in *; try done.
  rewrite !bool_decide_eq_true_2 in Hdiff by done. done.
Qed.

Lemma basicInv_init : basicInv w h d0 fill q0 (FillState q0 d0 [] q0).
Proof. split; simpl; [done|constructor|by intros p ?%elem_of_nil|by rewrite app_nil_r]. Qed.

Lemma basicInv_step st st' :
  basicInv w h d0 fill q0 st -> fillStep w h target fill st = Some st' -> basicInv w h d0 fill q0 st'.
Proof.
  intros [Hl Hnd Hp Hpu] Hstep.
  destruct (queue st) as [|p rest] eqn:Eq;
    [by rewrite fillStep_nil in Hstep|].
  rewrite (fillStep_cons _ _ _ _ _ _ _ Eq) in Hstep.
  destruct (outOfBounds w h p) eqn:Eo; [injection Hstep as <-; by split|].
  apply outOfBounds_false in Eo.
  destruct (colorsMatch (pixelAt w (data st) p) target) eqn:Em;
    injection Hstep as <-; [|by split].
  apply colorsMatch_pixel_iff in Em.
  assert (p ∉ painted st) as Hnew.
  { intros Hin. destruct (Hp p Hin) as [_ Hc]. apply target_ne_fill. congruence. }
  split; simpl.
  - by rewrite length_paintPixel.
  - apply NoDup_app. split_and!; [done| |apply NoDup_singleton].
    intros x Hx ->%list_elem_of_singleton. done.
  - intros x [Hx| ->%list_elem_of_singleton]%elem_of_app.
    + destruct (Hp x Hx) as [Hb Hc]. split; [done|].
      rewrite (pixelAt_paint_other w h) by (try done; by intros ->). done.
    + split; [done|].
      rewrite (pixelAt_paint_same w h) by (try done; lia).
      by apply stored_valid.
  - rewrite Hpu, flat_map_app. simpl. by rewrite app_nil_r, app_assoc.
Qed.

(** Every pixel is recoloured at most once, so at most [w * h] are. *)
Lemma painted_bound st :
  basicInv w h d0 fill q0 st -> (length (painted st) <= Z.to_nat (w * h))%nat.
Proof.
  intros [_ Hnd Hp _].
  set (key := fun p : Z * Z => p.2 * w + p.1).
  assert (NoDup (key <$> painted st)) as Hnd'.
  { apply NoDup_fmap_2_strong; [|done].
    intros p q Hpin Hqin Hk. destruct (Hp p Hpin) as [Hbp _], (Hp q Hqin) as [Hbq _].
    apply (pixelIndex_inj w h); [done..|]. unfold pixelIndex, key in *. lia. }
  assert (key <$> painted st ⊆+ seqZ 0 (w * h)) as Hsub.
  { apply NoDup_submseteq; [done|].
    intros k (p & -> & Hpin)%list_elem_of_fmap.
    destruct (Hp p Hpin) as [[Hx Hy] _]. apply elem_of_seqZ. unfold key. nia. }
  apply submseteq_length in Hsub.
  rewrite length_fmap, length_seqZ in Hsub. lia.
Qed.

Lemma fillMeasure_step st st' :
  basicInv w h d0 fill q0 st -> fillStep w h target fill st = Some st' ->
  S (fillMeasure w h st') = fillMeasure w h st.
Proof.
  intros HI Hstep. pose proof (basicInv_step _ _ HI Hstep) as HI'.
  apply painted_bound in HI'.
  destruct (queue st) as [|p rest] eqn:Eq;
    [by rewrite fillStep_nil in Hstep|].
  rewrite (fillStep_cons _ _ _ _ _ _ _ Eq) in Hstep.
  unfold fillMeasure. rewrite Eq.
  destruct (outOfBounds w h p); [injection Hstep as <-; simpl; lia|].
  destruct (colorsMatch _ target); injection Hstep as <-; [|simpl; lia].
  unfold paintAt in *. cbn [painted queue] in *.
  rewrite !length_app, ?length_neighbours in *. cbn [length] in *. lia.
Qed.

(** The loop exits as soon as the fuel exceeds the measure. *)
Lemma fillLoop_terminates fuel st :
  basicInv w h d0 fill q0 st -> (fillMeasure w h st < fuel)%nat ->
  exists st', fillLoop fuel w h target fill st = Some st'.
Proof.
  revert st. induction fuel as [|fuel IH]; intros st HI Hm; [lia|].
  simpl. destruct (fillStep w h target fill st) as [st1|] eqn:E; [|by eexists].
  apply IH; [by eapply basicInv_step|].
  pose proof (fillMeasure_step _ _ HI E). lia.
Qed.

End FillBasic.

(** More fuel than needed does not change the result. *)
Lemma fillLoop_more_fuel w h target fill fuel fuel' st st' :
  fillLoop fuel w h target fill st = Some st' -> (fuel <= fuel')%nat ->
  fillLoop fuel' w h target fill st = Some st'.
Proof.
  revert fuel' st. induction fuel as [|fuel IH]; intros fuel' st; [done|].
  destruct fuel' as [|fuel']; [lia|]. simpl.
  destruct (fillStep w h target fill st); [|done].
  intros H ?. apply IH; [done|lia].
Qed.

(** ** The loop invariant that ties the recoloured pixels to the
    4-connected region of the seed *)
Section FillConnected.
Variables (w h : Z) (d0 : list Z) (fill : rgba) (seed : Z * Z).
Let target : rgba := pixelAt w d0 seed.
Hypothesis Hw : 0 <= w.
Hypothesis Hh : 0 <= h.
Hypothesis Hlen : Z.of_nat (length d0) = 4 * (w * h).
Hypothesis Hfill : validColor fill.
Hypothesis Hseed : inBounds w h seed.
Hypothesis Hdiff : colorsMatch target fill = false.

Lemma connInv_init : connInv w h d0 fill seed (FillState [seed] d0 [] [seed]).
Proof.
  split; simpl.
  - apply basicInv_init.
  - done.
  - by intros p ?%elem_of_nil.
  - by intros p n ?%elem_of_nil.
  - intros q ->%list_elem_of_singleton _ _. by constructor.
  - right. by apply list_elem_of_singleton.
Qed.

(** A pixel that no longer shows the target colour although it did in the
    original raster has been recoloured. *)
Lemma changed_is_painted st p :
  connInv w h d0 fill seed st -> inBounds w h p -> pixelAt w d0 p = target ->
  pixelAt w (data st) p <> target -> p ∈ painted st.
Proof.
  intros HI Hb Ht Hne. destruct (decide (p ∈ painted st)) as [|Hnot]; [done|].
  exfalso. apply Hne. by rewrite (ci_rest _ _ _ _ _ _ HI p Hb Hnot).
Qed.

Lemma connInv_step st st' :
  connInv w h d0 fill seed st -> fillStep w h target fill st = Some st' -> connInv w h d0 fill seed st'.
Proof.
  intros HI Hstep.
  pose proof (basicInv_step w h d0 target fill [seed] Hlen Hfill Hdiff
                _ _ (ci_basic _ _ _ _ _ _ HI) Hstep) as HB'.
  destruct (queue st) as [|p rest] eqn:Eq;
    [by rewrite fillStep_nil in Hstep|].
  rewrite (fillStep_cons _ _ _ _ _ _ _ Eq) in Hstep.
  destruct HI as [HB Hrest Hconn Hfr Hq Hsd].
  rewrite Eq in Hfr, Hq, Hsd.
  destruct (outOfBounds w h p) eqn:Eo.
  { (* the coordinate is outside the canvas: dropped *)
    injection Hstep as <-. apply outOfBounds_true in Eo.
    split; simpl; try done.
    - intros p' n Hp' Hadj Hn Ht.
      destruct (Hfr p' n Hp' Hadj Hn Ht) as [|[->|]%elem_of_cons]; auto. done.
    - intros q Hin. apply Hq. by right.
    - destruct Hsd as [|[->|]%elem_of_cons]; auto. done. }
  apply outOfBounds_false in Eo.
  destruct (colorsMatch (pixelAt w (data st) p) target) eqn:Em;
    injection Hstep as <-.
  - (* the pixel shows the target colour: recoloured, neighbours pushed *)
    apply colorsMatch_pixel_iff in Em.
    assert (p ∉ painted st) as Hnew.
    { intros Hin. destruct (bi_painted _ _ _ _ _ _ HB p Hin) as [_ Hc].
      apply (target_ne_fill target fill Hfill Hdiff). congruence. }
    assert (pixelAt w d0 p = target) as Hp0 by (by rewrite <- (Hrest p Eo Hnew)).
    assert (connected w h d0 seed p) as Hcp by (apply Hq; [by left|done..]).
    split; simpl; try done.
    + intros x Hx Hnx. apply not_elem_of_app in Hnx as [Hnx Hne].
      rewrite (pixelAt_paint_other w h) by
        (try done; intros ->; apply Hne; by apply list_elem_of_singleton).
      by apply Hrest.
    + intros x [Hx| ->%list_elem_of_singleton]%elem_of_app; auto.
    + intros x n [Hx| ->%list_elem_of_singleton]%elem_of_app Hadj Hn Ht.
      * destruct (Hfr x n Hx Hadj Hn Ht) as [|[->|]%elem_of_cons].
        -- left. apply elem_of_app. by left.
        -- left. apply elem_of_app. right. by apply list_elem_of_singleton.
        -- right. apply elem_of_app. by left.
      * right. apply elem_of_app. by right.
    + intros q [Hin|Hin]%elem_of_app Hb Ht.
      * apply Hq; [by right|done..].
      * by apply (connected_step w h d0 seed p q).
    + destruct Hsd as [|[->|]%elem_of_cons].
      * left. apply elem_of_app. by left.
      * left. apply elem_of_app. right. by apply list_elem_of_singleton.
      * right. apply elem_of_app. by left.
  - (* the pixel shows another colour: dropped *)
    assert (pixelAt w (data st) p <> target) as Hne.
    { intros E. apply colorsMatch_pixel_iff in E. congruence. }
    assert (pixelAt w d0 p = target -> p ∈ painted st) as Hpaint.
    { intros Ht. destruct (decide (p ∈ painted st)) as [|Hnot]; [done|].
      exfalso. apply Hne. by rewrite (Hrest p Eo Hnot). }
    split; simpl; try done.
    + intros p' n Hp' Hadj Hn Ht.
      destruct (Hfr p' n Hp' Hadj Hn Ht) as [|[->|]%elem_of_cons]; auto.
    + intros q Hin. apply Hq. by right.
    + destruct Hsd as [|[->|]%elem_of_cons]; auto.
Qed.

(** When the queue is empty the recoloured pixels are the whole region. *)
Lemma connInv_complete st p :
  connInv w h d0 fill seed st -> queue st = [] -> connected w h d0 seed p -> p ∈ painted st.
Proof.
  intros HI Hq Hc. induction Hc as [|p q Hc IH Hadj Hb Ht].
  - destruct (ci_seed _ _ _ _ _ _ HI) as [|Hin]; [done|]. rewrite Hq in Hin.
    by apply elem_of_nil in Hin.
  - destruct (ci_frontier _ _ _ _ _ _ HI p q IH Hadj Hb Ht) as [|Hin]; [done|].
    rewrite Hq in Hin. by apply elem_of_nil in Hin.
Qed.
End FillConnected.

(** ** The coordinates the loop pushes are the four edge neighbours *)

(** The list [neighbours p] of the source holds exactly the pixels at
    Manhattan distance 1 from [p]. *)
Lemma adjacent_iff_edge p q : adjacent p q <-> edgeAdjacent p q.
Proof.
  destruct p as [px py], q as [qx qy].
  unfold adjacent, edgeAdjacent, neighbours. cbn [fst snd].
  rewrite !elem_of_cons, elem_of_nil. split.
  - intros [E|[E|[E|[E|[]]]]]; injection E as -> ->; lia.
  - intros Hd.
    assert ((qx = px - 1 /\ qy = py) \/ (qx = px + 1 /\ qy = py) \/
            (qx = px /\ qy = py - 1) \/ (qx = px /\ qy = py + 1))
      as [[-> ->]|[[-> ->]|[[-> ->]|[-> ->]]]] by lia; auto.
Qed.

(** So the region the loop explores is the 4-connected closure of the
    seed. *)
Lemma connected_iff_region w h d seed p :
  connected w h d seed p <-> region w h d seed p.
Proof.
  split.
  - induction 1 as [Hb|p q _ IH Hadj Hb Ht]; [by apply region_seed|].
    apply (region_step _ _ _ _ p q); try done. by apply adjacent_iff_edge.
  - induction 1 as [Hb|p q _ IH Hadj Hb Ht]; [by apply connected_seed|].
    apply (connected_step _ _ _ _ p q); try done. by apply adjacent_iff_edge.
Qed.

(** ** How often a coordinate is pushed *)

Lemma occurrences_app p l k :
  occurrences p (l ++ k) = (occurrences p l + occurrences p k)%nat.
Proof. unfold occurrences. by rewrite filter_app, length_app. Qed.

Lemma adjacent_sym p q : adjacent p q -> adjacent q p.
Proof.
  destruct p as [px py], q as [qx qy]. unfold adjacent, neighbours.
  rewrite !elem_of_cons, !elem_of_nil.
  intros [E|[E|[E|[E|[]]]]]; simplify_eq.
  - right; left. f_equal; lia.
  - left. f_equal; lia.
  - do 3 right; left. f_equal; lia.
  - do 2 right; left. f_equal; lia.
Qed.

Lemma occurrences_neighbours p a :
  (occurrences p (neighbours a) <= (if decide (adjacent p a) then 1 else 0))%nat.
Proof.
  destruct (decide (adjacent p a)) as [Hadj|Hnot].
  - destruct p as [px py], a as [ax ay]. unfold occurrences, neighbours.
    rewrite !filter_cons, filter_nil.
    repeat case_decide; simplify_eq; simpl; lia.
  - unfold occurrences.
    destruct (filter (fun q => q = p) (neighbours a)) as [|q l] eqn:E; [done|].
    assert (q ∈ filter (fun q => q = p) (neighbours a)) as [-> Hq]%list_elem_of_filter
      by (rewrite E; left).
    by apply adjacent_sym in Hq.
Qed.

Lemma occurrences_flat_map p l :
  (occurrences p (flat_map neighbours l) <= length (filter (adjacent p) l))%nat.
Proof.
  induction l as [|a l IH]; [done|].
  simpl. rewrite occurrences_app, filter_cons.
  pose proof (occurrences_neighbours p a).
  destruct (decide (adjacent p a)); simpl; lia.
Qed.

Lemma occurrences_pushed_bound p l :
  NoDup l -> (occurrences p (flat_map neighbours l) <= 4)%nat.
Proof.
  intros Hnd. etrans; [apply occurrences_flat_map|].
  assert (filter (adjacent p) l ⊆+ neighbours p) as Hsub.
  { apply NoDup_submseteq; [by apply NoDup_filter|].
    by intros q [Hq _]%list_elem_of_filter. }
  apply submseteq_length in Hsub. by rewrite length_neighbours in Hsub.
Qed.

(** ** Running the whole loop *)

Lemma fillLoop_runs ctx x y fill fuel :
  wfCanvas ctx -> validColor fill ->
  colorsMatch (getPixelColor (cwidth ctx) (pixels ctx) x y) fill = false ->
  (fillFuel ctx <= fuel)%nat ->
  exists st,
    fillLoop fuel (cwidth ctx) (cheight ctx)
      (getPixelColor (cwidth ctx) (pixels ctx) x y) fill
      (FillState [(x, y)] (pixels ctx) [] [(x, y)]) = Some st /\
    basicInv (cwidth ctx) (cheight ctx) (pixels ctx) fill [(x, y)] st /\
    queue st = [].
Proof.
  intros (Hw & Hh & Hlen) Hfill Hdiff Hfuel.
  set (t := getPixelColor (cwidth ctx) (pixels ctx) x y) in *.
  set (st0 := FillState [(x, y)] (pixels ctx) [] [(x, y)]).
  assert (basicInv (cwidth ctx) (cheight ctx) (pixels ctx) fill [(x, y)] st0) as H0
    by apply basicInv_init.
  destruct (fillLoop_terminates (cwidth ctx) (cheight ctx) (pixels ctx) t fill [(x, y)]
              Hw Hlen Hfill Hdiff fuel st0 H0) as [st Hrun].
  { unfold fillMeasure, fillFuel in *. simpl. lia. }
  exists st. split; [done|].
  eapply (fillLoop_rule _ _ t fill
            (basicInv (cwidth ctx) (cheight ctx) (pixels ctx) fill [(x, y)]));
    [|exact H0|exact Hrun].
  intros s s'. by apply basicInv_step.
Qed.

Lemma colorsMatch_false_ne w d p c :
  pixelAt w d p <> c -> colorsMatch (pixelAt w d p) c = false.
Proof.
  intros Hne. destruct (colorsMatch _ c) eqn:E; [|done].
  by apply colorsMatch_pixel_iff in E.
Qed.

(** ** The store: history bounds *)

Lemma sliceTo_nonneg {A} (e : Z) (arr : list A) :
  0 <= e -> sliceTo e arr = take (Z.to_nat e) arr.
Proof. intros He. unfold sliceTo. by rewrite (proj2 (Z.ltb_ge e 0) He). Qed.

(** [saveHistory] below the capacity: the redo tail is cut, the snapshot is
    appended and the index moves onto it. *)
Lemma saveHistory_push s canvas :
  canvasRef s = Some canvas ->
  -1 <= historyIndexRef s < historyLength s -> historyIndexRef s < 19 ->
  saveHistory s =
    MkStore (Some canvas)
      (take (Z.to_nat (historyIndexRef s + 1)) (historyRef s) ++ [pixels canvas])
      (historyIndexRef s + 1).
Proof.
  unfold historyLength. intros Hc Hi H19. unfold saveHistory. rewrite Hc.
  set (len := Z.of_nat (length (historyRef s))) in *.
  assert ((if historyIndexRef s <? len - 1
           then sliceTo (historyIndexRef s + 1) (historyRef s)
           else historyRef s)
          = take (Z.to_nat (historyIndexRef s + 1)) (historyRef s)) as ->.
  { destruct (Z.ltb_spec (historyIndexRef s) (len - 1)).
    - apply sliceTo_nonneg. lia.
    - symmetry. apply take_ge. lia. }
  cbn zeta. rewrite length_app, length_take. simpl length.
  destruct (Z.gtb_spec (Z.of_nat (Init.Nat.min (Z.to_nat (historyIndexRef s + 1))
                                    (length (historyRef s)) + 1)) 20); [lia|].
  done.
Qed.

(** [saveHistory] on a full stack with the index on its top: the oldest
    snapshot is dropped and the index stays at 19, now on the new
    snapshot. *)
Lemma saveHistory_overflow s canvas :
  canvasRef s = Some canvas ->
  historyIndexRef s = 19 -> historyLength s = 20 ->
  saveHistory s =
    MkStore (Some canvas) (tail (historyRef s) ++ [pixels canvas]) 19.
Proof.
  unfold historyLength. intros Hc Hi Hl. unfold saveHistory. rewrite Hc, Hi, Hl.
  simpl. rewrite length_app. simpl length.
  destruct (Z.gtb_spec (Z.of_nat (length (historyRef s) + 1)) 20); [|lia].
  destruct (historyRef s); [simpl in Hl; lia|done].
Qed.

Lemma saveHistory_inv s :
  storeInv s ->
  storeInv (saveHistory s) /\
  historyIndexRef (saveHistory s) = historyLength (saveHistory s) - 1 /\
  canvasRef (saveHistory s) = canvasRef s.
Proof.
  intros ([canvas Hc] & Hi & Hl). unfold storeInv, historyLength in *.
  destruct (decide (historyIndexRef s < 19)) as [Hlt|Hge].
  - rewrite (saveHistory_push s canvas Hc Hi Hlt). simpl.
    rewrite length_app, length_take. simpl length.
    split_and!; rewrite ?Hc; try done; try lia.
  - rewrite (saveHistory_overflow s canvas Hc) by (unfold historyLength; lia).
    simpl. rewrite length_app. simpl length.
    destruct (historyRef s) as [|x l]; [simpl in *; lia|]. simpl in *.
    split_and!; rewrite ?Hc; try done; try lia.
Qed.

Lemma undo_inv s : storeInv s -> storeInv (undo s).
Proof.
  intros ([canvas Hc] & Hi & Hl). unfold storeInv, historyLength, undo in *.
  rewrite Hc. destruct (Z.leb_spec (historyIndexRef s) 0); simpl.
  - split_and!; try done; lia.
  - destruct (arrayGet _ _); simpl; rewrite ?Hc; split_and!; try done; lia.
Qed.

Lemma redo_inv s : storeInv s -> storeInv (redo s).
Proof.
  intros ([canvas Hc] & Hi & Hl). unfold storeInv, historyLength, redo in *.
  destruct (Z.geb_spec (historyIndexRef s) (Z.of_nat (length (historyRef s)) - 1)).
  - rewrite Hc. split_and!; try done; lia.
  - rewrite Hc.
    destruct (arrayGet _ _); simpl; rewrite ?Hc; split_and!; try done; lia.
Qed.

Lemma resetStore_inv s : storeInv s -> storeInv (resetStore s).
Proof.
  intros ([canvas Hc] & Hi & Hl). unfold storeInv, historyLength, resetStore.
  rewrite Hc. simpl. split_and!; try done; lia.
Qed.

Lemma withCanvas_inv c s : storeInv s -> storeInv (withCanvas c s).
Proof. intros (_ & Hi & Hl). split; [by eexists|done]. Qed.

Lemma setupCanvas_inv w h s : is_Some (canvasRef s) -> storeInv (setupCanvas w h s).
Proof.
  intros [c Hc]. unfold setupCanvas, storeInv, historyLength. rewrite Hc. simpl.
  split_and!; try done; lia.
Qed.

Section Machine.
Context `{DisplaySurface}.

Lemma startDrawing_inv e s s' :
  storeInv (store s) -> startDrawing e s = Some s' -> storeInv (store s').
Proof.
  intros HI. unfold startDrawing.
  destruct (animating (anim s)); [by intros [= <-]|].
  destruct (canvasRef (store s)) as [canvas|]; [|by intros [= <-]].
  destruct (getCanvasRelativePosition e canvas) as [x y].
  pose proof (saveHistory_inv _ HI) as (HI' & _ & _).
  destruct (mode (pen s)); try (by intros [= <-]).
  destruct (fillFlood _ _ _ _ _); [|done]. intros [= <-]. simpl.
  by apply withCanvas_inv.
Qed.

Lemma draw_inv e s : storeInv (store s) -> storeInv (store (draw e s)).
Proof.
  intros HI. unfold draw.
  destruct (negb _); [done|]. destruct (animating _); [done|].
  destruct (canvasRef (store s)) as [canvas|]; [|done].
  destruct (getCanvasRelativePosition e canvas) as [x y].
  destruct (mode (pen s)); simpl; by apply withCanvas_inv.
Qed.

Lemma speakRandom_store s : store (speakRandom s) = store s.
Proof. unfold speakRandom. by destruct (negb _). Qed.

Lemma startAnimation_store s : store (startAnimation s) = store s.
Proof.
  unfold startAnimation. destruct (canvasRef (store s)); [|done].
  destruct (getDrawingBoundingBox _) as [[[[minX minY] maxX] maxY]|]; [|done].
  by rewrite speakRandom_store.
Qed.

Lemma animate_inv s : storeInv (store s) -> storeInv (store (animate s)).
Proof.
  intros HI. unfold animate. destruct (negb _); [done|].
  destruct (canvasRef (store s)) as [canvas|]; [|done].
  destruct (offscreenCanvasRef (anim s)) as [off|]; [|done].
  destruct (advance _ _ _ _ _ _) as [p v]. simpl. by apply withCanvas_inv.
Qed.

Lemma handle_inv ev s s' :
  storeInv (store s) -> handle ev s = Some s' -> storeInv (store s').
Proof.
  intros HI. destruct ev; simpl.
  - by apply startDrawing_inv.
  - intros [= <-]. by apply draw_inv.
  - by intros [= <-].
  - intros [= <-]. by destruct (_ || _).
  - intros [= <-]. by destruct (animating _).
  - intros [= <-]. by destruct (animating _).
  - intros [= <-]. destruct (animating _); [done|]. by apply undo_inv.
  - intros [= <-]. destruct (animating _); [done|]. by apply redo_inv.
  - intros [= <-]. destruct (animating _); [done|]. by rewrite startAnimation_store.
  - intros [= <-]. destruct (animating _); [|done]. by apply resetStore_inv.
  - intros [= <-]. destruct (animating _); [|done]. by rewrite speakRandom_store.
  - intros [= <-]. by apply animate_inv.
Qed.

Lemma reachable_inv w h s : reachable w h s -> storeInv (store s).
Proof.
  induction 1 as [speech rand|s ev s' _ IH Hstep].
  - apply setupCanvas_inv. by eexists.
  - by eapply handle_inv.
Qed.
End Machine.

(** ** Repeated undo and redo *)

Lemma whiteData_white w h : Forall (fun v => v = 255) (whiteData w h).
Proof. unfold whiteData. by apply Forall_replicate. Qed.

Lemma fillWhite_idem c : fillWhite (fillWhite c) = fillWhite c.
Proof. done. Qed.

Lemma undo_low s canvas :
  canvasRef s = Some canvas -> historyIndexRef s <= 0 ->
  undo s = MkStore (Some (fillWhite canvas)) (historyRef s) (-1).
Proof.
  intros Hc Hi. unfold undo. rewrite Hc.
  by rewrite (proj2 (Z.leb_le _ _) Hi).
Qed.

Lemma arrayGet_in_range {A} (arr : list A) (i : Z) :
  0 <= i < Z.of_nat (length arr) -> exists x, arrayGet arr i = Some x.
Proof.
  intros Hi. unfold arrayGet. rewrite decide_True by lia.
  apply lookup_lt_is_Some_2. lia.
Qed.

Lemma undo_high s canvas :
  canvasRef s = Some canvas -> 0 < historyIndexRef s <= historyLength s ->
  exists imageData,
    arrayGet (historyRef s) (historyIndexRef s - 1) = Some imageData /\
    undo s = MkStore (Some (putImageData imageData canvas)) (historyRef s)
               (historyIndexRef s - 1).
Proof.
  unfold historyLength. intros Hc Hi.
  destruct (arrayGet_in_range (historyRef s) (historyIndexRef s - 1)) as [img Himg];
    [lia|].
  exists img. split; [done|]. unfold undo. rewrite Hc.
  rewrite (proj2 (Z.leb_gt _ _)) by lia. by rewrite Himg.
Qed.

Lemma redo_high s canvas :
  canvasRef s = Some canvas ->
  -1 <= historyIndexRef s < historyLength s - 1 ->
  exists imageData,
    arrayGet (historyRef s) (historyIndexRef s + 1) = Some imageData /\
    redo s = MkStore (Some (putImageData imageData canvas)) (historyRef s)
               (historyIndexRef s + 1).
Proof.
  unfold historyLength. intros Hc Hi.
  destruct (arrayGet_in_range (historyRef s) (historyIndexRef s + 1)) as [img Himg];
    [lia|].
  exists img. split; [done|]. unfold redo.
  destruct (Z.geb_spec (historyIndexRef s) (Z.of_nat (length (historyRef s)) - 1));
    [lia|].
  by rewrite Hc, Himg.
Qed.

(** [k >= 1] undos that stay on the stack leave the raster of the snapshot
    [k] positions down and move the index there. *)
Lemma undo_iter k s :
  is_Some (canvasRef s) ->
  Z.of_nat (S k) <= historyIndexRef s < historyLength s ->
  historyRef (Nat.iter (S k) undo s) = historyRef s /\
  historyIndexRef (Nat.iter (S k) undo s) = historyIndexRef s - Z.of_nat (S k) /\
  pixels <$> canvasRef (Nat.iter (S k) undo s) =
    arrayGet (historyRef s) (historyIndexRef s - Z.of_nat (S k)).
Proof.
  induction k as [|k IH]; intros [canvas Hc] Hi.
  - change (Nat.iter 1 undo s) with (undo s).
    destruct (undo_high s canvas Hc) as (img & Himg & ->); [lia|].
    simpl. split_and!; try done.
  - destruct IH as (Hh & Hidx & Hpx); [by eexists|lia|].
    set (s1 := Nat.iter (S k) undo s) in *.
    change (Nat.iter (S (S k)) undo s) with (undo s1).
    destruct (canvasRef s1) as [c1|] eqn:Hc1.
    2:{ simpl in Hpx. symmetry in Hpx.
        destruct (arrayGet_in_range (historyRef s)
                    (historyIndexRef s - Z.of_nat (S k))) as [x Hx];
          [unfold historyLength in Hi; lia|]. congruence. }
    destruct (undo_high s1 c1 Hc1) as (img & Himg & ->);
      [unfold historyLength in *; rewrite Hh, Hidx; lia|].
    simpl. rewrite Hh, Hidx in *. split_and!; try done; try lia.
    symmetry. etrans; [|exact Himg]. f_equal. lia.
Qed.

Lemma redo_iter k s :
  is_Some (canvasRef s) ->
  -1 <= historyIndexRef s -> historyIndexRef s + Z.of_nat (S k) < historyLength s ->
  historyRef (Nat.iter (S k) redo s) = historyRef s /\
  historyIndexRef (Nat.iter (S k) redo s) = historyIndexRef s + Z.of_nat (S k) /\
  pixels <$> canvasRef (Nat.iter (S k) redo s) =
    arrayGet (historyRef s) (historyIndexRef s + Z.of_nat (S k)).
Proof.
  induction k as [|k IH]; intros [canvas Hc] Hlo Hi.
  - change (Nat.iter 1 redo s) with (redo s).
    destruct (redo_high s canvas Hc) as (img & Himg & ->); [lia|].
    simpl. split_and!; try done.
  - destruct IH as (Hh & Hidx & Hpx); [by eexists|lia|lia|].
    set (s1 := Nat.iter (S k) redo s) in *.
    change (Nat.iter (S (S k)) redo s) with (redo s1).
    destruct (canvasRef s1) as [c1|] eqn:Hc1.
    2:{ simpl in Hpx. symmetry in Hpx.
        destruct (arrayGet_in_range (historyRef s)
                    (historyIndexRef s + Z.of_nat (S k))) as [x Hx];
          [unfold historyLength in Hi; lia|]. congruence. }
    destruct (redo_high s1 c1 Hc1) as (img & Himg & ->);
      [unfold historyLength in *; rewrite Hh, Hidx; lia|].
    simpl. rewrite Hh, Hidx in *. split_and!; try done; try lia.
    symmetry. etrans; [|exact Himg]. f_equal. lia.
Qed.

(** One undo moves the index strictly down, or leaves it at the sentinel;
    so after at least one undo the index is never back on the position it
    started from unless that was the sentinel, and the snapshot there is
    not the one [undo] puts on the canvas. *)
Lemma undo_goes_below k s :
  is_Some (canvasRef s) -> -1 <= historyIndexRef s < historyLength s ->
  is_Some (canvasRef (Nat.iter (S k) undo s)) /\
  historyRef (Nat.iter (S k) undo s) = historyRef s /\
  -1 <= historyIndexRef (Nat.iter (S k) undo s)
     <= Z.max (historyIndexRef s - 1) (-1) /\
  (Forall (fun v => v = 255) (default [] (pixels <$> canvasRef (Nat.iter (S k) undo s)))
   \/ pixels <$> canvasRef (Nat.iter (S k) undo s)
      = arrayGet (historyRef s) (historyIndexRef (Nat.iter (S k) undo s))).
Proof.
  assert (forall t, is_Some (canvasRef t) -> -1 <= historyIndexRef t < historyLength t ->
            is_Some (canvasRef (undo t)) /\ historyRef (undo t) = historyRef t /\
            -1 <= historyIndexRef (undo t) <= Z.max (historyIndexRef t - 1) (-1) /\
            (Forall (fun v => v = 255) (default [] (pixels <$> canvasRef (undo t)))
             \/ pixels <$> canvasRef (undo t)
                = arrayGet (historyRef t) (historyIndexRef (undo t)))) as Hone.
  { intros t [c Hc] Hi. destruct (decide (historyIndexRef t <= 0)) as [Hle|Hgt].
    - rewrite (undo_low t c Hc Hle). simpl.
      split_and!; [by eexists|done|lia|lia|]. left. apply whiteData_white.
    - destruct (undo_high t c Hc) as (img & Himg & ->); [lia|]. simpl.
      split_and!; [by eexists|done|lia|lia|]. by right. }
  induction k as [|k IH]; intros Hc Hi.
  - change (Nat.iter 1 undo s) with (undo s). by apply Hone.
  - destruct (IH Hc Hi) as (Hc1 & Hh1 & Hi1 & _).
    change (Nat.iter (S (S k)) undo s) with (undo (Nat.iter (S k) undo s)).
    destruct (Hone (Nat.iter (S k) undo s) Hc1) as (Hc2 & Hh2 & Hi2 & Hsh).
    { unfold historyLength in *. rewrite Hh1. lia. }
    rewrite Hh2, Hh1 in *. split_and!; try done; lia.
Qed.

(** ** Clicking undo and redo several times *)

Section Clicks.
Context `{DisplaySurface}.

Lemma run_app evs1 evs2 s :
  run (evs1 ++ evs2) s = run evs1 s ≫= run evs2.
Proof.
  revert s. induction evs1 as [|ev evs1 IH]; intros s; [done|].
  simpl. destruct (handle ev s); [apply IH|done].
Qed.

Lemma run_undo_clicks k s :
  animating (anim s) = false ->
  run (replicate k ClickUndo) s = Some (withStore (Nat.iter k undo (store s)) s).
Proof.
  revert s. induction k as [|k IH]; intros s Ha.
  - by destruct s.
  - cbn [replicate run handle]. rewrite Ha, IH by done.
    by rewrite Nat.iter_succ_r.
Qed.

Lemma run_redo_clicks k s :
  animating (anim s) = false ->
  run (replicate k ClickRedo) s = Some (withStore (Nat.iter k redo (store s)) s).
Proof.
  revert s. induction k as [|k IH]; intros s Ha.
  - by destruct s.
  - cbn [replicate run handle]. rewrite Ha, IH by done.
    by rewrite Nat.iter_succ_r.
Qed.
End Clicks.

Lemma iter_fixpoint {A} (f : A -> A) (x : A) k : f x = x -> Nat.iter k f x = x.
Proof. intros Hf. induction k as [|k IH]; [done|]. simpl. by rewrite IH. Qed.

Lemma iter_past_fixpoint {A} (f : A -> A) (x : A) n k :
  f (Nat.iter n f x) = Nat.iter n f x -> (n <= k)%nat ->
  Nat.iter k f x = Nat.iter n f x.
Proof.
  intros Hf Hk. replace k with ((k - n) + n)%nat by lia.
  rewrite Nat.iter_add. by apply iter_fixpoint.
Qed.

(** ** Drawing gestures and the history they leave *)

Section Gestures.
Context `{DisplaySurface}.

Lemma paintInv_started w h speech rand : paintInv w h 0 (started w h speech rand).
Proof. by split. Qed.

(** A press takes the snapshot of the canvas as it is before the
    gesture. *)
Lemma paintInv_down w h n e s s' :
  paintInv w h n s -> (n < 19)%nat -> startDrawing e s = Some s' ->
  paintInv w h (S n) s' /\
  (pixels <$> canvasRef (store s)) = historyRef (store s') !! S n.
Proof.
  intros [Ha [canvas Hc] Hi Hl Hs Hf] Hn. unfold startDrawing. rewrite Ha, Hc.
  destruct (getCanvasRelativePosition e canvas) as [x y].
  assert (saveHistory (store s) =
          MkStore (Some canvas) (historyRef (store s) ++ [pixels canvas])
            (Z.of_nat (S n))) as Hsave.
  { rewrite (saveHistory_push _ canvas Hc) by (unfold historyLength; lia).
    rewrite Hi. f_equal; [|lia]. f_equal. apply take_ge. lia. }
  assert (forall c' : Canvas,
            (historyRef (store s) ++ [pixels canvas]) !! S n = Some (pixels canvas))
    as Hlast.
  { intros _. rewrite lookup_app_r by lia. by rewrite Hl, Nat.sub_diag. }
  destruct (mode (pen s)).
  - intros [= <-]. simpl. rewrite Hsave. simpl. split; [|by rewrite (Hlast canvas)].
    split; simpl; try done.
    + rewrite length_app. simpl. lia.
    + by rewrite lookup_app_l by lia.
  - destruct (fillFlood _ _ _ _ _) as [canvas'|]; [|done].
    intros [= <-]. simpl. rewrite Hsave. simpl. split; [|by rewrite (Hlast canvas)].
    split; simpl; try done.
    + rewrite length_app. simpl. lia.
    + by rewrite lookup_app_l by lia.
  - intros [= <-]. simpl. rewrite Hsave. simpl. split; [|by rewrite (Hlast canvas)].
    split; simpl; try done.
    + rewrite length_app. simpl. lia.
    + by rewrite lookup_app_l by lia.
Qed.

(** The other drawing events leave the history alone. *)
Lemma paintInv_other w h n ev s s' :
  paintInv w h n s -> isPaintEvent ev = true -> isDown ev = false ->
  handle ev s = Some s' ->
  paintInv w h n s' /\ historyRef (store s') = historyRef (store s).
Proof.
  intros HI Hp Hd. pose proof HI as [Ha [canvas Hc] Hi Hl Hs Hf].
  destruct ev; try done; simpl; intros [= <-].
  - (* move *)
    unfold draw. destruct (isDrawing (pen s)) eqn:Ed; simpl; [|by split].
    rewrite Ha, Hc. destruct (getCanvasRelativePosition e canvas) as [x y].
    destruct (mode (pen s)); simpl; (split; [|done]); split; simpl; try done;
      intros ->; by destruct (Hf eq_refl).
  - split; [|done]. split; simpl; try done. intros Hn.
    split; [done|]. by destruct (Hf Hn).
  - rewrite Ha. simpl. destruct (mode (pen s)); simpl; by split.
  - rewrite Ha. by split.
  - rewrite Ha. by split.
Qed.

Lemma paintInv_run w h evs : forall n s s',
  paintInv w h n s -> forallb isPaintEvent evs = true ->
  (n + gestures evs <= 19)%nat -> run evs s = Some s' ->
  paintInv w h (n + gestures evs) s'.
Proof.
  unfold gestures.
  induction evs as [|ev evs IH]; intros n s s' HI Hp Hn.
  - intros [= <-]. simpl. by rewrite Nat.add_0_r.
  - simpl in Hp. apply andb_true_iff in Hp as [Hp1 Hp2].
    simpl. destruct (handle ev s) as [s1|] eqn:E; [|done].
    rewrite filter_cons in *. destruct (isDown ev) eqn:Ed.
    + rewrite decide_True in * by done. simpl in *.
      destruct ev; try done. simpl in E.
      destruct (paintInv_down w h n e s s1 HI) as [HI1 _]; [lia|done|].
      intros Hrun. replace (n + S _)%nat with (S n + length (filter isDown evs))%nat
        by lia.
      eapply IH; [exact HI1|done|lia|done].
    + rewrite decide_False in * by (by intros ?).
      destruct (paintInv_other w h n ev s s1 HI Hp1 Ed E) as [HI1 _].
      intros Hrun. eapply IH; [exact HI1|done|lia|done].
Qed.

Lemma history_kept_without_down w h evs : forall n s s',
  paintInv w h n s -> forallb isPaintEvent evs = true -> gestures evs = 0%nat ->
  run evs s = Some s' ->
  paintInv w h n s' /\ historyRef (store s') = historyRef (store s).
Proof.
  unfold gestures.
  induction evs as [|ev evs IH]; intros n s s' HI Hp Hg.
  - by intros [= <-].
  - simpl in Hp. apply andb_true_iff in Hp as [Hp1 Hp2].
    rewrite filter_cons in Hg. destruct (isDown ev) eqn:Ed.
    { rewrite decide_True in Hg by done. done. }
    rewrite decide_False in Hg by (by intros ?).
    simpl. destruct (handle ev s) as [s1|] eqn:E; [|done].
    destruct (paintInv_other w h n ev s s1 HI Hp1 Ed E) as [HI1 Hh1].
    intros Hrun. destruct (IH n s1 s' HI1 Hp2 Hg Hrun) as [HI2 Hh2].
    split; [done|]. by rewrite Hh2.
Qed.

(** Undoing all [n] gestures shows the white canvas. *)
Lemma undo_all_white w h n s :
  paintInv w h n s ->
  rasterOf (withStore (Nat.iter n undo (store s)) s) = Some (whiteData w h) /\
  historyIndexRef (Nat.iter n undo (store s)) = 0 /\
  historyRef (Nat.iter n undo (store s)) = historyRef (store s) /\
  is_Some (canvasRef (Nat.iter n undo (store s))).
Proof.
  intros [Ha Hc Hi Hl Hs Hf]. destruct n as [|k].
  - simpl. destruct (Hf eq_refl) as [_ Hw]. by split_and!.
  - destruct (undo_iter k (store s) Hc) as (Hh & Hidx & Hpx);
      [unfold historyLength; lia|].
    rewrite Hi, Z.sub_diag in *.
    unfold arrayGet in Hpx. rewrite decide_True in Hpx by lia.
    change (Z.to_nat 0) with 0%nat in Hpx. rewrite Hs in Hpx.
    split_and!; try done.
    destruct (canvasRef (Nat.iter (S k) undo (store s))); [by eexists|done].
Qed.
End Gestures.

(** ** The canvas keeps its size *)

Lemma fillFlood_size fuel ctx x y c ctx' :
  fillFlood fuel ctx x y c = Some ctx' ->
  cwidth ctx' = cwidth ctx /\ cheight ctx' = cheight ctx.
Proof.
  unfold fillFlood, fillFloodTrace. destruct (colorsMatch _ _); simpl.
  - by intros [= <-].
  - destruct (fillLoop _ _ _ _ _ _); simpl; [|done]. by intros [= <-].
Qed.

Lemma saveHistory_canvas s : canvasRef (saveHistory s) = canvasRef s.
Proof.
  unfold saveHistory. destruct (canvasRef s) eqn:E; [|done].
  by destruct (_ >? 20)%Z.
Qed.

Lemma undo_size w h s : sameSize w h s -> sameSize w h (undo s).
Proof.
  intros (c & Hc & Hw & Hh). unfold undo, sameSize. rewrite Hc.
  destruct (_ <=? 0)%Z; [by eexists|].
  destruct (arrayGet _ _); by eexists.
Qed.

Lemma redo_size w h s : sameSize w h s -> sameSize w h (redo s).
Proof.
  intros (c & Hc & Hw & Hh). unfold redo, sameSize.
  destruct (_ >=? _)%Z; [by eexists|]. rewrite Hc.
  destruct (arrayGet _ _); by eexists.
Qed.

(** ** Colours that [hexToRgba] turns into byte channels *)

Lemma hexDigit_range c d : hexDigit c = Some d -> 0 <= d <= 15.
Proof.
  unfold hexDigit. set (n := Z.of_nat (nat_of_ascii c)).
  destruct (Z.leb_spec 48 n), (Z.leb_spec n 57); simpl; try (intros [= <-]; lia);
    (destruct (Z.leb_spec 97 n), (Z.leb_spec n 102); simpl; try (intros [= <-]; lia));
    (destruct (Z.leb_spec 65 n), (Z.leb_spec n 70); simpl; try (intros [= <-]; lia));
    done.
Qed.

Lemma hexDigit_code c d :
  hexDigit c = Some d -> 48 <= Z.of_nat (nat_of_ascii c).
Proof.
  unfold hexDigit. set (n := Z.of_nat (nat_of_ascii c)).
  destruct (Z.leb_spec 48 n); [done|]. simpl.
  destruct (Z.leb_spec 97 n); [lia|]. simpl.
  destruct (Z.leb_spec 65 n); [lia|]. done.
Qed.

Lemma hexDigit_not c d (k : ascii) :
  hexDigit c = Some d -> hexDigit k = None -> Ascii.eqb c k = false.
Proof. intros Hc Hk. apply Ascii.eqb_neq. intros ->. congruence. Qed.

Lemma hexDigit_not_space c d : hexDigit c = Some d -> isSpace c = false.
Proof.
  intros Hc%hexDigit_code. unfold isSpace.
  set (n := Z.of_nat (nat_of_ascii c)) in *.
  destruct (Z.leb_spec 9 n), (Z.leb_spec n 13), (Z.eqb_spec n 32); simpl; lia.
Qed.

Lemma parseInt16_two_digits a b da db :
  hexDigit a = Some da -> hexDigit b = Some db ->
  parseInt16 (String a (String b EmptyString)) = Num (da * 16 + db).
Proof.
  intros Ha Hb. unfold parseInt16. simpl trimStart.
  rewrite (hexDigit_not_space a da Ha).
  rewrite (hexDigit_not a da "-" Ha eq_refl), (hexDigit_not a da "+" Ha eq_refl).
  rewrite (hexDigit_not b db "x" Hb eq_refl), (hexDigit_not b db "X" Hb eq_refl).
  rewrite andb_false_r. simpl. rewrite Ha, Hb. simpl. f_equal. lia.
Qed.

Lemma hexToRgba_valid hex : goodColor hex -> validColor (hexToRgba hex).
Proof.
  intros [->|Hhex].
  - vm_compute. by split_and!.
  - destruct hex as [|h [|a [|b [|c [|d [|e [|f [|]]]]]]]]; try done.
    simpl in Hhex. unfold isHexDigit in Hhex.
    destruct (hexDigit a) as [da|] eqn:Ea; [|by rewrite ?andb_false_r in Hhex].
    destruct (hexDigit b) as [db|] eqn:Eb; [|by rewrite ?andb_false_r in Hhex].
    destruct (hexDigit c) as [dc|] eqn:Ec; [|by rewrite ?andb_false_r in Hhex].
    destruct (hexDigit d) as [dd|] eqn:Ed; [|by rewrite ?andb_false_r in Hhex].
    destruct (hexDigit e) as [de|] eqn:Ee; [|by rewrite ?andb_false_r in Hhex].
    destruct (hexDigit f) as [df|] eqn:Ef; [|by rewrite ?andb_false_r in Hhex].
    unfold hexToRgba. cbn [String.length Nat.eqb substring].
    rewrite (parseInt16_two_digits a b da db Ea Eb),
      (parseInt16_two_digits c d dc dd Ec Ed),
      (parseInt16_two_digits e f de df Ee Ef).
    apply hexDigit_range in Ea, Eb, Ec, Ed, Ee, Ef.
    unfold validColor. simpl. lia.
Qed.

(** ** The state machine never gets stuck *)

Lemma length_whiteData w h : length (whiteData w h) = rasterLength w h.
Proof. unfold whiteData. apply length_replicate. Qed.

Lemma saveHistory_Forall (P : list Z -> Prop) s canvas :
  canvasRef s = Some canvas -> P (pixels canvas) -> Forall P (historyRef s) ->
  Forall P (historyRef (saveHistory s)).
Proof.
  intros Hc Hp Hh. unfold saveHistory. rewrite Hc.
  set (h1 := if _ <? _ then _ else _).
  assert (Forall P h1) as H1.
  { unfold h1, sliceTo. destruct (_ <? _); [by apply Forall_take|done]. }
  assert (Forall P (h1 ++ [getImageData canvas])) as H2.
  { apply Forall_app. split; [done|]. by apply Forall_singleton. }
  destruct (_ >? 20); simpl; [|done].
  destruct (h1 ++ _); [done|]. simpl. by apply Forall_inv_tail in H2.
Qed.

(** The bucket fill returns, and the canvas keeps its size. *)
Lemma fillFlood_returns ctx x y fill :
  wfCanvas ctx -> validColor fill ->
  exists ctx', fillFlood (fillFuel ctx) ctx x y fill = Some ctx' /\
    cwidth ctx' = cwidth ctx /\ cheight ctx' = cheight ctx /\
    length (pixels ctx') = length (pixels ctx).
Proof.
  intros Hwf Hfill. unfold fillFlood, fillFloodTrace.
  destruct (colorsMatch _ fill) eqn:Hdiff; [by exists ctx|].
  destruct (fillLoop_runs ctx x y fill (fillFuel ctx) Hwf Hfill Hdiff (le_n _))
    as (st & -> & HB & _).
  eexists. split; [done|]. simpl. split_and!; try done.
  apply (bi_len _ _ _ _ _ _ HB).
Qed.

Section Total.
Context `{DisplaySurface}.
Variables (w h : Z).
Hypothesis Hw : 0 <= w.
Hypothesis Hh : 0 <= h.

Lemma wfInv_started speech rand : wfInv w h (started w h speech rand).
Proof.
  split; simpl.
  - eexists. split; [done|]. split_and!; try done. apply length_whiteData.
  - apply Forall_singleton. apply length_whiteData.
  - by left.
Qed.

Lemma handle_total ev s :
  wfInv w h s -> goodEvent ev -> exists s', handle ev s = Some s' /\ wfInv w h s'.
Proof.
  intros HI Hev. pose proof HI as [(c & Hc & Hcw & Hch & Hcl) Hhist Hcol].
  destruct ev; simpl; try (eexists; split; [done|]).
  - (* press *)
    unfold startDrawing. destruct (animating (anim s)); [by eexists|].
    rewrite Hc. destruct (getCanvasRelativePosition e c) as [x y].
    pose proof (saveHistory_Forall _ (store s) c Hc Hcl Hhist) as Hh'.
    pose proof (saveHistory_canvas (store s)) as Hc'. rewrite Hc in Hc'.
    destruct (mode (pen s)).
    + eexists. split; [done|]. split; simpl; try done. by exists c.
    + destruct (fillFlood_returns c (Qfloor x) (Qfloor y) (hexToRgba (color (pen s))))
        as (c' & -> & ? & ? & ?).
      { unfold wfCanvas. rewrite Hcw, Hch, Hcl. unfold rasterLength. lia. }
      { by apply hexToRgba_valid. }
      eexists. split; [done|]. split; simpl; try done.
      exists c'. split; [done|]. split_and!; congruence.
    + eexists. split; [done|]. split; simpl; try done. by exists c.
  - (* move *)
    unfold draw. destruct (negb _); [done|]. destruct (animating _); [done|].
    rewrite Hc. destruct (getCanvasRelativePosition e c) as [x y].
    destruct (mode (pen s)); simpl; (split; simpl; try done);
      eexists; (split; [done|]);
      by rewrite strokeLine_width, strokeLine_height, strokeLine_length.
  - split; simpl; try done. by exists c.
  - destruct (_ || _); [done|]. split; simpl; try done; [by exists c|by right].
  - destruct (animating _); [done|]. split; simpl; try done. by exists c.
  - destruct (animating _); [done|]. split; simpl; try done. by exists c.
  - (* undo *)
    destruct (animating _); [done|]. unfold undo. rewrite Hc.
    destruct (_ <=? 0).
    + split; simpl; try done. eexists. split; [done|]. simpl.
      split_and!; try done. by rewrite Hcw, Hch, length_whiteData.
    + unfold arrayGet. case_decide; [|split; simpl; try done; by exists c].
      destruct (historyRef (store s) !! _) as [img|] eqn:Ei;
        [|split; simpl; try done; by exists c].
      split; simpl; try done. eexists. split; [done|]. simpl.
      split_and!; try done. by eapply (Forall_lookup_1 _ _ _ _ Hhist).
  - (* redo *)
    destruct (animating _); [done|]. unfold redo.
    destruct (_ >=? _); [split; simpl; try done; by exists c|]. rewrite Hc.
    unfold arrayGet. case_decide; [|split; simpl; try done; by exists c].
    destruct (historyRef (store s) !! _) as [img|] eqn:Ei;
      [|split; simpl; try done; by exists c].
    split; simpl; try done. eexists. split; [done|]. simpl.
    split_and!; try done. by eapply (Forall_lookup_1 _ _ _ _ Hhist).
  - (* finish *)
    destruct (animating _); [done|].
    assert (forall s0, store (speakRandom s0) = store s0 /\ pen (speakRandom s0) = pen s0)
      as Hsp by (intros s0; unfold speakRandom; by destruct (negb _)).
    unfold startAnimation. rewrite Hc.
    destruct (getDrawingBoundingBox c) as [[[[minX minY] maxX] maxY]|]; [|done].
    split; rewrite ?(proj1 (Hsp _)), ?(proj2 (Hsp _)); simpl; try done. by exists c.
  - (* back *)
    destruct (animating _); [|done]. unfold stopAnimation, resetStore.
    split; simpl; rewrite ?Hc; simpl; try done.
    eexists. split; [done|]. simpl. split_and!; try done.
    by rewrite Hcw, Hch, length_whiteData.
  - (* more *)
    destruct (animating _); [|done]. unfold speakRandom.
    destruct (negb _); [done|]. split; simpl; try done. by exists c.
  - (* frame *)
    unfold animate. destruct (negb _); [done|]. rewrite Hc.
    destruct (offscreenCanvasRef (anim s)) as [off|]; [|done].
    destruct (advance _ _ _ _ _ _) as [p v]. split; simpl; try done.
    eexists. split; [done|].
    rewrite drawImage_width, drawImage_height, drawImage_length. simpl.
    split_and!; try done. by rewrite Hcw, Hch, length_whiteData.
Qed.

(** A session whose colour changes come from the colour input always
    returns: every bucket fill in it terminates. *)
Lemma run_total evs : forall s,
  wfInv w h s -> Forall goodEvent evs ->
  exists s', run evs s = Some s' /\ wfInv w h s'.
Proof.
  induction evs as [|ev evs IH]; intros s HI Hev.
  - by exists s.
  - apply Forall_cons in Hev as [Hev1 Hev2].
    destruct (handle_total ev s HI Hev1) as (s1 & Hs1 & HI1).
    simpl. rewrite Hs1. by apply IH.
Qed.
End Total.

(** ** The bounding box lies on the canvas *)

Lemma bboxVisit_inv w h d y acc x :
  0 <= x < w -> 0 <= y < h -> boxInv w h acc -> boxInv w h (bboxVisit w d y acc x).
Proof.
  destruct acc as [[[minX minY] maxX] maxY]. unfold boxInv, bboxVisit.
  intros Hx Hy (H1 & H2 & H3 & H4).
  destruct (isWhite _); [done|].
  destruct (Z.ltb_spec x minX), (Z.ltb_spec y minY),
    (Z.gtb_spec x maxX), (Z.gtb_spec y maxY); lia.
Qed.

Lemma bbox_row_inv w h d y acc :
  0 <= y < h -> boxInv w h acc ->
  boxInv w h (foldl (bboxVisit w d y) acc (seqZ 0 w)).
Proof.
  intros Hy.
  assert (Forall (fun x => 0 <= x < w) (seqZ 0 w)) as Hall.
  { apply Forall_forall. intros x Hx%elem_of_seqZ. lia. }
  revert acc. induction Hall as [|x l Hx _ IH]; intros acc Hacc; [done|].
  simpl. apply IH. by apply bboxVisit_inv.
Qed.

Lemma getDrawingBoundingBox_inside canvas minX minY maxX maxY :
  0 < cwidth canvas -> 0 < cheight canvas ->
  getDrawingBoundingBox canvas = Some (minX, minY, maxX, maxY) ->
  0 <= minX <= maxX /\ maxX < cwidth canvas /\
  0 <= minY <= maxY /\ maxY < cheight canvas.
Proof.
  intros Hw Hh. unfold getDrawingBoundingBox.
  set (w := cwidth canvas) in *. set (h := cheight canvas) in *.
  assert (boxInv w h
            (foldl (fun acc y => foldl (bboxVisit w (getImageData canvas) y) acc (seqZ 0 w))
               (w, h, 0, 0) (seqZ 0 h))) as Hinv.
  { assert (Forall (fun y => 0 <= y < h) (seqZ 0 h)) as Hall.
    { apply Forall_forall. intros y Hy%elem_of_seqZ. lia. }
    assert (boxInv w h (w, h, 0, 0)) as H0 by (unfold boxInv; lia).
    revert H0. generalize (w, h, 0, 0).
    induction Hall as [|y l Hy _ IH]; intros acc Hacc; [done|].
    simpl. apply IH. by apply bbox_row_inv. }
  destruct (foldl _ _ _) as [[[a b] c] e]. unfold boxInv in Hinv.
  destruct (Z.gtb_spec a c), (Z.gtb_spec b e); simpl; try done.
  intros [= -> -> -> ->]. lia.
Qed.

(** ** The sprite stays on the canvas *)

Local Open Scope Q_scope.

(** Whatever the position before, after [advance] the sprite lies between
    the walls. *)
Lemma advance_inside imgWidth imgHeight width height p v :
  0 <= imgWidth <= width -> 0 <= imgHeight <= height ->
  imgWidth / 2 <= posX (advance imgWidth imgHeight width height p v).1
    <= width - imgWidth / 2 /\
  imgHeight / 2 <= posY (advance imgWidth imgHeight width height p v).1
    <= height - imgHeight / 2.
Proof.
  intros [Hw0 Hw] [Hh0 Hh].
  assert (imgWidth / 2 == imgWidth * (1 # 2)) as Ew by field.
  assert (imgHeight / 2 == imgHeight * (1 # 2)) as Eh by field.
  unfold advance.
  destruct (Qlt_le_dec (posX p + vx v - imgWidth / 2) 0);
    [|destruct (Qlt_le_dec width (posX p + vx v + imgWidth / 2))];
    (destruct (Qlt_le_dec (posY p + vy v - imgHeight / 2) 0);
       [|destruct (Qlt_le_dec height (posY p + vy v + imgHeight / 2))]);
    cbn [fst posX posY]; repeat split; lra.
Qed.

Lemma half_fits (a b : Z) :
  (1 <= a <= b)%Z -> 0 <= inject_Z a <= inject_Z b.
Proof.
  intros [? ?]. change 0 with (inject_Z 0). split; rewrite <- Zle_Qle; lia.
Qed.

Section Sprite.
Context `{DisplaySurface}.
Variables (w h : Z).
Hypothesis Hw : (0 < w)%Z.
Hypothesis Hh : (0 < h)%Z.

Lemma animInv_started speech rand : animInv w h (started w h speech rand).
Proof. split; [by eexists|done|done]. Qed.

Lemma speakRandom_animInv s : animInv w h s -> animInv w h (speakRandom s).
Proof.
  intros [Hs Hsp Hin]. unfold speakRandom. destruct (negb _); [by split|].
  by split.
Qed.

Lemma startAnimation_animInv s : animInv w h s -> animInv w h (startAnimation s).
Proof.
  intros HI. pose proof HI as [(c & Hc & Hcw & Hch) Hsp Hin].
  unfold startAnimation. rewrite Hc.
  destruct (getDrawingBoundingBox c) as [[[[minX minY] maxX] maxY]|] eqn:Eb; [|done].
  apply getDrawingBoundingBox_inside in Eb; [|lia..].
  apply speakRandom_animInv. split; simpl.
  - by exists c.
  - intros off [= <-]. simpl. lia.
  - intros _. eexists. split; [done|]. simpl.
    assert (0 <= inject_Z (maxX - minX + 1) <= inject_Z w) as [? ?]
      by (apply half_fits; lia).
    assert (0 <= inject_Z (maxY - minY + 1) <= inject_Z h) as [? ?]
      by (apply half_fits; lia).
    rewrite Hcw, Hch.
    assert (inject_Z (maxX - minX + 1) / 2 == inject_Z (maxX - minX + 1) * (1 # 2))
      by field.
    assert (inject_Z (maxY - minY + 1) / 2 == inject_Z (maxY - minY + 1) * (1 # 2))
      by field.
    assert (inject_Z w / 2 == inject_Z w * (1 # 2)) by field.
    assert (inject_Z h / 2 == inject_Z h * (1 # 2)) by field.
    repeat split; lra.
Qed.

Lemma animate_animInv s : animInv w h s -> animInv w h (animate s).
Proof.
  intros HI. pose proof HI as [(c & Hc & Hcw & Hch) Hsp Hin].
  unfold animate. destruct (animating (anim s)) eqn:Ea; [|done]. simpl.
  rewrite Hc. destruct (offscreenCanvasRef (anim s)) as [off|] eqn:Eo; [|done].
  destruct (Hsp off eq_refl) as [How Hoh].
  pose proof (advance_inside (inject_Z (cwidth off)) (inject_Z (cheight off))
                (inject_Z (cwidth c)) (inject_Z (cheight c))
                (imgPosRef (anim s)) (velocityRef (anim s))) as Hadv.
  destruct (advance _ _ _ _ _ _) as [p v]. simpl in Hadv.
  rewrite Hcw, Hch in Hadv.
  split; simpl.
  - eexists. split; [done|]. by rewrite drawImage_width, drawImage_height.
  - by intros ? [= <-].
  - intros _. exists off. split; [done|].
    apply Hadv; by apply half_fits.
Qed.

Lemma handle_animInv ev s s' :
  animInv w h s -> handle ev s = Some s' -> animInv w h s'.
Proof.
  intros HI. pose proof HI as [(c & Hc & Hcw & Hch) Hsp Hin].
  destruct ev; simpl.
  - unfold startDrawing. destruct (animating (anim s)) eqn:Ea; [by intros [= <-]|].
    rewrite Hc. destruct (getCanvasRelativePosition e c) as [x y].
    destruct (mode (pen s)).
    + intros [= <-]. split; simpl; [|done|by rewrite Ea].
      exists c. by rewrite saveHistory_canvas.
    + destruct (fillFlood _ _ _ _ _) as [c'|] eqn:Ef; [|done].
      intros [= <-]. apply fillFlood_size in Ef as [? ?].
      split; simpl; [|done|by rewrite Ea].
      exists c'. split; [done|]. lia.
    + intros [= <-]. split; simpl; [|done|by rewrite Ea].
      exists c. by rewrite saveHistory_canvas.
  - intros [= <-]. unfold draw. destruct (negb _); [done|].
    destruct (animating (anim s)) eqn:Ea; [done|]. rewrite Hc.
    destruct (getCanvasRelativePosition e c) as [x y].
    destruct (mode (pen s)); simpl; (split; simpl; [|done|by rewrite Ea]);
      eexists; (split; [done|]); try by rewrite strokeLine_width, strokeLine_height.
  - intros [= <-]. split; simpl; try done. by exists c.
  - intros [= <-].
    match goal with |- context [if ?b then _ else _] => destruct b end; [done|].
    split; simpl; try done. by exists c.
  - intros [= <-]. destruct (animating (anim s)) eqn:Ea; [done|].
    split; simpl; [by exists c|done|by rewrite Ea].
  - intros [= <-]. destruct (animating (anim s)) eqn:Ea; [done|].
    split; simpl; [by exists c|done|by rewrite Ea].
  - intros [= <-]. destruct (animating (anim s)) eqn:Ea; [done|].
    split; simpl; [|done|by rewrite Ea]. apply undo_size. by exists c.
  - intros [= <-]. destruct (animating (anim s)) eqn:Ea; [done|].
    split; simpl; [|done|by rewrite Ea]. apply redo_size. by exists c.
  - intros [= <-]. destruct (animating (anim s)); [done|].
    by apply startAnimation_animInv.
  - intros [= <-]. destruct (animating (anim s)); [|done].
    split; simpl; [|done|done]. unfold resetStore. rewrite Hc. by eexists.
  - intros [= <-]. destruct (animating (anim s)); [|done].
    by apply speakRandom_animInv.
  - intros [= <-]. by apply animate_animInv.
Qed.

Lemma reachable_animInv s : reachable w h s -> animInv w h s.
Proof.
  induction 1 as [speech rand|s ev s' _ IH Hstep].
  - apply animInv_started.
  - by eapply handle_animInv.
Qed.
End Sprite.

(** In every animating state of a run the frame update is [advance] for a
    sprite that fits the canvas and lies between the walls: the premises of
    [advance_bounce] and of its remarks on the direction of motion hold at
    every frame. *)
Lemma animate_frame `{DisplaySurface} w h s :
  (0 < w)%Z -> (0 < h)%Z -> reachable w h s -> animating (anim s) = true ->
  exists off,
    offscreenCanvasRef (anim s) = Some off /\
    0 <= inject_Z (cwidth off) <= inject_Z w /\
    0 <= inject_Z (cheight off) <= inject_Z h /\
    inject_Z (cwidth off) / 2 <= posX (imgPosRef (anim s))
      <= inject_Z w - inject_Z (cwidth off) / 2 /\
    inject_Z (cheight off) / 2 <= posY (imgPosRef (anim s))
      <= inject_Z h - inject_Z (cheight off) / 2 /\
    (imgPosRef (anim (animate s)), velocityRef (anim (animate s)))
      = advance (inject_Z (cwidth off)) (inject_Z (cheight off))
          (inject_Z w) (inject_Z h) (imgPosRef (anim s)) (velocityRef (anim s)).
Proof.
  intros Hw Hh Hr Ha.
  destruct (reachable_animInv w h Hw Hh s Hr) as [(c & Hc & Hcw & Hch) Hsp Hin].
  destruct (Hin Ha) as (off & Ho & Hx & Hy). exists off.
  destruct (Hsp off Ho) as [How Hoh].
  destruct (half_fits _ _ How) as [? ?], (half_fits _ _ Hoh) as [? ?].
  destruct Hx as [? ?], Hy as [? ?].
  split_and!; try done.
  unfold animate. rewrite Ha, Hc, Ho, Hcw, Hch. simpl.
  by destruct (advance _ _ _ _ _ _).
Qed.

(** [animate] while animating with both canvases present. *)
Lemma animate_running `{DisplaySurface} s c off :
  animating (anim s) = true -> canvasRef (store s) = Some c ->
  offscreenCanvasRef (anim s) = Some off ->
  let r := advance (inject_Z (cwidth off)) (inject_Z (cheight off))
             (inject_Z (cwidth c)) (inject_Z (cheight c))
             (imgPosRef (anim s)) (velocityRef (anim s)) in
  animate s =
    withStore (withCanvas (drawImage off (posX r.1) (posY r.1) (rotation r.1)
                             (fillWhite c)) (store s))
      (withAnim (MkAnim true (Some off) r.1 r.2) s).
Proof.
  intros Ha Hc Ho r. unfold animate. rewrite Ha, Hc, Ho. simpl.
  unfold r. by destruct (advance _ _ _ _ _ _).
Qed.

(** What [advance] leaves on one axis is a function of that axis alone:
    of the position and velocity component on it and of the extents of
    sprite and canvas along it. *)
Lemma advance_axis_y iw iw2 ih wd wd2 ht q q2 u u2 :
  posY q2 = posY q -> vy u2 = vy u ->
  posY (advance iw2 ih wd2 ht q2 u2).1 = posY (advance iw ih wd ht q u).1 /\
  vy (advance iw2 ih wd2 ht q2 u2).2 = vy (advance iw ih wd ht q u).2.
Proof.
  intros Ey Ev. unfold advance. rewrite Ey, Ev.
  destruct (Qlt_le_dec (posX q2 + vx u2 - iw2 / 2) 0);
    [|destruct (Qlt_le_dec wd2 (posX q2 + vx u2 + iw2 / 2))];
    (destruct (Qlt_le_dec (posX q + vx u - iw / 2) 0);
       [|destruct (Qlt_le_dec wd (posX q + vx u + iw / 2))]);
    (destruct (Qlt_le_dec (posY q + vy u - ih / 2) 0);
       [|destruct (Qlt_le_dec ht (posY q + vy u + ih / 2))]);
    by split.
Qed.

Lemma advance_axis_x iw ih ih2 wd ht ht2 q q2 u u2 :
  posX q2 = posX q -> vx u2 = vx u ->
  posX (advance iw ih2 wd ht2 q2 u2).1 = posX (advance iw ih wd ht q u).1 /\
  vx (advance iw ih2 wd ht2 q2 u2).2 = vx (advance iw ih wd ht q u).2.
Proof.
  intros Ex Ev. unfold advance. rewrite Ex, Ev.
  destruct (Qlt_le_dec (posX q + vx u - iw / 2) 0);
    [|destruct (Qlt_le_dec wd (posX q + vx u + iw / 2))];
    (destruct (Qlt_le_dec (posY q2 + vy u2 - ih2 / 2) 0);
       [|destruct (Qlt_le_dec ht2 (posY q2 + vy u2 + ih2 / 2))]);
    (destruct (Qlt_le_dec (posY q + vy u - ih / 2) 0);
       [|destruct (Qlt_le_dec ht (posY q + vy u + ih / 2))]);
    by split.
Qed.

(** ** Re-rolling the velocity *)

(** For draws in [[0, 1)]: [vx] and [vy] lie in [[-6, 6)] and the
    magnitude of [vr] in [[0.05, 0.25)], with either sign. *)
Lemma rolled_range r0 r1 r2 r3 :
  0 <= r0 < 1 -> 0 <= r1 < 1 -> 0 <= r2 < 1 ->
  -6 <= vx (rolled r0 r1 r2 r3) < 6 /\
  -6 <= vy (rolled r0 r1 r2 r3) < 6 /\
  ((5 # 100) <= vr (rolled r0 r1 r2 r3) < (25 # 100) \/
   (5 # 100) <= - vr (rolled r0 r1 r2 r3) < (25 # 100)).
Proof.
  intros [? ?] [? ?] [? ?]. unfold rolled. cbn [vx vy vr].
  destruct (Qlt_le_dec (5 # 10) r3); repeat split; lra.
Qed.

(** [startAnimation], when it finds a drawing and there is no speech
    synthesis (so that its own roll is the last one), leaves the velocity
    [rolled] from the next four draws. *)
Lemma startAnimation_velocity s canvas box :
  canvasRef (store s) = Some canvas ->
  getDrawingBoundingBox canvas = Some box ->
  speechSynthesis (env s) = false ->
  velocityRef (anim (startAnimation s))
    = rolled (random (env s) (drawn (env s)))
             (random (env s) (drawn (env s) + 1))
             (random (env s) (drawn (env s) + 2))
             (random (env s) (drawn (env s) + 3)).
Proof.
  intros Hc Hb Hs. unfold startAnimation. rewrite Hc, Hb.
  destruct box as [[[minX minY] maxX] maxY].
  unfold speakRandom. cbn [env withEnv withAnim speechSynthesis]. by rewrite Hs.
Qed.

Local Close Scope Q_scope.

(** ** A drawing session, then undo and redo *)

(** After a drawing session of [n] gestures, the last of which begins with
    the press [e] in state [s1] and ends in state [s]: [n] undos show the
    white canvas and [n] redos after them the canvas of [s1]. *)
Lemma session_undo_redo `{DisplaySurface} w h speech rand evs1 e evs2 s1 s :
  forallb isPaintEvent (evs1 ++ evs2) = true ->
  gestures evs2 = 0%nat ->
  (S (gestures evs1) <= 19)%nat ->
  run evs1 (started w h speech rand) = Some s1 ->
  run (PointerDown e :: evs2) s1 = Some s ->
  rasterOf <$> run (replicate (S (gestures evs1)) ClickUndo) s
    = Some (Some (whiteData w h)) /\
  rasterOf <$> run (replicate (S (gestures evs1)) ClickUndo ++
                    replicate (S (gestures evs1)) ClickRedo) s
    = Some (rasterOf s1).
Proof.
  intros Hp Hg2 Hn Hrun1 Hrun2.
  rewrite forallb_app in Hp. apply andb_true_iff in Hp as [Hp1 Hp2].
  pose proof (paintInv_run w h evs1 0 _ s1 (paintInv_started w h speech rand)
                Hp1 ltac:(simpl; lia) Hrun1) as HI1. simpl in HI1.
  simpl in Hrun2. destruct (startDrawing e s1) as [s1'|] eqn:Ed; [|done].
  destruct (paintInv_down w h _ e s1 s1' HI1 ltac:(lia) Ed) as [HI1' Hsnap].
  destruct (history_kept_without_down w h evs2 _ s1' s HI1' Hp2 Hg2 Hrun2)
    as [HI Hh].
  set (n := S (gestures evs1)) in *.
  destruct (undo_all_white w h n s HI) as (Hwhite & Hidx & Hhist & Hcanvas).
  rewrite run_app, run_undo_clicks by apply (pi_idle _ _ _ _ HI).
  split; [by rewrite <- Hwhite|].
  cbn [mbind option_bind].
  rewrite run_redo_clicks by apply (pi_idle _ _ _ _ HI).
  destruct (redo_iter (gestures evs1) (Nat.iter n undo (store s)) Hcanvas)
    as (_ & _ & Hpx).
  { lia. }
  { unfold historyLength. rewrite Hhist, (pi_length _ _ _ _ HI). lia. }
  fold n in Hpx.
  change (Some (pixels <$> canvasRef (Nat.iter n redo (Nat.iter n undo (store s))))
          = Some (rasterOf s1)).
  f_equal.
  rewrite Hpx, Hidx, Hhist, Hh. unfold arrayGet. rewrite decide_True by lia.
  replace (Z.to_nat (0 + Z.of_nat n)) with n by lia. by rewrite <- Hsnap.
Qed.

(** ** Rasters keep their size *)

(** Whatever the fill colour, a bucket fill that returns keeps the length
    of the raster. *)
Lemma fillFlood_length fuel ctx x y c ctx' :
  fillFlood fuel ctx x y c = Some ctx' ->
  length (pixels ctx') = length (pixels ctx).
Proof.
  unfold fillFlood, fillFloodTrace.
  destruct (colorsMatch _ c); [by intros [= <-]|].
  destruct (fillLoop _ _ _ _ _ _) as [st|] eqn:Hrun; [|done].
  intros [= <-]. simpl.
  apply (fillLoop_rule _ _ _ _ (fun st => length (data st) = length (pixels ctx)))
    in Hrun as [Hlen _]; [done| |done].
  intros s s' Hs Hstep.
  destruct (queue s) as [|p rest] eqn:Eq; [by rewrite fillStep_nil in Hstep|].
  rewrite (fillStep_cons _ _ _ _ _ _ _ Eq) in Hstep.
  destruct (outOfBounds _ _ p); [by injection Hstep as <-|].
  destruct (colorsMatch _ _); injection Hstep as <-; [|done].
  simpl. by rewrite length_paintPixel.
Qed.

(** The canvas of a run has the size of the setup and a raster of
    [4 * w * h] bytes, and so has every snapshot on the stack: snapshots
    are whole captures of the one canvas. *)
Lemma reachable_rasters `{DisplaySurface} w h s :
  reachable w h s ->
  (exists canvas, canvasRef (store s) = Some canvas /\
     cwidth canvas = w /\ cheight canvas = h /\
     length (pixels canvas) = rasterLength w h) /\
  Forall (fun img => length img = rasterLength w h) (historyRef (store s)).
Proof.
  induction 1 as [speech rand|s ev s' _ IH Hstep].
  { simpl. split; [|apply Forall_singleton, length_whiteData].
    eexists. split; [done|]. split_and!; try done. apply length_whiteData. }
  destruct IH as [(c & Hc & Hcw & Hch & Hcl) Hhist].
  destruct ev; simpl in Hstep.
  - (* press *)
    unfold startDrawing in Hstep.
    destruct (animating (anim s)); [injection Hstep as <-; eauto 10|].
    rewrite Hc in Hstep. destruct (getCanvasRelativePosition e c) as [x y].
    pose proof (saveHistory_Forall _ (store s) c Hc Hcl Hhist) as Hh'.
    pose proof (saveHistory_canvas (store s)) as Hc'. rewrite Hc in Hc'.
    destruct (mode (pen s)).
    + injection Hstep as <-. simpl. eauto 10.
    + destruct (fillFlood _ _ _ _ _) as [c'|] eqn:Ef; [|done].
      injection Hstep as <-. simpl. split; [|done].
      pose proof (fillFlood_length _ _ _ _ _ _ Ef).
      apply fillFlood_size in Ef as [? ?].
      exists c'. split_and!; congruence.
    + injection Hstep as <-. simpl. eauto 10.
  - (* move *)
    injection Hstep as <-. unfold draw.
    destruct (negb _); [eauto 10|]. destruct (animating _); [eauto 10|].
    rewrite Hc. destruct (getCanvasRelativePosition e c) as [x y].
    destruct (mode (pen s)); simpl; (split; [|done]); eexists; (split; [done|]);
      by rewrite strokeLine_width, strokeLine_height, strokeLine_length.
  - injection Hstep as <-. simpl. eauto 10.
  - injection Hstep as <-. destruct (_ || _); simpl; eauto 10.
  - injection Hstep as <-. destruct (animating _); simpl; eauto 10.
  - injection Hstep as <-. destruct (animating _); simpl; eauto 10.
  - (* undo *)
    injection Hstep as <-. destruct (animating _); [eauto 10|]. simpl.
    unfold undo. rewrite Hc. destruct (_ <=? 0); simpl.
    + split; [|done]. eexists. split; [done|]. simpl.
      split_and!; try done. by rewrite Hcw, Hch, length_whiteData.
    + unfold arrayGet. case_decide; simpl; [|eauto 10].
      destruct (historyRef (store s) !! _) as [img|] eqn:Ei; simpl; [|eauto 10].
      split; [|done]. eexists. split; [done|]. simpl.
      split_and!; try done. by eapply (Forall_lookup_1 _ _ _ _ Hhist).
  - (* redo *)
    injection Hstep as <-. destruct (animating _); [eauto 10|]. simpl.
    unfold redo. destruct (_ >=? _); [eauto 10|]. rewrite Hc.
    unfold arrayGet. case_decide; simpl; [|eauto 10].
    destruct (historyRef (store s) !! _) as [img|] eqn:Ei; simpl; [|eauto 10].
    split; [|done]. eexists. split; [done|]. simpl.
    split_and!; try done. by eapply (Forall_lookup_1 _ _ _ _ Hhist).
  - (* finish *)
    injection Hstep as <-. destruct (animating _); [eauto 10|].
    rewrite startAnimation_store. eauto 10.
  - (* back *)
    injection Hstep as <-. destruct (animating _); [|eauto 10].
    unfold stopAnimation, resetStore. simpl. rewrite Hc. simpl.
    split; [|done]. eexists. split; [done|]. simpl.
    split_and!; try done. by rewrite Hcw, Hch, length_whiteData.
  - (* more *)
    injection Hstep as <-. destruct (animating _); [|eauto 10].
    rewrite speakRandom_store. eauto 10.
  - (* frame *)
    injection Hstep as <-. unfold animate. destruct (negb _); [eauto 10|].
    rewrite Hc. destruct (offscreenCanvasRef (anim s)) as [off|]; [|eauto 10].
    destruct (advance _ _ _ _ _ _) as [p v]. simpl. split; [|done].
    eexists. split; [done|].
    rewrite drawImage_width, drawImage_height, drawImage_length. simpl.
    split_and!; try done. by rewrite Hcw, Hch, length_whiteData.
Qed.

(** ** The small inputs *)

Lemma wall3_wf : wfCanvas wall3.
Proof. by vm_compute. Qed.

Lemma red_valid : validColor red.
Proof. unfold validColor, red, rgbOf. simpl. lia. Qed.

Lemma after21_run :
  @run dotSurface strokes21 (started 5 5 true noDraws) = Some after21.
Proof. vm_compute. reflexivity. Qed.

Lemma after21_undo_clicks k :
  rasterOf <$> @run dotSurface (replicate k ClickUndo) after21
    = Some (pixels <$> canvasRef (Nat.iter k undo (store after21))).
Proof. rewrite run_undo_clicks by (vm_compute; reflexivity). reflexivity. Qed.

Lemma after21_undo_reaches k :
  (1 <= k <= 19)%nat ->
  pixels <$> canvasRef (Nat.iter k undo (store after21))
    = historyRef (store after21) !! (19 - k)%nat.
Proof.
  intros Hk.
  assert (Forall (fun k => pixels <$> canvasRef (Nat.iter k undo (store after21))
                           = historyRef (store after21) !! (19 - k)%nat)
            (seq 1 19)) as Hall
    by (apply (bool_decide_unpack _); vm_compute; exact I).
  apply (proj1 (Forall_forall _ _) Hall k), elem_of_seq. lia.
Qed.

Lemma after21_undo_misses k :
  pixels <$> canvasRef (Nat.iter k undo (store after21))
    <> last (historyRef (store after21)).
Proof.
  assert (Forall (fun k => pixels <$> canvasRef (Nat.iter k undo (store after21))
                           <> last (historyRef (store after21)))
            (seq 0 21)) as Hall
    by (apply (bool_decide_unpack _); vm_compute; exact I).
  pose proof (proj1 (Forall_forall _ _) Hall) as Hk.
  destruct (decide (k < 21)%nat) as [Hlt|Hge].
  - apply Hk, elem_of_seq. lia.
  - assert (undo (Nat.iter 20 undo (store after21))
            = Nat.iter 20 undo (store after21)) as Hfix
      by (vm_compute; reflexivity).
    rewrite (iter_past_fixpoint undo (store after21) 20 k Hfix) by lia.
    apply Hk, elem_of_seq. lia.
Qed.

(** ** Runs *)

(** States a run passes through are reachable. *)
Lemma run_reachable `{DisplaySurface} w h evs : forall s s',
  reachable w h s -> run evs s = Some s' -> reachable w h s'.
Proof.
  induction evs as [|ev evs IH]; intros s s' Hr; simpl; [by intros [= <-]|].
  destruct (handle ev s) as [s1|] eqn:E; [|done].
  apply IH. by apply (reachable_step w h s ev s1).
Qed.

Lemma animatingMute_reachable : @reachable dotSurface 2 2 animatingMute.
Proof.
  apply (@run_reachable dotSurface 2 2 (stroke 2 2 0 0 1 0 ++ [ClickFinish])
           (started 2 2 false ramp)); [apply reachable_start|].
  vm_compute. reflexivity.
Qed.

Lemma undone_reachable : @reachable dotSurface 2 2 undone.
Proof.
  apply (@run_reachable dotSurface 2 2 (stroke 2 2 0 0 1 0 ++ [ClickUndo])
           (started 2 2 true noDraws)); [apply reachable_start|].
  vm_compute. reflexivity.
Qed.

Lemma redrawn_reachable : @reachable dotSurface 2 2 redrawn.
Proof.
  apply (@run_reachable dotSurface 2 2
           (stroke 2 2 0 0 1 0 ++ [ClickFinish; ClickBack] ++ stroke 2 2 0 0 1 0)
           (started 2 2 false ramp)); [apply reachable_start|].
  vm_compute. reflexivity.
Qed.

Lemma after21_reachable : @reachable dotSurface 5 5 after21.
Proof.
  apply (@run_reachable dotSurface 5 5 strokes21 (started 5 5 true noDraws));
    [apply reachable_start|apply after21_run].
Qed.

(* ===================================================================== *)
(** * The claims                                                           *)
(* ===================================================================== *)

(** ** C1: undo and redo round trip *)

(** C1, what the code does.  Take any drawing session from the start that
    consists of [n] gestures (strokes or fills, [1 <= n <= 19]) with tool
    changes in between, the colours being values of the colour input.  The
    session returns; let [s1] be the state in which the last gesture begins,
    with the press [e], and [s] the state at the end.  Then [n] undos show
    the white canvas, as the claim says; but [n] redos after them show the
    canvas as it was in [s1], before the last gesture, and so not the
    canvas of [s] whenever the last gesture changed it: the snapshot is
    taken before the gesture and nothing records the canvas after it. *)
Theorem undo_all_then_redo_all `{DisplaySurface} w h speech rand evs1 e evs2 :
  0 <= w -> 0 <= h ->
  forallb isPaintEvent (evs1 ++ evs2) = true ->
  Forall goodEvent (evs1 ++ evs2) ->
  gestures evs2 = 0%nat ->
  (S (gestures evs1) <= 19)%nat ->
  exists s1 s,
    run evs1 (started w h speech rand) = Some s1 /\
    run (PointerDown e :: evs2) s1 = Some s /\
    rasterOf <$> run (replicate (S (gestures evs1)) ClickUndo) s
      = Some (Some (whiteData w h)) /\
    rasterOf <$> run (replicate (S (gestures evs1)) ClickUndo ++
                      replicate (S (gestures evs1)) ClickRedo) s
      = Some (rasterOf s1) /\
    (rasterOf s <> rasterOf s1 ->
     rasterOf <$> run (replicate (S (gestures evs1)) ClickUndo ++
                       replicate (S (gestures evs1)) ClickRedo) s
       <> Some (rasterOf s)).
Proof.
  intros Hw Hh Hp Hgood Hg2 Hn.
  apply Forall_app in Hgood as [Hgood1 Hgood2].
  destruct (run_total w h Hw Hh evs1 _ (wfInv_started w h speech rand) Hgood1)
    as (s1 & Hrun1 & HI1).
  destruct (run_total w h Hw Hh (PointerDown e :: evs2) s1 HI1) as (s & Hrun2 & _).
  { by apply Forall_cons. }
  exists s1, s. split; [done|]. split; [done|].
  destruct (session_undo_redo w h speech rand evs1 e evs2 s1 s) as [Hundo Hredo];
    try done.
  split; [done|]. split; [done|].
  intros Hne. rewrite Hredo. intros [= Heq]. by apply Hne.
Qed.

(** The instance with one stroke on a 2 by 2 canvas: after undo and redo
    the canvas is the one of the start, not the one with the stroke. *)
Lemma undo_all_then_redo_all_witness :
  exists s1 s,
    @run dotSurface [] (started 2 2 true noDraws) = Some s1 /\
    @run dotSurface (PointerDown (pointerAt 2 2 0 0)
                     :: [PointerMove (pointerAt 2 2 1 0); PointerUp]) s1 = Some s /\
    rasterOf <$> @run dotSurface (replicate 1 ClickUndo) s
      = Some (Some (whiteData 2 2)) /\
    rasterOf <$> @run dotSurface (replicate 1 ClickUndo ++ replicate 1 ClickRedo) s
      = Some (rasterOf s1) /\
    (rasterOf s <> rasterOf s1 ->
     rasterOf <$> @run dotSurface (replicate 1 ClickUndo ++ replicate 1 ClickRedo) s
       <> Some (rasterOf s)).
Proof.
  apply (@undo_all_then_redo_all dotSurface 2 2 true noDraws []
           (pointerAt 2 2 0 0) [PointerMove (pointerAt 2 2 1 0); PointerUp]).
  - lia.
  - lia.
  - reflexivity.
  - by repeat constructor.
  - reflexivity.
  - unfold gestures; simpl; lia.
Defined.

(** The failing input of C1 evaluated: one stroke, then undo, then redo.
    The stroke blackened pixel [(1, 0)]; after the round trip the canvas is
    white again. *)
Lemma stroke_undo_redo_example :
  rasterOf <$> @run dotSurface (stroke 2 2 0 0 1 0) (started 2 2 true noDraws)
    = Some (Some [255; 255; 255; 255; 0; 0; 0; 255;
                  255; 255; 255; 255; 255; 255; 255; 255]) /\
  rasterOf <$> @run dotSurface (stroke 2 2 0 0 1 0 ++ [ClickUndo])
                 (started 2 2 true noDraws)
    = Some (Some (whiteData 2 2)) /\
  rasterOf <$> @run dotSurface (stroke 2 2 0 0 1 0 ++ [ClickUndo; ClickRedo])
                 (started 2 2 true noDraws)
    = Some (Some (whiteData 2 2)).
Proof. by vm_compute. Qed.

(** ** C2: the state after [stopAnimation] *)

(** C2, what the code does.  With the canvas present, [stopAnimation]
    leaves the animating state and whitens the canvas, which is then the
    canvas of the start for the same size; but it leaves the stack empty
    and the index at [-1], whereas the setup effect seeds the stack with the
    white frame and puts the index at 0.  So the store after
    [stopAnimation] is not the store of the start. *)
Theorem stopAnimation_store s canvas :
  canvasRef (store s) = Some canvas ->
  animating (anim (stopAnimation s)) = false /\
  store (stopAnimation s) = MkStore (Some (fillWhite canvas)) [] (-1) /\
  forall speech rand,
    store (started (cwidth canvas) (cheight canvas) speech rand)
      = MkStore (Some (fillWhite canvas))
          [whiteData (cwidth canvas) (cheight canvas)] 0 /\
    store (stopAnimation s)
      <> store (started (cwidth canvas) (cheight canvas) speech rand).
Proof.
  intros Hc. unfold stopAnimation. simpl. unfold resetStore. rewrite Hc.
  split_and!; try done.
Qed.

Lemma stopAnimation_store_witness :
  animating (anim (stopAnimation (started 2 2 true noDraws))) = false /\
  store (stopAnimation (started 2 2 true noDraws))
    = MkStore (Some (fillWhite (MkCanvas 2 2 (whiteData 2 2)))) [] (-1) /\
  forall speech rand,
    store (started (cwidth (MkCanvas 2 2 (whiteData 2 2)))
             (cheight (MkCanvas 2 2 (whiteData 2 2))) speech rand)
      = MkStore (Some (fillWhite (MkCanvas 2 2 (whiteData 2 2))))
          [whiteData (cwidth (MkCanvas 2 2 (whiteData 2 2)))
             (cheight (MkCanvas 2 2 (whiteData 2 2)))] 0 /\
    store (stopAnimation (started 2 2 true noDraws))
      <> store (started (cwidth (MkCanvas 2 2 (whiteData 2 2)))
                  (cheight (MkCanvas 2 2 (whiteData 2 2))) speech rand).
Proof.
  apply (stopAnimation_store (started 2 2 true noDraws)
           (MkCanvas 2 2 (whiteData 2 2))).
  reflexivity.
Defined.

(** The failing input of C2 evaluated: draw a stroke, press "finish", then
    "back".  The store differs from the one of the start, and the
    difference shows: after one more stroke the index is 0 instead of 1,
    which is the value at which the undo button is rendered disabled. *)
Lemma back_to_drawing_example :
  store <$> @run dotSurface (stroke 2 2 0 0 1 0 ++ [ClickFinish; ClickBack])
              (started 2 2 true noDraws)
    = Some (MkStore (Some (MkCanvas 2 2 (whiteData 2 2))) [] (-1)) /\
  store (started 2 2 true noDraws)
    = MkStore (Some (MkCanvas 2 2 (whiteData 2 2))) [whiteData 2 2] 0 /\
  (historyIndexRef ∘ store) <$>
    @run dotSurface (stroke 2 2 0 0 1 0 ++ [ClickFinish; ClickBack]
                     ++ stroke 2 2 0 0 1 1) (started 2 2 true noDraws)
    = Some 0 /\
  (historyIndexRef ∘ store) <$>
    @run dotSurface (stroke 2 2 0 0 1 1) (started 2 2 true noDraws)
    = Some 1.
Proof. by vm_compute. Qed.

(** ** C3: the bucket fill recolours the 4-connected region *)

(** C3. For a well-formed canvas, a fill colour with byte channels and a
    seed inside the canvas whose colour differs from the fill colour,
    [fillFlood] returns (no error, the loop drains) and:
    the pixels it recolours, each exactly once ([painted] has no
    duplicates), are exactly the 4-connected closure [region] of the seed
    among the pixels with the seed's exact RGBA colour, where two pixels
    are neighbours when their Manhattan distance is 1 ([edgeAdjacent], a
    relation on coordinates that does not mention the code); every pixel
    of the region ends with the fill colour; every other pixel of the
    canvas keeps its colour; and an iteration that dequeues a coordinate
    outside the canvas only drops it. *)
Theorem fillFlood_region ctx x y fill :
  wfCanvas ctx -> validColor fill ->
  inBounds (cwidth ctx) (cheight ctx) (x, y) ->
  pixelAt (cwidth ctx) (pixels ctx) (x, y) <> fill ->
  exists ctx' st,
    fillFloodTrace (fillFuel ctx) ctx x y fill = Some (ctx', st) /\
    fillFlood (fillFuel ctx) ctx x y fill = Some ctx' /\
    cwidth ctx' = cwidth ctx /\ cheight ctx' = cheight ctx /\
    length (pixels ctx') = length (pixels ctx) /\
    NoDup (painted st) /\
    (forall p, p ∈ painted st <->
               region (cwidth ctx) (cheight ctx) (pixels ctx) (x, y) p) /\
    (forall p, region (cwidth ctx) (cheight ctx) (pixels ctx) (x, y) p ->
               pixelAt (cwidth ctx) (pixels ctx') p = fill) /\
    (forall p, inBounds (cwidth ctx) (cheight ctx) p ->
               ~ region (cwidth ctx) (cheight ctx) (pixels ctx) (x, y) p ->
               pixelAt (cwidth ctx) (pixels ctx') p =
               pixelAt (cwidth ctx) (pixels ctx) p) /\
    (forall t s p rest, queue s = p :: rest ->
               ~ inBounds (cwidth ctx) (cheight ctx) p ->
               fillStep (cwidth ctx) (cheight ctx) t fill s =
               Some (FillState rest (data s) (painted s) (pushed s))).
Proof.
  intros Hwf Hfill Hseed Hne.
  pose proof Hwf as (Hw & Hh & Hlen).
  pose proof (colorsMatch_false_ne _ _ _ _ Hne) as Hdiff.
  change (pixelAt (cwidth ctx) (pixels ctx) (x, y))
    with (getPixelColor (cwidth ctx) (pixels ctx) x y) in Hdiff.
  destruct (fillLoop_runs ctx x y fill (fillFuel ctx) Hwf Hfill Hdiff (le_n _))
    as (st & Hrun & _ & _).
  assert (connInv (cwidth ctx) (cheight ctx) (pixels ctx) fill (x, y) st
          /\ queue st = []) as [HI Hq].
  { eapply (fillLoop_rule _ _ _ fill
              (connInv (cwidth ctx) (cheight ctx) (pixels ctx) fill (x, y)));
      [|apply connInv_init; done|exact Hrun].
    intros s s'. by apply connInv_step. }
  assert (fillFloodTrace (fillFuel ctx) ctx x y fill =
          Some (MkCanvas (cwidth ctx) (cheight ctx) (data st), st)) as Htrace.
  { unfold fillFloodTrace. by rewrite Hdiff, Hrun. }
  exists (MkCanvas (cwidth ctx) (cheight ctx) (data st)), st.
  pose proof (ci_basic _ _ _ _ _ _ HI) as HB.
  split_and!; simpl; try done.
  - unfold fillFlood. by rewrite Htrace.
  - apply (bi_len _ _ _ _ _ _ HB).
  - apply (bi_nodup _ _ _ _ _ _ HB).
  - intros p. rewrite <- connected_iff_region.
    split; [apply (ci_conn _ _ _ _ _ _ HI)|].
    by apply (connInv_complete _ _ _ _ _ st p HI).
  - intros p Hc. apply connected_iff_region in Hc.
    apply (bi_painted _ _ _ _ _ _ HB).
    by apply (connInv_complete _ _ _ _ _ st p HI).
  - intros p Hb Hnc. apply (ci_rest _ _ _ _ _ _ HI); [done|].
    intros Hin. by apply Hnc, connected_iff_region, (ci_conn _ _ _ _ _ _ HI).
  - intros t s p rest Eq Hout.
    rewrite (fillStep_cons _ _ _ _ _ _ _ Eq).
    apply outOfBounds_true in Hout. by rewrite Hout.
Qed.

(** On [wall3] (a black wall in the middle column of a white 3 by 3
    canvas), from the top left pixel and with red: the theorem at this
    input; with it, the three pixels of the left column are in the region
    and end red, and the right column, which the wall cuts off, is not in
    the region and stays white. *)
Lemma fillFlood_region_witness :
  exists ctx' st,
    fillFloodTrace (fillFuel wall3) wall3 0 0 red = Some (ctx', st) /\
    fillFlood (fillFuel wall3) wall3 0 0 red = Some ctx' /\
    cwidth ctx' = cwidth wall3 /\ cheight ctx' = cheight wall3 /\
    length (pixels ctx') = length (pixels wall3) /\
    NoDup (painted st) /\
    (forall p, p ∈ painted st <->
               region (cwidth wall3) (cheight wall3) (pixels wall3) (0, 0) p) /\
    (forall p, region (cwidth wall3) (cheight wall3) (pixels wall3) (0, 0) p ->
               pixelAt (cwidth wall3) (pixels ctx') p = red) /\
    (forall p, inBounds (cwidth wall3) (cheight wall3) p ->
               ~ region (cwidth wall3) (cheight wall3) (pixels wall3) (0, 0) p ->
               pixelAt (cwidth wall3) (pixels ctx') p =
               pixelAt (cwidth wall3) (pixels wall3) p) /\
    (forall t s p rest, queue s = p :: rest ->
               ~ inBounds (cwidth wall3) (cheight wall3) p ->
               fillStep (cwidth wall3) (cheight wall3) t red s =
               Some (FillState rest (data s) (painted s) (pushed s))).
Proof.
  apply (fillFlood_region wall3 0 0 red).
  - apply wall3_wf.
  - apply red_valid.
  - unfold inBounds. simpl. lia.
  - vm_compute. discriminate.
Defined.

(** The region of the top left pixel of [wall3], worked out from the
    definition of [region] alone: it is the left column. *)
Lemma wall3_region p :
  region 3 3 (pixels wall3) (0, 0) p <-> p = (0, 0) \/ p = (0, 1) \/ p = (0, 2).
Proof.
  split.
  - induction 1 as [Hb|p q _ IH Hadj Hb Ht]; [by left|].
    destruct q as [qx qy]. unfold edgeAdjacent, inBounds in *. cbn [fst snd] in *.
    assert (qx = 0 \/ qx = 1 \/ qx = 2) as Hx by lia.
    assert (qy = 0 \/ qy = 1 \/ qy = 2) as Hy by lia.
    destruct IH as [-> | [-> | ->]]; cbn [fst snd] in Hadj;
      destruct Hx as [-> | [-> | ->]]; destruct Hy as [-> | [-> | ->]];
      try (exfalso; lia); try (by vm_compute in Ht); auto.
  - assert (region 3 3 (pixels wall3) (0, 0) (0, 0)) as H0.
    { apply region_seed. unfold inBounds. simpl. lia. }
    assert (region 3 3 (pixels wall3) (0, 0) (0, 1)) as H1.
    { apply (region_step _ _ _ _ (0, 0)); [done|by vm_compute| |by vm_compute].
      unfold inBounds. simpl. lia. }
    intros [-> | [-> | ->]]; [done|done|].
    apply (region_step _ _ _ _ (0, 1)); [done|by vm_compute| |by vm_compute].
    unfold inBounds. simpl. lia.
Qed.

(** Filling the left column of [wall3] with red from its top pixel: the
    three pixels of the column are recoloured, top to bottom; the wall and
    the right column are untouched; 13 coordinates were pushed. *)
Lemma fillFlood_example :
  fillFloodTrace (fillFuel wall3) wall3 0 0 red
    = Some (MkCanvas 3 3
              [255; 0; 0; 255;  0; 0; 0; 255;  255; 255; 255; 255;
               255; 0; 0; 255;  0; 0; 0; 255;  255; 255; 255; 255;
               255; 0; 0; 255;  0; 0; 0; 255;  255; 255; 255; 255],
            FillState []
              [255; 0; 0; 255;  0; 0; 0; 255;  255; 255; 255; 255;
               255; 0; 0; 255;  0; 0; 0; 255;  255; 255; 255; 255;
               255; 0; 0; 255;  0; 0; 0; 255;  255; 255; 255; 255]
              [(0, 0); (0, 1); (0, 2)]
              [(0, 0); (-1, 0); (1, 0); (0, -1); (0, 1);
               (-1, 1); (1, 1); (0, 0); (0, 2);
               (-1, 2); (1, 2); (0, 1); (0, 3)]).
Proof. by vm_compute. Qed.

(** ** C4: the bounce *)

Local Open Scope Q_scope.

(** The position and velocity update on its own, for a sprite that is not
    larger than the canvas, wherever the sprite is.  On each axis: if the
    leading edge after the move is beyond the wall (left or top: position
    minus half the extent below 0; right or bottom: position plus half the
    extent above the canvas size), the position is set so that this edge
    is exactly on the wall and the velocity component of that axis is
    negated; otherwise the position is the moved one and the component is
    kept.  The rotation always advances by the angular velocity, which is
    never changed. *)
Lemma advance_bounce imgWidth imgHeight width height p v :
  0 <= imgWidth <= width -> 0 <= imgHeight <= height ->
  let p' := (advance imgWidth imgHeight width height p v).1 in
  let v' := (advance imgWidth imgHeight width height p v).2 in
  (posX p + vx v - imgWidth / 2 < 0 ->
     posX p' - imgWidth / 2 == 0 /\ vx v' = - vx v /\
     (0 <= posX p - imgWidth / 2 -> vx v < 0 /\ 0 < vx v')) /\
  (width < posX p + vx v + imgWidth / 2 ->
     posX p' + imgWidth / 2 == width /\ vx v' = - vx v /\
     (posX p + imgWidth / 2 <= width -> 0 < vx v /\ vx v' < 0)) /\
  (0 <= posX p + vx v - imgWidth / 2 -> posX p + vx v + imgWidth / 2 <= width ->
     posX p' = posX p + vx v /\ vx v' = vx v) /\
  (posY p + vy v - imgHeight / 2 < 0 ->
     posY p' - imgHeight / 2 == 0 /\ vy v' = - vy v /\
     (0 <= posY p - imgHeight / 2 -> vy v < 0 /\ 0 < vy v')) /\
  (height < posY p + vy v + imgHeight / 2 ->
     posY p' + imgHeight / 2 == height /\ vy v' = - vy v /\
     (posY p + imgHeight / 2 <= height -> 0 < vy v /\ vy v' < 0)) /\
  (0 <= posY p + vy v - imgHeight / 2 -> posY p + vy v + imgHeight / 2 <= height ->
     posY p' = posY p + vy v /\ vy v' = vy v) /\
  (forall x0 vx0 iw wd,
     let r := advance iw imgHeight wd height
                (MkImgPos x0 (posY p) (rotation p)) (MkVelocity vx0 (vy v) (vr v)) in
     posY r.1 = posY p' /\ vy r.2 = vy v' /\
     rotation r.1 = rotation p' /\ vr r.2 = vr v') /\
  (forall y0 vy0 ih ht,
     let r := advance imgWidth ih width ht
                (MkImgPos (posX p) y0 (rotation p)) (MkVelocity (vx v) vy0 (vr v)) in
     posX r.1 = posX p' /\ vx r.2 = vx v' /\
     rotation r.1 = rotation p' /\ vr r.2 = vr v') /\
  rotation p' = rotation p + vr v /\ vr v' = vr v.
Proof.
  intros [Hw0 Hw] [Hh0 Hh] p' v'. subst p' v'.
  assert (imgWidth / 2 == imgWidth * (1 # 2)) as Ew by field.
  assert (imgHeight / 2 == imgHeight * (1 # 2)) as Eh by field.
  assert (forall iw ih wd ht q u,
            rotation (advance iw ih wd ht q u).1 = rotation q + vr u /\
            vr (advance iw ih wd ht q u).2 = vr u) as Hrot.
  { intros. unfold advance.
    destruct (Qlt_le_dec _ 0); [|destruct (Qlt_le_dec wd _)];
      (destruct (Qlt_le_dec _ 0); [|destruct (Qlt_le_dec ht _)]); by split. }
  split_and!.
  - unfold advance. intros Hc.
    destruct (Qlt_le_dec (posX p + vx v - imgWidth / 2) 0); [|lra].
    destruct (Qlt_le_dec _ 0); [|destruct (Qlt_le_dec height _)];
      cbn [fst snd posX vx]; (split_and!; [lra|reflexivity|intros; split; lra]).
  - unfold advance. intros Hc.
    destruct (Qlt_le_dec (posX p + vx v - imgWidth / 2) 0); [lra|].
    destruct (Qlt_le_dec width (posX p + vx v + imgWidth / 2)); [|lra].
    destruct (Qlt_le_dec _ 0); [|destruct (Qlt_le_dec height _)];
      cbn [fst snd posX vx]; (split_and!; [lra|reflexivity|intros; split; lra]).
  - unfold advance. intros Hc1 Hc2.
    destruct (Qlt_le_dec (posX p + vx v - imgWidth / 2) 0); [lra|].
    destruct (Qlt_le_dec width (posX p + vx v + imgWidth / 2)); [lra|].
    destruct (Qlt_le_dec _ 0); [|destruct (Qlt_le_dec height _)]; by split.
  - unfold advance. intros Hc.
    destruct (Qlt_le_dec (posY p + vy v - imgHeight / 2) 0); [|lra].
    destruct (Qlt_le_dec _ 0); [|destruct (Qlt_le_dec width _)];
      cbn [fst snd posY vy]; (split_and!; [lra|reflexivity|intros; split; lra]).
  - unfold advance. intros Hc.
    destruct (Qlt_le_dec (posY p + vy v - imgHeight / 2) 0); [lra|].
    destruct (Qlt_le_dec height (posY p + vy v + imgHeight / 2)); [|lra].
    destruct (Qlt_le_dec _ 0); [|destruct (Qlt_le_dec width _)];
      cbn [fst snd posY vy]; (split_and!; [lra|reflexivity|intros; split; lra]).
  - unfold advance. intros Hc1 Hc2.
    destruct (Qlt_le_dec (posY p + vy v - imgHeight / 2) 0); [lra|].
    destruct (Qlt_le_dec height (posY p + vy v + imgHeight / 2)); [lra|].
    destruct (Qlt_le_dec _ 0); [|destruct (Qlt_le_dec width _)]; by split.
  - intros x0 vx0 iw wd r. subst r.
    destruct (Hrot iw imgHeight wd height
                (MkImgPos x0 (posY p) (rotation p)) (MkVelocity vx0 (vy v) (vr v)))
      as [-> ->].
    destruct (Hrot imgWidth imgHeight width height p v) as [-> ->].
    unfold advance. cbn [posX posY rotation vx vy vr].
    destruct (Qlt_le_dec (x0 + vx0 - iw / 2) 0);
      [|destruct (Qlt_le_dec wd (x0 + vx0 + iw / 2))];
      (destruct (Qlt_le_dec (posX p + vx v - imgWidth / 2) 0);
         [|destruct (Qlt_le_dec width (posX p + vx v + imgWidth / 2))]);
      (destruct (Qlt_le_dec (posY p + vy v - imgHeight / 2) 0);
         [|destruct (Qlt_le_dec height (posY p + vy v + imgHeight / 2))]);
      by split_and!.
  - intros y0 vy0 ih ht r. subst r.
    destruct (Hrot imgWidth ih width ht
                (MkImgPos (posX p) y0 (rotation p)) (MkVelocity (vx v) vy0 (vr v)))
      as [-> ->].
    destruct (Hrot imgWidth imgHeight width height p v) as [-> ->].
    unfold advance. cbn [posX posY rotation vx vy vr].
    destruct (Qlt_le_dec (y0 + vy0 - ih / 2) 0);
      [|destruct (Qlt_le_dec ht (y0 + vy0 + ih / 2))];
      (destruct (Qlt_le_dec (posX p + vx v - imgWidth / 2) 0);
         [|destruct (Qlt_le_dec width (posX p + vx v + imgWidth / 2))]);
      (destruct (Qlt_le_dec (posY p + vy v - imgHeight / 2) 0);
         [|destruct (Qlt_le_dec height (posY p + vy v + imgHeight / 2))]);
      by split_and!.
  - apply Hrot.
  - apply Hrot.
Qed.

(** A sprite of 2 by 2 on a canvas of 10 by 10, centred at [(2, 5)] and
    moving left by 3 and down by 1 per frame: its left edge would be at -2.
    The frame ends with the centre at x = 1, the left edge on the wall, and
    the x velocity 3; the y axis and the rotation go on as always. *)
Lemma advance_bounce_at_left_wall :
  (0 <= 2 <= 10 /\ 0 <= 2 <= 10) /\
  let p := MkImgPos 2 5 0 in
  let v := MkVelocity (-3) 1 (1 # 10) in
  posX (advance 2 2 10 10 p v).1 - 2 / 2 == 0 /\
  vx (advance 2 2 10 10 p v).2 = - vx v /\
  0 < vx (advance 2 2 10 10 p v).2 /\
  posY (advance 2 2 10 10 p v).1 = posY p + vy v /\
  vy (advance 2 2 10 10 p v).2 = vy v /\
  rotation (advance 2 2 10 10 p v).1 = rotation p + vr v /\
  vr (advance 2 2 10 10 p v).2 = vr v.
Proof.
  assert (0 <= 2 <= 10) as Hfit by (split; vm_compute; discriminate).
  split; [by split|]. intros p v.
  destruct (advance_bounce 2 2 10 10 p v Hfit Hfit)
    as (Hleft & _ & _ & _ & _ & Hy & _ & _ & Hrot & Hvr).
  destruct Hleft as (Hedge & Hflip & Hsign); [by vm_compute|].
  destruct Hsign as [_ Hpos]; [vm_compute; discriminate|].
  destruct Hy as [Hy Hvy]; [vm_compute; discriminate|vm_compute; discriminate|].
  by split_and!.
Qed.

Lemma advance_example :
  advance 2 2 10 10 (MkImgPos 2 5 0) (MkVelocity (-3) 1 (1 # 10))
    = (MkImgPos (2 / 2) (5 + 1) (0 + (1 # 10)), MkVelocity (- -3) 1 (1 # 10)).
Proof. reflexivity. Qed.

(** C4. Every frame of the animation, in every run of the component on a
    canvas of [w] by [h]: the state is reachable and animating, and
    [animate] is what the frame callback does.  The sprite [off] is there
    and stays, the animation goes on, the sprite is not larger than the
    canvas and lies between the walls before the frame.  On each axis,
    which the code takes in the order x then y: if the leading edge after
    adding the velocity would be beyond the wall (left or top: position
    minus half the sprite's extent below 0; right or bottom: position plus
    half the extent above the canvas size), the frame leaves the position
    so that this edge is exactly on the wall, and the velocity component of
    that axis negated: the sprite was moving towards that wall and now
    moves away from it; otherwise the position is the moved one and the
    component is kept.  After the frame the sprite lies between the walls
    again: no overshoot persists.  The rotation advances by the angular
    velocity, which is not changed, whatever happens at the walls.  What
    the frame leaves on one axis does not depend on the other axis: any
    animating state [t] with a canvas and a sprite of the same extent along
    y, and the same y position and y velocity, has the same y position and
    y velocity after its frame, whatever its x position, x velocity,
    widths, rotation and angular velocity are, and likewise for x; so the
    order of the two tests cannot be observed.  (Numbers are exact
    rationals here; the source computes with doubles.) *)
Theorem animate_bounce `{DisplaySurface} w h s :
  (0 < w)%Z -> (0 < h)%Z -> reachable w h s -> animating (anim s) = true ->
  exists off,
    let imgWidth := inject_Z (cwidth off) in
    let imgHeight := inject_Z (cheight off) in
    let width := inject_Z w in
    let height := inject_Z h in
    let p := imgPosRef (anim s) in
    let v := velocityRef (anim s) in
    let p' := imgPosRef (anim (animate s)) in
    let v' := velocityRef (anim (animate s)) in
    offscreenCanvasRef (anim s) = Some off /\
    offscreenCanvasRef (anim (animate s)) = Some off /\
    animating (anim (animate s)) = true /\
    0 <= imgWidth <= width /\ 0 <= imgHeight <= height /\
    imgWidth / 2 <= posX p <= width - imgWidth / 2 /\
    imgHeight / 2 <= posY p <= height - imgHeight / 2 /\
    (posX p + vx v - imgWidth / 2 < 0 ->
       posX p' - imgWidth / 2 == 0 /\ vx v' = - vx v /\
       vx v < 0 /\ 0 < vx v') /\
    (width < posX p + vx v + imgWidth / 2 ->
       posX p' + imgWidth / 2 == width /\ vx v' = - vx v /\
       0 < vx v /\ vx v' < 0) /\
    (0 <= posX p + vx v - imgWidth / 2 -> posX p + vx v + imgWidth / 2 <= width ->
       posX p' = posX p + vx v /\ vx v' = vx v) /\
    (posY p + vy v - imgHeight / 2 < 0 ->
       posY p' - imgHeight / 2 == 0 /\ vy v' = - vy v /\
       vy v < 0 /\ 0 < vy v') /\
    (height < posY p + vy v + imgHeight / 2 ->
       posY p' + imgHeight / 2 == height /\ vy v' = - vy v /\
       0 < vy v /\ vy v' < 0) /\
    (0 <= posY p + vy v - imgHeight / 2 -> posY p + vy v + imgHeight / 2 <= height ->
       posY p' = posY p + vy v /\ vy v' = vy v) /\
    imgWidth / 2 <= posX p' <= width - imgWidth / 2 /\
    imgHeight / 2 <= posY p' <= height - imgHeight / 2 /\
    rotation p' = rotation p + vr v /\ vr v' = vr v /\
    (forall t canvas2 off2,
       animating (anim t) = true -> canvasRef (store t) = Some canvas2 ->
       offscreenCanvasRef (anim t) = Some off2 ->
       cheight canvas2 = h -> cheight off2 = cheight off ->
       posY (imgPosRef (anim t)) = posY p -> vy (velocityRef (anim t)) = vy v ->
       posY (imgPosRef (anim (animate t))) = posY p' /\
       vy (velocityRef (anim (animate t))) = vy v') /\
    (forall t canvas2 off2,
       animating (anim t) = true -> canvasRef (store t) = Some canvas2 ->
       offscreenCanvasRef (anim t) = Some off2 ->
       cwidth canvas2 = w -> cwidth off2 = cwidth off ->
       posX (imgPosRef (anim t)) = posX p -> vx (velocityRef (anim t)) = vx v ->
       posX (imgPosRef (anim (animate t))) = posX p' /\
       vx (velocityRef (anim (animate t))) = vx v').
Proof.
  intros Hw Hh Hr Ha.
  destruct (animate_frame w h s Hw Hh Hr Ha)
    as (off & Ho & Hfw & Hfh & Hx & Hy & Hadv).
  destruct (reachable_animInv w h Hw Hh s Hr) as [(c & Hc & Hcw & Hch) _ _].
  pose proof (animate_running s c off Ha Hc Ho) as Es. cbn zeta in Es.
  exists off. cbv zeta.
  pose proof (f_equal fst Hadv) as Ep. pose proof (f_equal snd Hadv) as Ev.
  cbn [fst snd] in Ep, Ev.
  destruct (advance_bounce _ _ _ _ (imgPosRef (anim s)) (velocityRef (anim s))
              Hfw Hfh)
    as (Bl & Br & Bx & Bt & Bb & By & _ & _ & Brot & Bvr).
  destruct (advance_inside _ _ _ _ (imgPosRef (anim s)) (velocityRef (anim s))
              Hfw Hfh) as [Ix Iy].
  rewrite <- Ep in Bl, Br, Bx, Bt, Bb, By, Brot, Ix, Iy.
  rewrite <- Ev in Bl, Br, Bx, Bt, Bb, By, Bvr.
  destruct Hx as [Hx0 Hx1], Hy as [Hy0 Hy1].
  assert (inject_Z (cwidth off) / 2 == inject_Z (cwidth off) * (1 # 2))
    as Ew by field.
  assert (inject_Z (cheight off) / 2 == inject_Z (cheight off) * (1 # 2))
    as Eh by field.
  split; [exact Ho|]. split; [by rewrite Es|]. split; [by rewrite Es|].
  split; [exact Hfw|]. split; [exact Hfh|].
  split; [by split|]. split; [by split|].
  split.
  { intros Hcross. destruct (Bl Hcross) as (E1 & E2 & Hs).
    destruct Hs as [? ?]; [lra|]. by split_and!. }
  split.
  { intros Hcross. destruct (Br Hcross) as (E1 & E2 & Hs).
    destruct Hs as [? ?]; [lra|]. by split_and!. }
  split; [exact Bx|].
  split.
  { intros Hcross. destruct (Bt Hcross) as (E1 & E2 & Hs).
    destruct Hs as [? ?]; [lra|]. by split_and!. }
  split.
  { intros Hcross. destruct (Bb Hcross) as (E1 & E2 & Hs).
    destruct Hs as [? ?]; [lra|]. by split_and!. }
  split; [exact By|].
  split; [exact Ix|]. split; [exact Iy|].
  split; [exact Brot|]. split; [exact Bvr|].
  split.
  - intros t c2 off2 Hta Htc Hto Hch2 Hoh2 Epy Evy.
    pose proof (animate_running t c2 off2 Hta Htc Hto) as Et. cbn zeta in Et.
    rewrite Et, Ep, Ev. cbn [anim withStore withAnim imgPosRef velocityRef].
    rewrite Hch2, Hoh2. by apply advance_axis_y.
  - intros t c2 off2 Hta Htc Hto Hcw2 How2 Epx Evx.
    pose proof (animate_running t c2 off2 Hta Htc Hto) as Et. cbn zeta in Et.
    rewrite Et, Ep, Ev. cbn [anim withStore withAnim imgPosRef velocityRef].
    rewrite Hcw2, How2. by apply advance_axis_x.
Qed.

(** The first frame of [animatingMute]: a sprite of 1 by 1 in the middle
    of a canvas of 2 by 2, moving left by 3 and up by 2.25 per frame.
    Both its left and its top edge would leave the canvas.  The frame ends
    with the sprite in the top left corner, both edges on their walls, and
    with both velocity components negated, now positive; the rotation has
    advanced by the angular velocity. *)
Lemma animate_bounce_witness :
  exists off,
    offscreenCanvasRef (anim animatingMute) = Some off /\
    cwidth off = 1%Z /\ cheight off = 1%Z /\
    posX (imgPosRef (anim animatingMute)) == 1 /\
    posY (imgPosRef (anim animatingMute)) == 1 /\
    vx (velocityRef (anim animatingMute)) == -3 /\
    vy (velocityRef (anim animatingMute)) == - (9 # 4) /\
    posX (imgPosRef (anim (@animate dotSurface animatingMute)))
      - inject_Z (cwidth off) / 2 == 0 /\
    vx (velocityRef (anim (@animate dotSurface animatingMute)))
      = - vx (velocityRef (anim animatingMute)) /\
    0 < vx (velocityRef (anim (@animate dotSurface animatingMute))) /\
    posY (imgPosRef (anim (@animate dotSurface animatingMute)))
      - inject_Z (cheight off) / 2 == 0 /\
    vy (velocityRef (anim (@animate dotSurface animatingMute)))
      = - vy (velocityRef (anim animatingMute)) /\
    0 < vy (velocityRef (anim (@animate dotSurface animatingMute))) /\
    rotation (imgPosRef (anim (@animate dotSurface animatingMute)))
      = rotation (imgPosRef (anim animatingMute))
        + vr (velocityRef (anim animatingMute)) /\
    vr (velocityRef (anim (@animate dotSurface animatingMute)))
      = vr (velocityRef (anim animatingMute)).
Proof.
  assert (0 < 2)%Z as H2 by lia.
  assert (animating (anim animatingMute) = true) as Ha by reflexivity.
  pose proof (@animate_bounce dotSurface 2 2 animatingMute H2 H2
                animatingMute_reachable Ha) as Hb.
  destruct Hb as (off & Ho & _ & _ & _ & _ & _ & _ & Hl & _ & _ & Ht & _ & _
                  & _ & _ & Hrot & Hvr & _).
  assert (off = MkCanvas 1 1 [0; 0; 0; 255]%Z) as Eoff.
  { vm_compute in Ho. by injection Ho as <-. }
  cbv zeta in Hl, Ht, Hrot, Hvr.
  destruct Hl as (Lx & Lv & _ & Ls); [rewrite Eoff; by vm_compute|].
  destruct Ht as (Ty & Tv & _ & Ts); [rewrite Eoff; by vm_compute|].
  exists off. split; [exact Ho|].
  split; [by rewrite Eoff|]. split; [by rewrite Eoff|].
  split; [by vm_compute|]. split; [by vm_compute|].
  split; [by vm_compute|]. split; [by vm_compute|].
  split; [exact Lx|]. split; [exact Lv|]. split; [exact Ls|].
  split; [exact Ty|]. split; [exact Tv|]. split; [exact Ts|].
  split; [exact Hrot|exact Hvr].
Defined.

(** The sprite and velocity that this frame leaves, computed. *)
Lemma animate_example :
  let a := anim (@animate dotSurface animatingMute) in
  animating a = true /\
  offscreenCanvasRef a = Some (MkCanvas 1 1 [0; 0; 0; 255]%Z) /\
  posX (imgPosRef a) == 1 # 2 /\ posY (imgPosRef a) == 1 # 2 /\
  rotation (imgPosRef a) == - (1 # 8) /\
  vx (velocityRef a) == 3 /\ vy (velocityRef a) == 9 # 4 /\
  vr (velocityRef a) == - (1 # 8).
Proof. vm_compute. by split_and!. Qed.

Local Close Scope Q_scope.

(** ** C5: the history bound *)

(** C5, what the code does, on 21 strokes that each blacken one more
    pixel of a 5 by 5 canvas.  The stack holds 20 snapshots, all different,
    and the index is 19, on the latest one.  [k] undos, for [k] from 1 to
    19, show the snapshots at positions [19 - k], down to position 0.  But
    no number of undos shows the latest snapshot, the canvas as it was
    before the last stroke: the first undo already steps below it.  Only 19
    of the 20 snapshots can be reached by undo. *)
Theorem undo_misses_latest_snapshot :
  @run dotSurface strokes21 (started 5 5 true noDraws) = Some after21 /\
  length (historyRef (store after21)) = 20%nat /\
  historyIndexRef (store after21) = 19 /\
  NoDup (historyRef (store after21)) /\
  (forall k, (1 <= k <= 19)%nat ->
     rasterOf <$> @run dotSurface (replicate k ClickUndo) after21
       = Some (historyRef (store after21) !! (19 - k)%nat)) /\
  (forall k,
     rasterOf <$> @run dotSurface (replicate k ClickUndo) after21
       <> Some (last (historyRef (store after21)))).
Proof.
  split; [apply after21_run|].
  split; [vm_compute; reflexivity|].
  split; [vm_compute; reflexivity|].
  split; [apply (bool_decide_unpack _); vm_compute; exact I|].
  split.
  - intros k Hk. rewrite after21_undo_clicks. f_equal. by apply after21_undo_reaches.
  - intros k. rewrite after21_undo_clicks. intros Heq.
    apply (after21_undo_misses k). congruence.
Qed.

(** ** C6: the range of the history index *)

(** C6, as the code has it.  In every reachable state the index lies
    between the sentinel [-1] and the last position of the stack:
    [-1 <= index < length]; and the stack holds at most 20 snapshots.  The
    value [-1] occurs with a non-empty stack: [undo] sets it when called at
    index 0 or below. *)
Theorem history_index_range `{DisplaySurface} w h s :
  reachable w h s ->
  -1 <= historyIndexRef (store s) < historyLength (store s) /\
  historyLength (store s) <= 20.
Proof. intros Hr. by destruct (reachable_inv w h s Hr) as (_ & Hi & Hl). Qed.

Lemma history_index_range_witness :
  -1 <= historyIndexRef (store (started 2 2 true noDraws))
     < historyLength (store (started 2 2 true noDraws)) /\
  historyLength (store (started 2 2 true noDraws)) <= 20.
Proof.
  apply (@history_index_range dotSurface 2 2 (started 2 2 true noDraws)).
  apply reachable_start.
Defined.

(** C6 as stated fails: after the setup, one [undo] leaves the stack with
    its one snapshot and the index at [-1], outside [0 <= index < length]. *)
Lemma history_index_nonneg_counterexample :
  ~ (forall w h s, @reachable dotSurface w h s ->
       historyRef (store s) <> [] ->
       0 <= historyIndexRef (store s) < historyLength (store s)).
Proof.
  intros Hclaim.
  assert (@reachable dotSurface 2 2
            (withStore (undo (store (started 2 2 true noDraws)))
               (started 2 2 true noDraws))) as Hr.
  { apply (@reachable_step dotSurface 2 2 (started 2 2 true noDraws) ClickUndo);
      [apply reachable_start|reflexivity]. }
  specialize (Hclaim 2 2 _ Hr). simpl in Hclaim.
  assert (-1 >= 0) as Habs; [|lia].
  destruct Hclaim as [Hge _]; [done|]. lia.
Qed.

(** ** C7: undo at the lower bound *)

(** C7. In every reachable state, of a component set up with a canvas of
    [w] by [h], the canvas is present and [undo] returns (it is a total
    function), leaving a canvas of the same size with a raster of
    [4 * w * h] bytes and the same stack, and:
    - if the index is at most 0, or the stack is empty (which in a
      reachable state means that the index is [-1]), the index is [-1]
      afterwards and every byte of the raster is 255 (white, opaque):
      the raster is the list of [4 * w * h] bytes 255; and any number of
      further calls leaves the store as the first call left it;
    - otherwise the index is one less afterwards, it is a position of the
      stack, and the raster the canvas shows is the snapshot that the
      stack holds at that position. *)
Theorem undo_lower_bound_and_restore `{DisplaySurface} w h s :
  reachable w h s ->
  exists canvas canvas',
    canvasRef (store s) = Some canvas /\
    canvasRef (undo (store s)) = Some canvas' /\
    cwidth canvas' = w /\ cheight canvas' = h /\
    length (pixels canvas') = Z.to_nat (4 * (w * h)) /\
    historyRef (undo (store s)) = historyRef (store s) /\
    (historyIndexRef (store s) <= 0 \/ historyRef (store s) = [] ->
       historyIndexRef (undo (store s)) = -1 /\
       pixels canvas' = replicate (Z.to_nat (4 * (w * h))) 255 /\
       forall n, Nat.iter (S n) undo (store s) = undo (store s)) /\
    (~ (historyIndexRef (store s) <= 0 \/ historyRef (store s) = []) ->
       historyIndexRef (undo (store s)) = historyIndexRef (store s) - 1 /\
       0 <= historyIndexRef (undo (store s))
         < Z.of_nat (length (historyRef (store s))) /\
       historyRef (store s) !! Z.to_nat (historyIndexRef (undo (store s)))
         = Some (pixels canvas')).
Proof.
  intros Hr. pose proof (reachable_inv w h s Hr) as (_ & Hi & Hl).
  destruct (reachable_rasters w h s Hr) as [(canvas & Hc & Hcw & Hch & Hcl) Hhist].
  unfold historyLength in Hi.
  destruct (decide (historyIndexRef (store s) <= 0)) as [Hle|Hgt].
  - pose proof (undo_low _ canvas Hc Hle) as Eu.
    assert (forall n, Nat.iter (S n) undo (store s) = undo (store s)) as Hn.
    { induction n as [|n IH]; [done|].
      change (Nat.iter (S (S n)) undo (store s))
        with (undo (Nat.iter (S n) undo (store s))).
      rewrite IH, Eu. by rewrite (undo_low _ (fillWhite canvas)). }
    exists canvas, (fillWhite canvas).
    split; [done|]. split; [by rewrite Eu|]. rewrite Eu.
    cbn [fillWhite cwidth cheight pixels historyRef historyIndexRef].
    rewrite Hcw, Hch. split_and!; try done.
    + apply length_whiteData.
    + intros _. split_and!; try done. intros n. by rewrite <- Eu.
    + intros Hhigh. exfalso. apply Hhigh. by left.
  - unfold historyLength in *.
    destruct (undo_high _ canvas Hc) as (img & Himg & Eu);
      [unfold historyLength; lia|].
    unfold arrayGet in Himg. rewrite decide_True in Himg by lia.
    exists canvas, (putImageData img canvas). rewrite Eu. cbn.
    split_and!; try done.
    + apply (Forall_lookup_1 _ _ _ _ Hhist Himg).
    + intros [Hlow|Hnil]; [lia|]. rewrite Hnil in Hi. simpl in Hi. lia.
    + intros _. split_and!; try done; lia.
Qed.

(** The theorem at two states.  In [redrawn] (canvas of 2 by 2) the index
    is 0 and the canvas shows a stroke: [undo] leaves sixteen bytes 255 and
    the index [-1], and a second [undo] changes nothing.  In [after21]
    (canvas of 5 by 5) the index is 19: [undo] leaves the index 18 and the
    canvas shows snapshot 18 of the stack, which is not what it showed
    before. *)
Lemma undo_lower_bound_and_restore_witness :
  (exists canvas canvas',
     canvasRef (store redrawn) = Some canvas /\
     canvasRef (undo (store redrawn)) = Some canvas' /\
     historyIndexRef (store redrawn) = 0 /\
     hasDrawing (store redrawn) = true /\
     historyIndexRef (undo (store redrawn)) = -1 /\
     pixels canvas' = replicate 16 255 /\
     historyRef (undo (store redrawn)) = historyRef (store redrawn) /\
     undo (undo (store redrawn)) = undo (store redrawn)) /\
  (exists canvas canvas',
     canvasRef (store after21) = Some canvas /\
     canvasRef (undo (store after21)) = Some canvas' /\
     historyIndexRef (store after21) = 19 /\
     historyIndexRef (undo (store after21)) = 18 /\
     historyRef (store after21) !! 18%nat = Some (pixels canvas') /\
     length (pixels canvas') = 100%nat /\
     pixels canvas' <> pixels canvas /\
     historyRef (undo (store after21)) = historyRef (store after21)).
Proof.
  split.
  - destruct (@undo_lower_bound_and_restore dotSurface 2 2 redrawn
                redrawn_reachable)
      as (canvas & canvas' & Hc & Hc' & _ & _ & _ & Hh & Hlow & _).
    destruct Hlow as (Hi & Hp & Hn); [left; by vm_compute|].
    exists canvas, canvas'.
    split_and!; try done; try (by vm_compute); try apply (Hn 1%nat).
  - pose proof (@undo_lower_bound_and_restore dotSurface 5 5 after21
                  after21_reachable) as Hundo.
    destruct Hundo
      as (canvas & canvas' & Hc & Hc' & _ & _ & Hl & Hh & _ & Hhigh).
    assert (~ (historyIndexRef (store after21) <= 0 \/
               historyRef (store after21) = [])) as Hnot.
    { intros [Hlow|Hnil].
      - vm_compute in Hlow. by apply Hlow.
      - vm_compute in Hnil. discriminate Hnil. }
    destruct (Hhigh Hnot) as (Hi & _ & Hp).
    assert (historyIndexRef (store after21) = 19) as E19
      by (vm_compute; reflexivity).
    rewrite E19 in Hi. rewrite Hi in Hp.
    exists canvas, canvas'.
    split; [exact Hc|]. split; [exact Hc'|]. split; [exact E19|].
    split; [exact Hi|]. split; [exact Hp|]. split; [exact Hl|].
    split; [|exact Hh].
    vm_compute in Hc, Hc'. injection Hc as <-. injection Hc' as <-.
    vm_compute. discriminate.
Defined.

(** What the two calls of the witness leave, computed. *)
Lemma undo_example :
  undo (store redrawn)
    = MkStore (Some (MkCanvas 2 2 (replicate 16 255))) [replicate 16 255] (-1) /\
  (pixels <$> canvasRef (store redrawn))
    = Some [255; 255; 255; 255;  0; 0; 0; 255;
            255; 255; 255; 255;  255; 255; 255; 255] /\
  (pixels <$> canvasRef (undo (store after21)))
    = historyRef (store after21) !! 18%nat /\
  historyIndexRef (undo (store after21)) = 18.
Proof. vm_compute. by split_and!. Qed.

(** ** C8: filling with the colour already there *)

(** C8. Whatever the canvas, the seed (inside the canvas or not) and the
    fuel, when the four channels read at the seed strictly equal the fill
    colour, [fillFlood] returns the canvas unchanged. *)
Theorem fillFlood_same_colour_noop fuel ctx x y fill :
  colorsMatch (getPixelColor (cwidth ctx) (pixels ctx) x y) fill = true ->
  fillFlood fuel ctx x y fill = Some ctx.
Proof. intros H. unfold fillFlood, fillFloodTrace. by rewrite H. Qed.

Lemma fillFlood_same_colour_noop_witness :
  fillFlood 0 wall3 2 1 white = Some wall3.
Proof. apply (fillFlood_same_colour_noop 0 wall3 2 1 white). reflexivity. Defined.

(** ** C9: re-rolling the velocity *)

Local Open Scope Q_scope.

(** C9, as the code has it.  With draws in [[0, 1)]:
    - when [window.speechSynthesis] exists, [speakRandom] speaks one of the
      8 phrases and replaces the velocity by the one [rolled] from the next
      four draws, the formula of [startAnimation], so [vx] and [vy] lie in
      [[-6, 6)] and [vr] has magnitude in [[0.05, 0.25)]; the position and
      the rotation, the sprite, the animating flag, the store and the pen
      are unchanged;
    - when it does not exist, the call returns the state unchanged: nothing
      is spoken and the velocity is not re-rolled either. *)
Theorem speakRandom_reroll s :
  (forall n, 0 <= random (env s) n < 1) ->
  (speechSynthesis (env s) = false -> speakRandom s = s) /\
  (speechSynthesis (env s) = true ->
     let n := drawn (env s) in
     let s' := speakRandom s in
     velocityRef (anim s')
       = rolled (random (env s) (n + 1)) (random (env s) (n + 2))
                (random (env s) (n + 3)) (random (env s) (n + 4)) /\
     (-6 <= vx (velocityRef (anim s')) < 6 /\
      -6 <= vy (velocityRef (anim s')) < 6 /\
      ((5 # 100) <= vr (velocityRef (anim s')) < (25 # 100) \/
       (5 # 100) <= - vr (velocityRef (anim s')) < (25 # 100))) /\
     imgPosRef (anim s') = imgPosRef (anim s) /\
     offscreenCanvasRef (anim s') = offscreenCanvasRef (anim s) /\
     animating (anim s') = animating (anim s) /\
     store s' = store s /\ pen s' = pen s /\
     (exists phrase, (0 <= phrase < 8)%Z /\ spoken (env s') = spoken (env s) ++ [phrase]) /\
     drawn (env s') = (n + 5)%nat).
Proof.
  intros Hr. unfold speakRandom. split.
  - by intros ->.
  - intros ->. cbn beta iota zeta delta [negb].
    cbn [anim env withEnv withAnim velocityRef imgPosRef offscreenCanvasRef
         animating store pen spoken drawn].
    split; [reflexivity|]. split; [apply rolled_range; apply Hr|].
    split_and!; try reflexivity.
    exists (Qfloor (random (env s) (drawn (env s)) * 8)). split; [|done].
    destruct (Hr (drawn (env s))) as [H0 H1].
    split.
    + change 0%Z with (Qfloor 0). apply Qfloor_resp_le. lra.
    + apply Z.lt_nge. intros Hge.
      assert (inject_Z 8 <= random (env s) (drawn (env s)) * 8) as Hle.
      { eapply Qle_trans; [|apply Qfloor_le]. rewrite <- Zle_Qle. exact Hge. }
      change (inject_Z 8) with 8 in Hle. lra.
Qed.

Lemma speakRandom_reroll_witness :
  (speechSynthesis (env (started 2 2 true noDraws)) = false ->
   speakRandom (started 2 2 true noDraws) = started 2 2 true noDraws) /\
  (speechSynthesis (env (started 2 2 true noDraws)) = true ->
     let n := drawn (env (started 2 2 true noDraws)) in
     let s' := speakRandom (started 2 2 true noDraws) in
     velocityRef (anim s')
       = rolled (random (env (started 2 2 true noDraws)) (n + 1))
                (random (env (started 2 2 true noDraws)) (n + 2))
                (random (env (started 2 2 true noDraws)) (n + 3))
                (random (env (started 2 2 true noDraws)) (n + 4)) /\
     (-6 <= vx (velocityRef (anim s')) < 6 /\
      -6 <= vy (velocityRef (anim s')) < 6 /\
      ((5 # 100) <= vr (velocityRef (anim s')) < (25 # 100) \/
       (5 # 100) <= - vr (velocityRef (anim s')) < (25 # 100))) /\
     imgPosRef (anim s') = imgPosRef (anim (started 2 2 true noDraws)) /\
     offscreenCanvasRef (anim s')
       = offscreenCanvasRef (anim (started 2 2 true noDraws)) /\
     animating (anim s') = animating (anim (started 2 2 true noDraws)) /\
     store s' = store (started 2 2 true noDraws) /\
     pen s' = pen (started 2 2 true noDraws) /\
     (exists phrase, (0 <= phrase < 8)%Z /\
        spoken (env s') = spoken (env (started 2 2 true noDraws)) ++ [phrase]) /\
     drawn (env s') = (n + 5)%nat).
Proof.
  apply (speakRandom_reroll (started 2 2 true noDraws)).
  intros n. split; vm_compute; [discriminate|reflexivity].
Defined.

(** C9 as stated fails: without speech synthesis a press on "more" changes
    nothing.  The sprite is animating with the velocity [startAnimation]
    rolled from draws 4 to 7; the press leaves the whole state as it is, so
    no draw is made and the velocity is not the one a re-roll from the next
    draws would give. *)
Lemma speakRandom_mute_counterexample :
  animating (anim animatingMute) = true /\
  @run dotSurface [ClickMore] animatingMute = Some animatingMute /\
  velocityRef (anim animatingMute) = rolled (ramp 4) (ramp 5) (ramp 6) (ramp 7) /\
  drawn (env animatingMute) = 8%nat /\
  ~ (vx (velocityRef (anim (speakRandom animatingMute)))
       == vx (rolled (ramp 9) (ramp 10) (ramp 11) (ramp 12))).
Proof. vm_compute. split_and!; try reflexivity. discriminate. Qed.

Local Close Scope Q_scope.

(** ** C10: the bucket fill terminates *)

(** C10. [fillFlood] terminates on every well-formed canvas, for every
    seed (inside the canvas or not) and every fill colour with byte
    channels: the fuel [fillFuel ctx], that is [4 * width * height + 2]
    iterations, is always enough, and more fuel gives the same result.  At
    the end the queue is empty, no pixel was recoloured twice, a recoloured
    pixel shows the fill colour and so no longer matches the target, every
    coordinate was pushed at most five times (once as the seed and once per
    4-neighbour), and at most [4 * width * height + 1] coordinates were
    pushed in all. *)
Theorem fillFlood_terminates ctx x y fill :
  wfCanvas ctx -> validColor fill ->
  exists ctx' st,
    (forall fuel, (fillFuel ctx <= fuel)%nat ->
                  fillFloodTrace fuel ctx x y fill = Some (ctx', st)) /\
    queue st = [] /\
    NoDup (painted st) /\
    (forall p, p ∈ painted st ->
               pixelAt (cwidth ctx) (pixels ctx') p = fill /\
               colorsMatch (pixelAt (cwidth ctx) (pixels ctx') p)
                 (getPixelColor (cwidth ctx) (pixels ctx) x y) = false) /\
    (forall p, (occurrences p (pushed st) <= 5)%nat) /\
    (length (pushed st) <= 4 * Z.to_nat (cwidth ctx * cheight ctx) + 1)%nat.
Proof.
  intros Hwf Hfill.
  destruct (colorsMatch (getPixelColor (cwidth ctx) (pixels ctx) x y) fill) eqn:Hdiff.
  - exists ctx, (FillState [] (pixels ctx) [] []).
    split_and!; simpl; try done.
    + intros fuel _. unfold fillFloodTrace. by rewrite Hdiff.
    + constructor.
    + by intros p ?%elem_of_nil.
    + intros p. unfold occurrences. simpl. lia.
    + lia.
  - destruct (fillLoop_runs ctx x y fill (fillFuel ctx) Hwf Hfill Hdiff (le_n _))
      as (st & Hrun & HB & Hq).
    exists (MkCanvas (cwidth ctx) (cheight ctx) (data st)), st.
    pose proof Hwf as (Hw & Hh & Hlen).
    split_and!; cbn [pixels]; try done.
    + intros fuel Hfuel. unfold fillFloodTrace. rewrite Hdiff.
      by rewrite (fillLoop_more_fuel _ _ _ _ _ _ _ _ Hrun Hfuel).
    + apply (bi_nodup _ _ _ _ _ _ HB).
    + intros p Hp. destruct (bi_painted _ _ _ _ _ _ HB p Hp) as [_ Hc].
      split; [done|]. rewrite Hc.
      destruct (colorsMatch fill _) eqn:E; [|done].
      apply colorsMatch_true in E. rewrite <- E in Hdiff.
      exfalso. eapply target_ne_fill; [exact Hfill|exact Hdiff|done].
    + intros p. rewrite (bi_pushed _ _ _ _ _ _ HB), occurrences_app.
      pose proof (occurrences_pushed_bound p (painted st) (bi_nodup _ _ _ _ _ _ HB)).
      assert (occurrences p [(x, y)] <= 1)%nat
        by (unfold occurrences; rewrite filter_cons, filter_nil;
            case_decide; simpl; lia).
      lia.
    + rewrite (bi_pushed _ _ _ _ _ _ HB), length_app. simpl.
      pose proof (painted_bound _ _ _ _ _ Hw Hlen st HB) as Hb.
      assert (forall l : list (Z * Z),
                 length (flat_map neighbours l) = (4 * length l)%nat) as Hfm.
      { induction l as [|a l IH]; [done|].
        simpl flat_map. rewrite length_app, length_neighbours, IH. simpl. lia. }
      rewrite Hfm. lia.
Qed.

Lemma fillFlood_terminates_witness :
  exists ctx' st,
    (forall fuel, (fillFuel wall3 <= fuel)%nat ->
                  fillFloodTrace fuel wall3 0 0 red = Some (ctx', st)) /\
    queue st = [] /\
    NoDup (painted st) /\
    (forall p, p ∈ painted st ->
               pixelAt (cwidth wall3) (pixels ctx') p = red /\
               colorsMatch (pixelAt (cwidth wall3) (pixels ctx') p)
                 (getPixelColor (cwidth wall3) (pixels wall3) 0 0) = false) /\
    (forall p, (occurrences p (pushed st) <= 5)%nat) /\
    (length (pushed st) <= 4 * Z.to_nat (cwidth wall3 * cheight wall3) + 1)%nat.
Proof.
  apply (fillFlood_terminates wall3 0 0 red).
  - apply wall3_wf.
  - apply red_valid.
Defined.

(* ===================================================================== *)
(** * Further properties                                                   *)
(* ===================================================================== *)

(** ** The colour parser *)

(** X1. [hexToRgba] always returns alpha 255; a string whose length is not
    7 (the initial ['black'], a short ['#fff'], a colour name) gives opaque
    black; and a string of 7 characters whose last six are hexadecimal
    digits, in either case, gives the three bytes they spell, two digits
    per channel.  The first character is not looked at. *)
Theorem hexToRgba_channels hex :
  (hexToRgba hex).2 = Num 255 /\
  (String.length hex <> 7%nat -> hexToRgba hex = rgbOf 0 0 0 255) /\
  (forall c0 a b c d e f da db dc dd de df,
     hex = String c0 (String a (String b (String c (String d (String e
             (String f EmptyString)))))) ->
     hexDigit a = Some da -> hexDigit b = Some db -> hexDigit c = Some dc ->
     hexDigit d = Some dd -> hexDigit e = Some de -> hexDigit f = Some df ->
     hexToRgba hex = rgbOf (da * 16 + db) (dc * 16 + dd) (de * 16 + df) 255 /\
     validColor (hexToRgba hex)).
Proof.
  split_and!.
  - unfold hexToRgba. by destruct (Nat.eqb _ 7).
  - intros Hlen. unfold hexToRgba.
    destruct (Nat.eqb_spec (String.length hex) 7); done.
  - intros c0 a b c d e f da db dc dd de df -> Ha Hb Hc Hd He Hf.
    assert (hexToRgba (String c0 (String a (String b (String c (String d (String e
             (String f EmptyString)))))))
            = rgbOf (da * 16 + db) (dc * 16 + dd) (de * 16 + df) 255) as E.
    { unfold hexToRgba. cbn [String.length Nat.eqb substring].
      by rewrite (parseInt16_two_digits a b da db Ha Hb),
        (parseInt16_two_digits c d dc dd Hc Hd),
        (parseInt16_two_digits e f de df He Hf). }
    split; [done|]. rewrite E.
    apply hexDigit_range in Ha, Hb, Hc, Hd, He, Hf.
    unfold validColor, rgbOf. simpl. lia.
Qed.

(** Upper and lower case digits, wrong lengths, and a first character that
    is not [#]. *)
Lemma hexToRgba_examples :
  hexToRgba "#1aF09c" = rgbOf 26 240 156 255 /\
  hexToRgba "#FFAA00" = hexToRgba "#ffaa00" /\
  hexToRgba "black" = rgbOf 0 0 0 255 /\
  hexToRgba "#fff" = rgbOf 0 0 0 255 /\
  hexToRgba "x00ff00" = rgbOf 0 255 0 255.
Proof. vm_compute. done. Qed.

(** ** [hexToRgba] on arbitrary strings *)

(** The digits read are at most as many as the string is long. *)
Lemma hexPrefix_bound s : forall acc n,
  0 <= default 0 acc -> hexPrefix acc s = Some n ->
  0 <= n < (default 0 acc + 1) * 16 ^ Z.of_nat (String.length s).
Proof.
  induction s as [|c r IH]; intros acc n Hacc; simpl hexPrefix.
  - intros ->. simpl in *. lia.
  - assert (1 <= 16 ^ Z.of_nat (String.length r)) as Hpow
      by (apply (Z.pow_le_mono_r 16 0); lia).
    assert (16 ^ Z.of_nat (String.length (String c r))
            = 16 * 16 ^ Z.of_nat (String.length r)) as ->.
    { cbn [String.length]. rewrite Nat2Z.inj_succ, Z.pow_succ_r by lia. done. }
    destruct (hexDigit c) as [d|] eqn:Ed.
    + apply hexDigit_range in Ed. intros Hn.
      apply IH in Hn; simpl in *; nia.
    + intros ->. simpl in *. nia.
Qed.

Lemma length_trimStart s : (String.length (trimStart s) <= String.length s)%nat.
Proof.
  induction s as [|c r IH]; simpl; [done|]. destruct (isSpace c); simpl; lia.
Qed.

Lemma length_substring n m s : (String.length (substring n m s) <= m)%nat.
Proof.
  revert n m. induction s as [|c r IH]; intros [|n] [|m]; simpl; try lia.
  - specialize (IH 0%nat m). lia.
  - apply IH.
  - apply IH.
Qed.

(** [parseInt(s, 16)] of at most two characters: with a sign only one
    digit is left. *)
Lemma parseInt16_range s :
  (String.length s <= 2)%nat -> channelVal (parseInt16 s).
Proof.
  intros Hlen. unfold parseInt16.
  pose proof (length_trimStart s) as Hs1. set (s1 := trimStart s) in *.
  assert (exists sign s2,
            (match s1 with
             | String c r =>
                 if Ascii.eqb c "-" then (-1, r)
                 else if Ascii.eqb c "+" then (1, r) else (1, s1)
             | EmptyString => (1, s1)
             end) = (sign, s2) /\
            ((sign = 1 /\ (String.length s2 <= 2)%nat) \/
             (sign = -1 /\ (String.length s2 <= 1)%nat))) as (sign & s2 & -> & Hs2).
  { destruct s1 as [|c r]; [eexists _, _; split; [done|left; simpl; lia]|].
    simpl in Hs1.
    destruct (Ascii.eqb c "-"); [eexists _, _; split; [done|right; lia]|].
    destruct (Ascii.eqb c "+"); eexists _, _; (split; [done|left; simpl; lia]). }
  set (s3 := match s2 with
             | String c (String d r) =>
                 if Ascii.eqb c "0" && (Ascii.eqb d "x" || Ascii.eqb d "X") then r else s2
             | _ => s2
             end).
  assert (String.length s3 <= String.length s2)%nat as Hs3.
  { unfold s3. destruct s2 as [|c [|d r]]; try done.
    destruct (_ && _); simpl; lia. }
  destruct (hexPrefix None s3) as [n|] eqn:En; [|done].
  apply hexPrefix_bound in En; [|done]. simpl in En. simpl.
  destruct Hs2 as [[-> Hl]|[-> Hl]].
  - assert (16 ^ Z.of_nat (String.length s3) <= 16 ^ 2)
      by (apply Z.pow_le_mono_r; lia). lia.
  - assert (16 ^ Z.of_nat (String.length s3) <= 16 ^ 1)
      by (apply Z.pow_le_mono_r; lia). lia.
Qed.

(** X2. On any string (of 8-bit characters, as strings are here; only the
    ASCII white space is known to [parseInt16]), each of the three colour
    channels that [hexToRgba] returns is [NaN] or an integer between [-15]
    and [255], never [undefined], and alpha is 255; so what a typed array
    stores of it is always made of bytes.  (Negative values and [NaN] do
    occur: ['#-f0000'], ['#zz0000'].) *)
Theorem hexToRgba_range hex :
  channelVal (hexToRgba hex).1.1.1 /\ channelVal (hexToRgba hex).1.1.2 /\
  channelVal (hexToRgba hex).1.2 /\ (hexToRgba hex).2 = Num 255 /\
  validColor (stored (hexToRgba hex)).
Proof.
  unfold hexToRgba. destruct (Nat.eqb _ 7).
  - cbn [fst snd].
    pose proof (parseInt16_range (substring 1 2 hex) (length_substring _ _ _)).
    pose proof (parseInt16_range (substring 3 2 hex) (length_substring _ _ _)).
    pose proof (parseInt16_range (substring 5 2 hex) (length_substring _ _ _)).
    split_and!; try done. unfold validColor, stored. cbn [fst snd byteVal clamp8].
    split_and!; try lia;
      match goal with |- context [clamp8 ?v] =>
        destruct v; cbn [channelVal clamp8] in *; try done; lia end.
  - unfold validColor, stored. simpl. split_and!; try done; lia.
Qed.

(** Seven characters that are not [#rrggbb]: a sign, no digit at all,
    leading white space, a bare [0x]. *)
Lemma hexToRgba_range_examples :
  hexToRgba "#-f0000" = rgbOf (-15) 0 0 255 /\
  hexToRgba "#zz0000" = (NaN, Num 0, Num 0, Num 255) /\
  hexToRgba "#ffffff" = rgbOf 255 255 255 255 /\
  hexToRgba "# 1+2 3" = rgbOf 1 2 3 255 /\
  hexToRgba "#0x0X-0" = (NaN, NaN, Num 0, Num 255).
Proof. vm_compute. done. Qed.

(** ** Pointer positions *)

Local Open Scope Q_scope.

(** One coordinate: an offset inside [[0, r)] scaled by [n / r] lies in
    [[0, n)]. *)
Lemma scaled_inside (c l r : Q) (n : Z) :
  0 < r -> (0 < n)%Z -> l <= c < l + r ->
  0 <= (c - l) * (inject_Z n / r) < inject_Z n.
Proof.
  intros Hr Hn [Hl Hc].
  assert (0 < inject_Z n) as Hn' by (change 0 with (inject_Z 0); by rewrite <- Zlt_Qlt).
  assert ((c - l) * (inject_Z n / r) == (c - l) / r * inject_Z n) as ->
    by (field; lra).
  assert (0 <= (c - l) / r) as H0.
  { apply Qle_shift_div_l; [done|]. lra. }
  assert ((c - l) / r < 1) as H1.
  { apply Qlt_shift_div_r; [done|]. lra. }
  split.
  - apply Qmult_le_0_compat; [done|lra].
  - apply Qlt_le_trans with (1 * inject_Z n); [by apply Qmult_lt_compat_r|].
    rewrite Qmult_1_l. apply Qle_refl.
Qed.

(** [Math.floor] of a position in [[0, n)] is an index below [n]. *)
Lemma Qfloor_inside (x : Q) (n : Z) :
  0 <= x < inject_Z n -> (0 <= Qfloor x < n)%Z.
Proof.
  intros [H0 Hn]. split.
  - change 0%Z with (Qfloor 0). by apply Qfloor_resp_le.
  - apply Z.lt_nge. intros Hge.
    apply (Qlt_not_le _ _ Hn). eapply Qle_trans; [|apply Qfloor_le].
    by rewrite <- Zle_Qle.
Qed.

(** X3. [getCanvasRelativePosition]: for an element rendered with positive
    width and height, a pointer inside the element's rectangle maps to a
    position inside the canvas, whose floor is a pixel of the canvas; and
    when the element is shown at the canvas's own size the position is the
    offset from the rectangle's corner. *)
Theorem pointer_inside_canvas e canvas :
  0 < rectWidth e -> 0 < rectHeight e ->
  (0 < cwidth canvas)%Z -> (0 < cheight canvas)%Z ->
  rectLeft e <= clientX e < rectLeft e + rectWidth e ->
  rectTop e <= clientY e < rectTop e + rectHeight e ->
  let p := getCanvasRelativePosition e canvas in
  0 <= p.1 < inject_Z (cwidth canvas) /\
  0 <= p.2 < inject_Z (cheight canvas) /\
  inBounds (cwidth canvas) (cheight canvas) (Qfloor p.1, Qfloor p.2) /\
  (rectWidth e == inject_Z (cwidth canvas) -> p.1 == clientX e - rectLeft e) /\
  (rectHeight e == inject_Z (cheight canvas) -> p.2 == clientY e - rectTop e).
Proof.
  intros Hrw Hrh Hw Hh Hx Hy p. unfold p, getCanvasRelativePosition. cbn [fst snd].
  pose proof (scaled_inside _ _ _ _ Hrw Hw Hx) as Hx'.
  pose proof (scaled_inside _ _ _ _ Hrh Hh Hy) as Hy'.
  split; [done|]. split; [done|]. split; [|split].
  - split; cbn [fst snd]; by apply Qfloor_inside.
  - intros <-. field. lra.
  - intros <-. field. lra.
Qed.

Lemma pointer_inside_canvas_witness :
  let e := MkPointerEvent 130 75 100 50 300 200 in
  let p := getCanvasRelativePosition e (MkCanvas 600 400 []) in
  0 <= p.1 < inject_Z 600 /\
  0 <= p.2 < inject_Z 400 /\
  inBounds 600 400 (Qfloor p.1, Qfloor p.2) /\
  (rectWidth e == inject_Z 600 -> p.1 == clientX e - rectLeft e) /\
  (rectHeight e == inject_Z 400 -> p.2 == clientY e - rectTop e).
Proof.
  apply (pointer_inside_canvas (MkPointerEvent 130 75 100 50 300 200)
           (MkCanvas 600 400 []));
    simpl; try lia; try (split; [discriminate|reflexivity]); reflexivity.
Defined.

(** An element shown at half the canvas's size doubles the offsets. *)
Lemma pointer_scaling_example :
  getCanvasRelativePosition (MkPointerEvent 130 75 100 50 300 200) (MkCanvas 600 400 [])
    = ((130 - 100) * (inject_Z 600 / 300), (75 - 50) * (inject_Z 400 / 200)) /\
  (130 - 100) * (inject_Z 600 / 300) == 60 /\
  (75 - 50) * (inject_Z 400 / 200) == 50.
Proof. split; [reflexivity|]. split; reflexivity. Qed.

Local Close Scope Q_scope.

(** ** More on the bucket fill *)

(** A seed outside the canvas: one iteration drops it, the next finds the
    queue empty. *)
Lemma fillLoop_outside fuel w h t f d p :
  outOfBounds w h p = true ->
  fillLoop (S (S fuel)) w h t f (FillState [p] d [] [p])
    = Some (FillState [] d [] [p]).
Proof.
  intros Hout. cbn [fillLoop].
  rewrite (fillStep_cons _ _ _ _ (FillState [p] d [] [p]) p [] eq_refl), Hout.
  by rewrite fillStep_nil.
Qed.

(** For a seed inside the canvas the loop drains with the region invariant
    in force. *)
Lemma fillLoop_connected ctx x y fill :
  wfCanvas ctx -> validColor fill ->
  inBounds (cwidth ctx) (cheight ctx) (x, y) ->
  colorsMatch (getPixelColor (cwidth ctx) (pixels ctx) x y) fill = false ->
  exists st,
    fillLoop (fillFuel ctx) (cwidth ctx) (cheight ctx)
      (getPixelColor (cwidth ctx) (pixels ctx) x y) fill
      (FillState [(x, y)] (pixels ctx) [] [(x, y)]) = Some st /\
    connInv (cwidth ctx) (cheight ctx) (pixels ctx) fill (x, y) st /\
    queue st = [].
Proof.
  intros Hwf Hfill Hseed Hdiff. pose proof Hwf as (Hw & Hh & Hlen).
  destruct (fillLoop_runs ctx x y fill (fillFuel ctx) Hwf Hfill Hdiff (le_n _))
    as (st & Hrun & _ & _).
  exists st. split; [done|].
  eapply (fillLoop_rule _ _ _ fill
            (connInv (cwidth ctx) (cheight ctx) (pixels ctx) fill (x, y)));
    [|apply connInv_init; done|exact Hrun].
  intros s s'. by apply connInv_step.
Qed.

(** X4. [fillFlood] with a seed outside the canvas changes nothing,
    whatever the fill colour and whatever colour the out-of-range read
    returned as target: the seed is dequeued and dropped, no pixel is
    recoloured, and the canvas is put back as it was. *)
Theorem fillFlood_seed_outside fuel ctx x y fill :
  ~ inBounds (cwidth ctx) (cheight ctx) (x, y) -> (2 <= fuel)%nat ->
  fillFlood fuel ctx x y fill = Some ctx /\
  exists st, fillFloodTrace fuel ctx x y fill = Some (ctx, st) /\
             painted st = [] /\ data st = pixels ctx.
Proof.
  intros Hout%outOfBounds_true Hfuel. unfold fillFlood, fillFloodTrace.
  destruct (colorsMatch _ fill); [split; [done|by eexists]|].
  destruct fuel as [|[|fuel]]; try lia.
  rewrite fillLoop_outside by done. simpl. destruct ctx; simpl.
  split; [done|by eexists].
Qed.

Lemma fillFlood_seed_outside_witness :
  fillFlood 2 wall3 3 0 red = Some wall3 /\
  exists st, fillFloodTrace 2 wall3 3 0 red = Some (wall3, st) /\
             painted st = [] /\ data st = pixels wall3.
Proof.
  apply fillFlood_seed_outside; [|lia].
  unfold inBounds. simpl. lia.
Defined.

(** X5. [fillFlood] is idempotent: on a well-formed canvas and for a fill
    colour with byte channels, filling again from the same seed with the
    same colour returns the canvas of the first fill unchanged, for every
    seed, inside the canvas or not. *)
Theorem fillFlood_idempotent ctx x y fill :
  wfCanvas ctx -> validColor fill ->
  exists ctx',
    fillFlood (fillFuel ctx) ctx x y fill = Some ctx' /\
    forall fuel, (2 <= fuel)%nat -> fillFlood fuel ctx' x y fill = Some ctx'.
Proof.
  intros Hwf Hfill. pose proof Hwf as (Hw & Hh & Hlen).
  assert (2 <= fillFuel ctx)%nat as H2 by (unfold fillFuel; lia).
  destruct (outOfBounds (cwidth ctx) (cheight ctx) (x, y)) eqn:Eo.
  { exists ctx. unfold fillFlood, fillFloodTrace.
    destruct (colorsMatch _ fill); [done|].
    split.
    - destruct (fillFuel ctx) as [|[|fuel]]; try lia.
      rewrite fillLoop_outside by done. simpl. by destruct ctx.
    - intros [|[|fuel]] ?; try lia.
      rewrite fillLoop_outside by done. simpl. by destruct ctx. }
  apply outOfBounds_false in Eo.
  destruct (colorsMatch (getPixelColor (cwidth ctx) (pixels ctx) x y) fill) eqn:Hdiff.
  { exists ctx. unfold fillFlood, fillFloodTrace. by rewrite Hdiff. }
  destruct (fillLoop_connected ctx x y fill Hwf Hfill Eo Hdiff) as (st & Hrun & HI & Hq).
  exists (MkCanvas (cwidth ctx) (cheight ctx) (data st)).
  split; [unfold fillFlood, fillFloodTrace; by rewrite Hdiff, Hrun|].
  intros fuel _. unfold fillFlood, fillFloodTrace. cbn [cwidth cheight pixels].
  assert ((x, y) ∈ painted st) as Hin.
  { destruct (ci_seed _ _ _ _ _ _ HI) as [|Hin]; [done|].
    rewrite Hq in Hin. by apply elem_of_nil in Hin. }
  destruct (bi_painted _ _ _ _ _ _ (ci_basic _ _ _ _ _ _ HI) _ Hin) as [_ Hc].
  change (getPixelColor (cwidth ctx) (data st) x y)
    with (pixelAt (cwidth ctx) (data st) (x, y)).
  by rewrite (proj2 (colorsMatch_pixel_iff _ _ _ _) Hc).
Qed.

Lemma fillFlood_idempotent_witness :
  exists ctx',
    fillFlood (fillFuel wall3) wall3 0 0 red = Some ctx' /\
    forall fuel, (2 <= fuel)%nat -> fillFlood fuel ctx' 0 0 red = Some ctx'.
Proof. apply fillFlood_idempotent; [apply wall3_wf|apply red_valid]. Defined.

(** A canvas of one colour is one region. *)
Lemma connected_uniform w h d seed :
  inBounds w h seed -> uniform w h d (pixelAt w d seed) ->
  forall p, inBounds w h p -> connected w h d seed p.
Proof.
  intros Hs Hu.
  assert (forall (k : nat) p, inBounds w h p ->
            Z.abs (p.1 - seed.1) + Z.abs (p.2 - seed.2) = Z.of_nat k ->
            connected w h d seed p) as Hk.
  { induction k as [|k IH]; intros [px py] Hp Hd; simpl in *.
    - assert ((px, py) = seed) as -> by (destruct seed; simpl in *; f_equal; lia).
      by constructor.
    - destruct Hp as [Hpx Hpy], Hs as [Hsx Hsy]. simpl in *.
      destruct (decide (px = seed.1)) as [Ex|Nx].
      + (* move along the column *)
        set (q := (px, if decide (py < seed.2) then py + 1 else py - 1)).
        apply (connected_step w h d seed q).
        * apply IH; unfold q, inBounds; simpl; case_decide; lia.
        * unfold adjacent, q, neighbours. rewrite !elem_of_cons.
          case_decide; [do 2 right; left|do 3 right; left]; f_equal; lia.
        * split; simpl; lia.
        * apply Hu. split; simpl; lia.
      + set (q := (if decide (px < seed.1) then px + 1 else px - 1, py)).
        apply (connected_step w h d seed q).
        * apply IH; unfold q, inBounds; simpl; case_decide; lia.
        * unfold adjacent, q, neighbours. rewrite !elem_of_cons.
          case_decide; [left|right; left]; f_equal; lia.
        * split; simpl; lia.
        * apply Hu. split; simpl; lia. }
  intros p Hp.
  apply (Hk (Z.to_nat (Z.abs (p.1 - seed.1) + Z.abs (p.2 - seed.2))) p Hp). lia.
Qed.

(** After the fill every pixel of the seed's region shows the fill
    colour, also when the fill returns early. *)
Lemma fillFlood_covers ctx x y fill :
  wfCanvas ctx -> validColor fill ->
  inBounds (cwidth ctx) (cheight ctx) (x, y) ->
  exists ctx',
    fillFlood (fillFuel ctx) ctx x y fill = Some ctx' /\
    cwidth ctx' = cwidth ctx /\ cheight ctx' = cheight ctx /\
    forall p, connected (cwidth ctx) (cheight ctx) (pixels ctx) (x, y) p ->
              pixelAt (cwidth ctx) (pixels ctx') p = fill.
Proof.
  intros Hwf Hfill Hseed. pose proof Hwf as (Hw & Hh & Hlen).
  destruct (colorsMatch (getPixelColor (cwidth ctx) (pixels ctx) x y) fill) eqn:Hdiff.
  { exists ctx. unfold fillFlood, fillFloodTrace. rewrite Hdiff.
    split_and!; try done.
    apply (colorsMatch_pixel_iff _ _ (x, y)) in Hdiff.
    intros p Hp. rewrite <- Hdiff. by destruct Hp. }
  destruct (fillLoop_connected ctx x y fill Hwf Hfill Hseed Hdiff) as (st & Hrun & HI & Hq).
  exists (MkCanvas (cwidth ctx) (cheight ctx) (data st)).
  split; [unfold fillFlood, fillFloodTrace; by rewrite Hdiff, Hrun|].
  split_and!; try done. intros p Hp. cbn [pixels].
  apply (bi_painted _ _ _ _ _ _ (ci_basic _ _ _ _ _ _ HI)).
  by apply (connInv_complete _ _ _ _ _ st p HI Hq).
Qed.

(** X6. On a canvas of a single colour (such as the blank one), [fillFlood]
    from any seed inside it recolours the whole canvas: every pixel ends
    with the fill colour. *)
Theorem fillFlood_uniform ctx x y fill :
  wfCanvas ctx -> validColor fill ->
  inBounds (cwidth ctx) (cheight ctx) (x, y) ->
  uniform (cwidth ctx) (cheight ctx) (pixels ctx)
    (pixelAt (cwidth ctx) (pixels ctx) (x, y)) ->
  exists ctx',
    fillFlood (fillFuel ctx) ctx x y fill = Some ctx' /\
    cwidth ctx' = cwidth ctx /\ cheight ctx' = cheight ctx /\
    uniform (cwidth ctx) (cheight ctx) (pixels ctx') fill.
Proof.
  intros Hwf Hfill Hseed Hu.
  destruct (fillFlood_covers ctx x y fill Hwf Hfill Hseed) as (ctx' & Hrun & ? & ? & Hc).
  exists ctx'. split_and!; try done.
  intros p Hp. apply Hc. by apply connected_uniform.
Qed.

Lemma fillFlood_uniform_witness :
  exists ctx',
    fillFlood (fillFuel (MkCanvas 2 2 (whiteData 2 2))) (MkCanvas 2 2 (whiteData 2 2))
      0 0 red = Some ctx' /\
    cwidth ctx' = 2 /\ cheight ctx' = 2 /\
    uniform 2 2 (pixels ctx') red.
Proof.
  apply (fillFlood_uniform (MkCanvas 2 2 (whiteData 2 2)) 0 0 red).
  - unfold wfCanvas. simpl. lia.
  - apply red_valid.
  - unfold inBounds. simpl. lia.
  - intros [px py] [Hx Hy]. simpl in *.
    assert (px = 0 \/ px = 1) as [-> | ->] by lia;
      (assert (py = 0 \/ py = 1) as [-> | ->] by lia); reflexivity.
Defined.

(** ** A fill colour that is not made of bytes *)

(** Storing a colour over a pixel that already reads as its stored form
    changes no byte. *)
Lemma paintPixel_same w h d p f :
  inBounds w h p -> Z.of_nat (length d) = 4 * (w * h) ->
  pixelAt w d p = stored f -> paintPixel d (pixelIndex w p) f = d.
Proof.
  intros Hp Hlen Hpx. pose proof (pixelIndex_range w h p Hp) as [H0 H3].
  unfold pixelAt, getPixelColor in Hpx. fold (pixelIndex w p) in Hpx.
  unfold stored in Hpx. destruct f as [[[f0 f1] f2] f3]. simpl in Hpx.
  assert (forall i v, 0 <= i -> data_get d i = Num (clamp8 v) -> data_set d i v = d) as Hset.
  { intros i v Hi. unfold data_get, data_set. rewrite !decide_True by done.
    destruct (d !! Z.to_nat i) eqn:E; [|done]. intros [= ->].
    by apply list_insert_id. }
  injection Hpx as E0 E1 E2 E3. unfold paintPixel.
  rewrite (Hset _ f0) by (done || lia).
  rewrite (Hset _ f1) by (done || lia).
  rewrite (Hset _ f2) by (done || lia).
  by rewrite (Hset _ f3) by (done || lia).
Qed.

Section Spin.
Variables (w h : Z) (d : list Z) (t f : rgba).
Hypothesis Hlen : Z.of_nat (length d) = 4 * (w * h).
Hypothesis Hstored : stored f = t.

(** A pixel of the target colour with a neighbour of the target colour. *)
Let live (q : Z * Z) : Prop :=
  inBounds w h q /\ pixelAt w d q = t /\
  exists n, adjacent q n /\ inBounds w h n /\ pixelAt w d n = t.

(** As long as the raster is the original one and the queue holds such a
    pixel, an iteration keeps both: the loop runs out of any fuel. *)
Lemma fillLoop_spins fuel : forall st,
  data st = d -> (exists q, q ∈ queue st /\ live q) ->
  fillLoop fuel w h t f st = None.
Proof.
  induction fuel as [|fuel IH]; intros st Hd (q & Hq & Hb & Hc & n & Hadj & Hnb & Hnc);
    [done|].
  destruct (queue st) as [|p rest] eqn:Eq; [by apply elem_of_nil in Hq|].
  cbn [fillLoop]. rewrite (fillStep_cons _ _ _ _ _ _ _ Eq).
  apply elem_of_cons in Hq.
  destruct (outOfBounds w h p) eqn:Eo.
  { apply IH; [done|]. apply outOfBounds_true in Eo.
    destruct Hq as [->|Hq]; [done|]. exists q. split; [done|]. split_and!; eauto. }
  apply outOfBounds_false in Eo. rewrite Hd.
  destruct (colorsMatch (pixelAt w d p) t) eqn:Em.
  - apply colorsMatch_pixel_iff in Em.
    apply IH.
    + cbn [paintAt data]. rewrite Hd. apply (paintPixel_same w h); [done..|congruence].
    + cbn [paintAt queue]. destruct Hq as [->|Hq].
      * exists n. split; [apply elem_of_app; by right|].
        split_and!; try done. exists p. split_and!; try done. by apply adjacent_sym.
      * exists q. split; [apply elem_of_app; by left|]. split_and!; eauto.
  - apply IH; [done|]. destruct Hq as [->|Hq].
    + apply (proj2 (colorsMatch_pixel_iff _ _ _ _)) in Hc. congruence.
    + exists q. split; [done|]. split_and!; eauto.
Qed.
End Spin.

(** X7. The byte-channel assumption on the fill colour cannot be dropped:
    if the fill colour is not what the seed shows but is stored as what the
    seed shows (a channel below 0, above 255 or [NaN], which the typed
    array clamps), and the seed has a neighbour of its own colour, the loop
    of [fillFlood] never exits: no amount of fuel gives a result. *)
Theorem fillFlood_diverges ctx x y n fill :
  wfCanvas ctx ->
  inBounds (cwidth ctx) (cheight ctx) (x, y) ->
  adjacent (x, y) n -> inBounds (cwidth ctx) (cheight ctx) n ->
  pixelAt (cwidth ctx) (pixels ctx) n = pixelAt (cwidth ctx) (pixels ctx) (x, y) ->
  stored fill = pixelAt (cwidth ctx) (pixels ctx) (x, y) ->
  pixelAt (cwidth ctx) (pixels ctx) (x, y) <> fill ->
  ~ exists fuel ctx', fillFlood fuel ctx x y fill = Some ctx'.
Proof.
  intros (Hw & Hh & Hlen) Hseed Hadj Hn Hnc Hst Hne (fuel & ctx' & Hrun).
  unfold fillFlood, fillFloodTrace in Hrun.
  change (getPixelColor (cwidth ctx) (pixels ctx) x y)
    with (pixelAt (cwidth ctx) (pixels ctx) (x, y)) in Hrun.
  rewrite (colorsMatch_false_ne _ _ _ _ Hne) in Hrun.
  rewrite (fillLoop_spins (cwidth ctx) (cheight ctx) (pixels ctx) _ fill Hlen Hst)
    in Hrun; try done.
  exists (x, y). split; [by apply list_elem_of_singleton|].
  split_and!; try done. by exists n.
Qed.

Lemma fillFlood_diverges_witness :
  ~ exists fuel ctx', fillFlood fuel black2 0 0 (hexToRgba "#-f0000") = Some ctx'.
Proof.
  apply (fillFlood_diverges black2 0 0 (1, 0)).
  - unfold wfCanvas. simpl. lia.
  - unfold inBounds. simpl. lia.
  - unfold adjacent, neighbours. rewrite !elem_of_cons. right; left. reflexivity.
  - unfold inBounds. simpl. lia.
  - reflexivity.
  - reflexivity.
  - discriminate.
Defined.

(** The same two pixels: no result after a thousand iterations with the
    colour ['#-f0000'], and an immediate return with their own colour. *)
Lemma fillFlood_diverges_example :
  fillFlood 1000 black2 0 0 (hexToRgba "#-f0000") = None /\
  fillFlood (fillFuel black2) black2 0 0 (hexToRgba "#000000") = Some black2.
Proof. vm_compute. done. Qed.

(** ** Snapshots *)

(** The entry just pushed is under the index of the old length. *)
Lemma arrayGet_last {A} (l : list A) (x : A) :
  arrayGet (l ++ [x]) (Z.of_nat (length l)) = Some x.
Proof.
  unfold arrayGet. rewrite decide_True by lia. rewrite Nat2Z.id.
  by rewrite lookup_app_r, Nat.sub_diag.
Qed.

(** X8. [saveHistory] on a store that satisfies the store invariant leaves
    the canvas alone, puts the canvas's raster at the top of the stack with
    the index on it, and discards what lay above the old index, so that
    [redo] right after it does nothing.  Below the capacity the entries up
    to the old index are kept and the index grows by one; at index 19 the
    oldest entry is dropped and the index stays 19. *)
Theorem saveHistory_snapshot s canvas :
  storeInv s -> canvasRef s = Some canvas ->
  canvasRef (saveHistory s) = Some canvas /\
  arrayGet (historyRef (saveHistory s)) (historyIndexRef (saveHistory s))
    = Some (pixels canvas) /\
  historyIndexRef (saveHistory s) = historyLength (saveHistory s) - 1 /\
  redo (saveHistory s) = saveHistory s /\
  (historyIndexRef s < 19 ->
     historyRef (saveHistory s)
       = take (Z.to_nat (historyIndexRef s + 1)) (historyRef s) ++ [pixels canvas] /\
     historyIndexRef (saveHistory s) = historyIndexRef s + 1) /\
  (historyIndexRef s = 19 ->
     historyRef (saveHistory s) = tail (historyRef s) ++ [pixels canvas] /\
     historyIndexRef (saveHistory s) = 19).
Proof.
  intros HI Hc. pose proof HI as (_ & Hi & Hl). unfold historyLength in *.
  assert (redo (saveHistory s) = saveHistory s) as Hredo.
  { destruct (saveHistory_inv s HI) as (_ & Htop & _). unfold redo, historyLength in *.
    destruct (Z.geb_spec (historyIndexRef (saveHistory s))
                (Z.of_nat (length (historyRef (saveHistory s))) - 1)); [done|lia]. }
  destruct (saveHistory_inv s HI) as (_ & Htop & Hcan).
  split_and!; try done.
  - by rewrite Hcan.
  - destruct (decide (historyIndexRef s < 19)) as [Hlt|Hge].
    + rewrite (saveHistory_push s canvas Hc Hi Hlt). simpl.
      replace (historyIndexRef s + 1)
        with (Z.of_nat (length (take (Z.to_nat (historyIndexRef s + 1)) (historyRef s))))
        at 2 by (rewrite length_take; lia).
      apply arrayGet_last.
    + rewrite (saveHistory_overflow s canvas Hc) by (unfold historyLength; lia).
      simpl. replace 19 with (Z.of_nat (length (tail (historyRef s)))).
      * apply arrayGet_last.
      * destruct (historyRef s); simpl in *; lia.
  - intros Hlt. by rewrite (saveHistory_push s canvas Hc Hi Hlt).
  - intros E. by rewrite (saveHistory_overflow s canvas Hc) by (unfold historyLength; lia).
Qed.

Lemma saveHistory_snapshot_witness :
  let s := MkStore (Some (MkCanvas 1 1 [0; 0; 0; 255]))
             [whiteData 1 1; [9; 9; 9; 255]; [7; 7; 7; 255]] 0 in
  canvasRef (saveHistory s) = Some (MkCanvas 1 1 [0; 0; 0; 255]) /\
  arrayGet (historyRef (saveHistory s)) (historyIndexRef (saveHistory s))
    = Some [0; 0; 0; 255] /\
  historyIndexRef (saveHistory s) = historyLength (saveHistory s) - 1 /\
  redo (saveHistory s) = saveHistory s /\
  (historyIndexRef s < 19 ->
     historyRef (saveHistory s) = [whiteData 1 1; [0; 0; 0; 255]] /\
     historyIndexRef (saveHistory s) = 1) /\
  (historyIndexRef s = 19 ->
     historyRef (saveHistory s) = tail (historyRef s) ++ [[0; 0; 0; 255]] /\
     historyIndexRef (saveHistory s) = 19).
Proof.
  apply (saveHistory_snapshot
           (MkStore (Some (MkCanvas 1 1 [0; 0; 0; 255]))
              [whiteData 1 1; [9; 9; 9; 255]; [7; 7; 7; 255]] 0)
           (MkCanvas 1 1 [0; 0; 0; 255])).
  - unfold storeInv, historyLength. simpl. split; [by eexists|lia].
  - reflexivity.
Defined.

(** ** [redo] *)

(** X9. [redo] in a reachable state: with the index on the top of the stack
    (or the stack empty) it does nothing; below the top it moves the index
    up by one and puts that snapshot on the canvas, never changing the
    stack; and redoing at least as often as there are snapshots above the
    index ends on the newest snapshot and stays there. *)
Theorem redo_upper_bound_and_restore `{DisplaySurface} w h s :
  reachable w h s ->
  exists canvas,
    canvasRef (store s) = Some canvas /\
    (historyLength (store s) - 1 <= historyIndexRef (store s) ->
       redo (store s) = store s) /\
    (historyIndexRef (store s) < historyLength (store s) - 1 ->
       (exists imageData,
          arrayGet (historyRef (store s)) (historyIndexRef (store s) + 1)
            = Some imageData /\
          redo (store s) =
            MkStore (Some (putImageData imageData canvas)) (historyRef (store s))
              (historyIndexRef (store s) + 1)) /\
       forall k, historyLength (store s) - 1 - historyIndexRef (store s) <= Z.of_nat k ->
         historyRef (Nat.iter k redo (store s)) = historyRef (store s) /\
         historyIndexRef (Nat.iter k redo (store s)) = historyLength (store s) - 1 /\
         pixels <$> canvasRef (Nat.iter k redo (store s))
           = last (historyRef (store s))).
Proof.
  intros Hr. destruct (reachable_inv w h s Hr) as ([canvas Hc] & Hi & Hl).
  exists canvas. split; [done|]. unfold historyLength in *. split.
  - intros Htop. unfold redo.
    destruct (Z.geb_spec (historyIndexRef (store s))
                (Z.of_nat (length (historyRef (store s))) - 1)); [done|lia].
  - intros Hlow. split.
    { apply redo_high; [done|unfold historyLength; lia]. }
    intros k Hk.
    set (n := Z.to_nat (Z.of_nat (length (historyRef (store s))) - 1
                        - historyIndexRef (store s))).
    assert (exists m, n = S m) as [m Hm] by (exists (Nat.pred n); lia).
    destruct (redo_iter m (store s)) as (Hh & Hidx & Hpx);
      [by eexists|lia|unfold historyLength; lia|].
    assert (Nat.iter k redo (store s) = Nat.iter (S m) redo (store s)) as ->.
    { apply iter_past_fixpoint; [|lia].
      unfold redo at 1. rewrite Hh, Hidx.
      destruct (Z.geb_spec (historyIndexRef (store s) + Z.of_nat (S m))
                  (Z.of_nat (length (historyRef (store s))) - 1)); [done|lia]. }
    split_and!; [done|lia|].
    rewrite Hpx. unfold arrayGet. rewrite decide_True by lia.
    rewrite last_lookup. f_equal. lia.
Qed.

Lemma redo_upper_bound_and_restore_witness :
  exists canvas,
    canvasRef (store undone) = Some canvas /\
    (historyLength (store undone) - 1 <= historyIndexRef (store undone) ->
       redo (store undone) = store undone) /\
    (historyIndexRef (store undone) < historyLength (store undone) - 1 ->
       (exists imageData,
          arrayGet (historyRef (store undone)) (historyIndexRef (store undone) + 1)
            = Some imageData /\
          redo (store undone) =
            MkStore (Some (putImageData imageData canvas)) (historyRef (store undone))
              (historyIndexRef (store undone) + 1)) /\
       forall k,
         historyLength (store undone) - 1 - historyIndexRef (store undone)
           <= Z.of_nat k ->
         historyRef (Nat.iter k redo (store undone)) = historyRef (store undone) /\
         historyIndexRef (Nat.iter k redo (store undone))
           = historyLength (store undone) - 1 /\
         pixels <$> canvasRef (Nat.iter k redo (store undone))
           = last (historyRef (store undone))).
Proof.
  apply (@redo_upper_bound_and_restore dotSurface 2 2 undone).
  apply undone_reachable.
Defined.

(** After a stroke and an undo the index is 0 under a stack of two, and any
    number of redos, one at least, ends on the second snapshot. *)
Lemma redo_example :
  historyIndexRef (store undone) = 0 /\ historyLength (store undone) = 2 /\
  historyIndexRef (Nat.iter 1 redo (store undone)) = 1 /\
  historyIndexRef (Nat.iter 7 redo (store undone)) = 1 /\
  pixels <$> canvasRef (Nat.iter 7 redo (store undone))
    = last (historyRef (store undone)).
Proof. vm_compute. done. Qed.

(** ** [undo] and [redo] are inverse on a canvas that shows its snapshot *)

(** X10. On a store whose canvas shows the snapshot under the index,
    [redo] undoes [undo] (also when the undo hits the lower bound and
    whitens the canvas), and below the top [undo] undoes [redo]; the
    results of an undo from above position 0 and of a redo from below the
    top are again such stores. *)
Theorem undo_redo_inverse s :
  storeInv s -> synced s ->
  redo (undo s) = s /\
  (historyIndexRef s < historyLength s - 1 ->
     undo (redo s) = s /\ synced (redo s)) /\
  (0 < historyIndexRef s -> synced (undo s)).
Proof.
  intros ([canvas Hc] & Hi & Hl) Hsy. unfold synced, historyLength in *.
  destruct s as [cref hist idx]. simpl in *. subst cref. simpl in Hsy.
  symmetry in Hsy.
  assert (0 <= idx) as H0 by (unfold arrayGet in Hsy; by case_decide).
  set (s := MkStore (Some canvas) hist idx).
  assert (forall c, pixels c = pixels canvas -> cwidth c = cwidth canvas ->
                    cheight c = cheight canvas -> c = canvas) as Hcan.
  { intros [] ???. destruct canvas. simpl in *. by subst. }
  split_and!.
  - destruct (decide (idx = 0)) as [E0|N0].
    + rewrite (undo_low s canvas eq_refl) by (simpl; lia).
      cbn [s historyRef historyIndexRef].
      destruct (redo_high (MkStore (Some (fillWhite canvas)) hist (-1))
                  (fillWhite canvas) eq_refl) as (img & Himg & ->).
      { unfold historyLength. simpl. lia. }
      simpl in *. subst idx. change (-1 + 1) with 0 in *.
      assert (img = pixels canvas) as -> by congruence.
      unfold s. f_equal. f_equal. by apply Hcan.
    + destruct (undo_high s canvas eq_refl) as (img & Himg & ->);
        [unfold historyLength; simpl; lia|].
      cbn [s historyRef historyIndexRef] in *.
      destruct (redo_high (MkStore (Some (putImageData img canvas)) hist (idx - 1))
                  (putImageData img canvas) eq_refl) as (img' & Himg' & ->).
      { unfold historyLength. simpl. lia. }
      simpl in *. replace (idx - 1 + 1) with idx in * by lia.
      assert (img' = pixels canvas) as -> by congruence.
      unfold s. f_equal. f_equal. by apply Hcan.
  - intros Hlow.
    destruct (redo_high s canvas eq_refl) as (img & Himg & ->);
      [unfold historyLength; simpl; lia|].
    split; [|by simpl].
    cbn [s historyRef historyIndexRef] in *.
    destruct (undo_high (MkStore (Some (putImageData img canvas)) hist (idx + 1))
                (putImageData img canvas) eq_refl) as (img' & Himg' & ->).
    { unfold historyLength. simpl. lia. }
    simpl in *. replace (idx + 1 - 1) with idx in * by lia.
    assert (img' = pixels canvas) as -> by congruence.
    unfold s. f_equal. f_equal. by apply Hcan.
  - intros Hpos.
    destruct (undo_high s canvas eq_refl) as (img & Himg & ->);
      [unfold historyLength; simpl; lia|]. by simpl.
Qed.

Lemma undo_redo_inverse_witness :
  let s := MkStore (Some (MkCanvas 1 1 [9; 9; 9; 255]))
             [whiteData 1 1; [9; 9; 9; 255]; [7; 7; 7; 255]] 1 in
  redo (undo s) = s /\
  (historyIndexRef s < historyLength s - 1 ->
     undo (redo s) = s /\ synced (redo s)) /\
  (0 < historyIndexRef s -> synced (undo s)).
Proof.
  apply (undo_redo_inverse
           (MkStore (Some (MkCanvas 1 1 [9; 9; 9; 255]))
              [whiteData 1 1; [9; 9; 9; 255]; [7; 7; 7; 255]] 1)).
  - unfold storeInv, historyLength. simpl. split; [by eexists|lia].
  - reflexivity.
Defined.

(** ** Pointer events that draw nothing *)

(** X11. Without a press nothing is drawn: from a state in which no stroke
    is in progress, pointer moves, releases and tool changes in any number
    and order leave the canvas, the history and the animation state
    exactly as they were. *)
Theorem hover_draws_nothing `{DisplaySurface} evs : forall s,
  isDrawing (pen s) = false ->
  forallb isPaintEvent evs = true -> gestures evs = 0%nat ->
  exists s', run evs s = Some s' /\
    store s' = store s /\ anim s' = anim s /\ env s' = env s /\
    isDrawing (pen s') = false.
Proof.
  induction evs as [|ev evs IH]; intros s Hd Hp Hg; [by exists s|].
  simpl in Hp. apply andb_prop in Hp as [Hp1 Hp2].
  unfold gestures in *. rewrite filter_cons in Hg.
  destruct ev; simpl in Hp1, Hg; try done.
  - (* move *)
    assert (draw e s = s) as E by (unfold draw; by rewrite Hd).
    simpl. rewrite E. by apply IH.
  - (* release *)
    destruct (IH (stopDrawing s)) as (s' & ? & ? & ? & ? & ?); try done.
    exists s'. by split_and!.
  - simpl. match goal with |- context [run evs ?t] => destruct (IH t) as (s' & ? & ? & ? & ? & ?) end;
      try done; [by destruct (_ || _)|].
    exists s'. split; [done|]. destruct (_ || _); by split_and!.
  - simpl. match goal with |- context [run evs ?t] => destruct (IH t) as (s' & ? & ? & ? & ? & ?) end;
      try done; [by destruct (animating _)|].
    exists s'. split; [done|]. destruct (animating _); by split_and!.
  - simpl. match goal with |- context [run evs ?t] => destruct (IH t) as (s' & ? & ? & ? & ? & ?) end;
      try done; [by destruct (animating _)|].
    exists s'. split; [done|]. destruct (animating _); by split_and!.
Qed.

Lemma hover_draws_nothing_witness :
  exists s',
    @run dotSurface [PointerMove (pointerAt 2 2 1 0); PointerUp; ChangeMode ModeFill;
                     PointerMove (pointerAt 2 2 1 1)]
      (started 2 2 true noDraws) = Some s' /\
    store s' = store (started 2 2 true noDraws) /\
    anim s' = anim (started 2 2 true noDraws) /\
    env s' = env (started 2 2 true noDraws) /\
    isDrawing (pen s') = false.
Proof.
  apply (@hover_draws_nothing dotSurface); reflexivity.
Defined.

(** X12. While the sprite is animating, pointer presses, moves and
    releases, and the disabled tool inputs, change neither the canvas, the
    history, the animation nor the chosen tool. *)
Theorem animation_ignores_pointer `{DisplaySurface} evs : forall s,
  animating (anim s) = true ->
  forallb isPaintEvent evs = true ->
  exists s', run evs s = Some s' /\
    store s' = store s /\ anim s' = anim s /\ env s' = env s /\
    position (pen s') = position (pen s) /\ color (pen s') = color (pen s) /\
    lineWidth (pen s') = lineWidth (pen s) /\ mode (pen s') = mode (pen s).
Proof.
  induction evs as [|ev evs IH]; intros s Ha Hp; [by exists s|].
  simpl in Hp. apply andb_prop in Hp as [Hp1 Hp2].
  destruct ev; simpl in Hp1; try done; simpl.
  - unfold startDrawing. rewrite Ha. by apply IH.
  - assert (draw e s = s) as -> by (unfold draw; rewrite Ha; by destruct (negb _)).
    by apply IH.
  - destruct (IH (stopDrawing s)) as (s' & ? & ? & ? & ? & ? & ? & ? & ?); try done.
    exists s'. by split_and!.
  - rewrite Ha. simpl. by apply IH.
  - rewrite Ha. by apply IH.
  - rewrite Ha. by apply IH.
Qed.

Lemma animation_ignores_pointer_witness :
  exists s',
    @run dotSurface [PointerDown (pointerAt 2 2 0 1); PointerMove (pointerAt 2 2 1 1);
                     PointerUp; ChangeMode ModeFill; PointerDown (pointerAt 2 2 0 0)]
      animatingMute = Some s' /\
    store s' = store animatingMute /\ anim s' = anim animatingMute /\
    env s' = env animatingMute /\
    position (pen s') = position (pen animatingMute) /\
    color (pen s') = color (pen animatingMute) /\
    lineWidth (pen s') = lineWidth (pen animatingMute) /\
    mode (pen s') = mode (pen animatingMute).
Proof.
  apply (@animation_ignores_pointer dotSurface); reflexivity.
Defined.

(** ** A drag draws the polyline through the pointer positions *)

(** The position depends on the canvas only through its size. *)
Lemma getCanvasRelativePosition_size e c c' :
  cwidth c' = cwidth c -> cheight c' = cheight c ->
  getCanvasRelativePosition e c' = getCanvasRelativePosition e c.
Proof. unfold getCanvasRelativePosition. by intros -> ->. Qed.

Lemma strokePath_size `{DisplaySurface} style width pts : forall p c,
  cwidth (strokePath style width p pts c) = cwidth c /\
  cheight (strokePath style width p pts c) = cheight c.
Proof.
  induction pts as [|q pts IH]; intros p c; [done|]. simpl.
  destruct (IH q (strokeLine style width p q c)) as [-> ->].
  by rewrite strokeLine_width, strokeLine_height.
Qed.

(** X13. While a stroke is in progress, a run of pointer moves strokes the
    polyline through the pointer positions: each segment starts where the
    previous one ended, with the style and width fixed by the tool (white
    and triple width for the eraser), and the history is not touched.
    (As everywhere in this embedding, a state update made by one handler,
    here [setPosition], is in force when the next event is handled.) *)
Theorem drag_draws_polyline `{DisplaySurface} es : forall s canvas,
  isDrawing (pen s) = true -> animating (anim s) = false ->
  canvasRef (store s) = Some canvas ->
  let pts := (fun e => getCanvasRelativePosition e canvas) <$> es in
  exists s', run (PointerMove <$> es) s = Some s' /\
    canvasRef (store s')
      = Some (strokePath (penStyle (pen s)).1 (penStyle (pen s)).2
                (position (pen s)) pts canvas) /\
    position (pen s') = default (position (pen s)) (last pts) /\
    historyRef (store s') = historyRef (store s) /\
    historyIndexRef (store s') = historyIndexRef (store s) /\
    isDrawing (pen s') = true /\ color (pen s') = color (pen s) /\
    lineWidth (pen s') = lineWidth (pen s) /\ mode (pen s') = mode (pen s) /\
    anim s' = anim s /\ env s' = env s.
Proof.
  induction es as [|e es IH]; intros s canvas Hd Ha Hc pts.
  { exists s. by split_and!. }
  destruct (getCanvasRelativePosition e canvas) as [x y] eqn:Ep.
  set (style := (penStyle (pen s)).1). set (width := (penStyle (pen s)).2).
  set (canvas1 := strokeLine style width (position (pen s)) (x, y) canvas).
  set (s1 := withPen (MkPen true (x, y) (color (pen s)) (lineWidth (pen s)) (mode (pen s)))
               (withStore (withCanvas canvas1 (store s)) s)).
  assert (draw e s = s1) as Hdraw.
  { unfold draw. rewrite Hd, Ha, Hc, Ep. simpl.
    unfold s1, canvas1, style, width, penStyle.
    by destruct (mode (pen s)). }
  destruct (IH s1 canvas1) as (s' & Hrun & Hcan & Hpos & Hh & Hi & Hd' & ? & ? & ? & ? & ?);
    try done.
  exists s'. cbn [fmap list_fmap run handle]. rewrite Hdraw.
  split; [exact Hrun|].
  assert ((fun e0 => getCanvasRelativePosition e0 canvas1) <$> es
          = (fun e0 => getCanvasRelativePosition e0 canvas) <$> es) as Epts.
  { apply list_fmap_ext. intros _ e0 _. apply getCanvasRelativePosition_size;
      unfold canvas1; by rewrite ?strokeLine_width, ?strokeLine_height. }
  rewrite Epts in Hcan, Hpos.
  assert (penStyle (pen s1) = penStyle (pen s)) as Est by done.
  rewrite Est in Hcan.
  split_and!; try done.
  - unfold pts. rewrite fmap_cons, Ep. exact Hcan.
  - unfold pts. rewrite fmap_cons, Ep, Hpos. simpl.
    rewrite last_cons. by destruct (last _).
Qed.

Lemma drag_draws_polyline_witness :
  let s := withPen (MkPen true (0, 0)%Q "black" 2 ModePen) (started 2 2 true noDraws) in
  let pts := (fun e => getCanvasRelativePosition e (MkCanvas 2 2 (whiteData 2 2)))
               <$> [pointerAt 2 2 1 0; pointerAt 2 2 1 1] in
  exists s',
    @run dotSurface (PointerMove <$> [pointerAt 2 2 1 0; pointerAt 2 2 1 1]) s = Some s' /\
    canvasRef (store s')
      = Some (@strokePath dotSurface (penStyle (pen s)).1 (penStyle (pen s)).2
                (position (pen s)) pts (MkCanvas 2 2 (whiteData 2 2))) /\
    position (pen s') = default (position (pen s)) (last pts) /\
    historyRef (store s') = historyRef (store s) /\
    historyIndexRef (store s') = historyIndexRef (store s) /\
    isDrawing (pen s') = true /\ color (pen s') = color (pen s) /\
    lineWidth (pen s') = lineWidth (pen s) /\ mode (pen s') = mode (pen s) /\
    anim s' = anim s /\ env s' = env s.
Proof.
  apply (@drag_draws_polyline dotSurface [pointerAt 2 2 1 0; pointerAt 2 2 1 1]
           (withPen (MkPen true (0, 0)%Q "black" 2 ModePen) (started 2 2 true noDraws))
           (MkCanvas 2 2 (whiteData 2 2))); reflexivity.
Defined.

(** ** The bounding box is the exact one *)

(** One visit of the loop body keeps [boxOf]. *)
Lemma boxOf_visit w h d seen acc x y :
  boxOf w h d seen acc ->
  boxOf w h d (seen ++ [(x, y)]) (bboxVisit w d y acc x).
Proof.
  destruct acc as [[[minX minY] maxX] maxY]. unfold boxOf, bboxVisit.
  intros (Hin & HminX & HminY & HmaxX & HmaxY & Hnone).
  change (getPixelColor w d x y) with (pixelAt w d (x, y)).
  assert (forall P : Z * Z -> Prop,
            (exists p, p ∈ seen /\ P p) -> exists p, p ∈ seen ++ [(x, y)] /\ P p) as Hmono.
  { intros P (p & ? & ?). exists p. split; [apply elem_of_app; by left|done]. }
  destruct (isWhite (pixelAt w d (x, y))) eqn:Ew.
  - split_and!.
    + intros p [Hp| ->%list_elem_of_singleton]%elem_of_app Hd; [by apply Hin|].
      unfold drawnAt in Hd. congruence.
    + destruct HminX as [|?]; [by left|right; by apply Hmono].
    + destruct HminY as [|?]; [by left|right; by apply Hmono].
    + destruct HmaxX as [|?]; [by left|right; by apply Hmono].
    + destruct HmaxY as [|?]; [by left|right; by apply Hmono].
    + intros Hall. apply Hnone. intros p Hp. apply Hall. apply elem_of_app. by left.
  - assert ((x, y) ∈ seen ++ [(x, y)]) as Hxy
      by (apply elem_of_app; right; by apply list_elem_of_singleton).
    split_and!.
    + intros p [Hp| ->%list_elem_of_singleton]%elem_of_app Hd.
      * destruct (Hin p Hp Hd) as [[? ?] [? ?]].
        destruct (Z.ltb_spec x minX), (Z.ltb_spec y minY),
          (Z.gtb_spec x maxX), (Z.gtb_spec y maxY); lia.
      * simpl.
        destruct (Z.ltb_spec x minX), (Z.ltb_spec y minY),
          (Z.gtb_spec x maxX), (Z.gtb_spec y maxY); lia.
    + destruct (Z.ltb_spec x minX); [right; by exists (x, y)|].
      destruct HminX as [|?]; [by left|right; by apply Hmono].
    + destruct (Z.ltb_spec y minY); [right; by exists (x, y)|].
      destruct HminY as [|?]; [by left|right; by apply Hmono].
    + destruct (Z.gtb_spec x maxX); [right; by exists (x, y)|].
      destruct HmaxX as [|?]; [by left|right; by apply Hmono].
    + destruct (Z.gtb_spec y maxY); [right; by exists (x, y)|].
      destruct HmaxY as [|?]; [by left|right; by apply Hmono].
    + intros Hall. by destruct (Hall (x, y) Hxy).
Qed.

(** The inner loop over a row. *)
Lemma boxOf_row w h d y xs : forall seen acc,
  boxOf w h d seen acc ->
  boxOf w h d (seen ++ ((fun x => (x, y)) <$> xs)) (foldl (bboxVisit w d y) acc xs).
Proof.
  induction xs as [|x xs IH]; intros seen acc Hacc; simpl.
  - by rewrite app_nil_r.
  - rewrite cons_middle, app_assoc. apply IH. by apply boxOf_visit.
Qed.

(** The outer loop over the rows. *)
Lemma boxOf_rows w h d ys : forall seen acc,
  boxOf w h d seen acc ->
  boxOf w h d (seen ++ rowsOf w ys)
    (foldl (fun acc y => foldl (bboxVisit w d y) acc (seqZ 0 w)) acc ys).
Proof.
  induction ys as [|y ys IH]; intros seen acc Hacc; simpl.
  - by rewrite app_nil_r.
  - unfold rowsOf. cbn [mbind list_bind]. rewrite app_assoc.
    apply IH. by apply boxOf_row.
Qed.

(** The two loops visit exactly the pixels of the canvas. *)
Lemma elem_of_rowsOf w h p : p ∈ rowsOf w (seqZ 0 h) <-> inBounds w h p.
Proof.
  unfold rowsOf, inBounds. rewrite list_elem_of_bind. split.
  - intros (y & (x & -> & Hx%elem_of_seqZ)%list_elem_of_fmap & Hy%elem_of_seqZ).
    simpl. lia.
  - intros [Hx Hy]. exists p.2. split; [|apply elem_of_seqZ; lia].
    apply list_elem_of_fmap. exists p.1. split; [by destruct p|].
    apply elem_of_seqZ. lia.
Qed.

Lemma boxOf_init w h d : boxOf w h d [] (w, h, 0, 0).
Proof.
  unfold boxOf. split_and!; try (by left); try done.
  by intros p ?%elem_of_nil.
Qed.

(** The accumulator after both loops of [getDrawingBoundingBox]. *)
Lemma boxOf_canvas canvas :
  let w := cwidth canvas in
  let h := cheight canvas in
  boxOf w h (pixels canvas) (rowsOf w (seqZ 0 h))
    (foldl (fun acc y => foldl (bboxVisit w (getImageData canvas) y) acc (seqZ 0 w))
       (w, h, 0, 0) (seqZ 0 h)).
Proof.
  intros w h.
  apply (boxOf_rows w h (getImageData canvas) (seqZ 0 h) [] _ (boxOf_init w h _)).
Qed.

(** A box that is returned contains every drawn pixel. *)
Lemma getDrawingBoundingBox_covers canvas minX minY maxX maxY p :
  getDrawingBoundingBox canvas = Some (minX, minY, maxX, maxY) ->
  inBounds (cwidth canvas) (cheight canvas) p ->
  drawnAt (cwidth canvas) (pixels canvas) p ->
  minX <= p.1 <= maxX /\ minY <= p.2 <= maxY.
Proof.
  unfold getDrawingBoundingBox. pose proof (boxOf_canvas canvas) as Hbox.
  cbn zeta in Hbox. destruct (foldl _ _ _) as [[[a b] c] e].
  destruct Hbox as (Hin & _). destruct (_ || _); [done|].
  intros [= -> -> -> ->] Hp Hd. apply Hin; [|done]. by apply elem_of_rowsOf.
Qed.

(** No box is returned exactly when the canvas is all white. *)
Lemma getDrawingBoundingBox_None canvas :
  0 < cwidth canvas ->
  getDrawingBoundingBox canvas = None <->
  forall p, inBounds (cwidth canvas) (cheight canvas) p ->
    isWhite (pixelAt (cwidth canvas) (pixels canvas) p) = true.
Proof.
  intros Hw. unfold getDrawingBoundingBox. pose proof (boxOf_canvas canvas) as Hbox.
  cbn zeta in Hbox. destruct (foldl _ _ _) as [[[a b] c] e].
  destruct Hbox as (Hin & _ & _ & _ & _ & Hnone). split.
  - destruct (Z.gtb_spec a c) as [Hx|Hx], (Z.gtb_spec b e) as [Hy|Hy]; simpl; try done;
      intros _ p Hp;
      (destruct (isWhite (pixelAt (cwidth canvas) (pixels canvas) p)) eqn:E; [done|]);
      destruct (Hin p (proj2 (elem_of_rowsOf _ _ _) Hp) E); lia.
  - intros Hall.
    assert ((a, b, c, e) = (cwidth canvas, cheight canvas, 0, 0)) as [= -> -> -> ->].
    { apply Hnone. intros p Hp%elem_of_rowsOf Hd. unfold drawnAt in Hd.
      rewrite (Hall p Hp) in Hd. done. }
    destruct (Z.gtb_spec (cwidth canvas) 0); [done|lia].
Qed.

(** A box is returned only if some pixel is drawn. *)
Lemma getDrawingBoundingBox_Some_drawn canvas box :
  0 < cwidth canvas -> getDrawingBoundingBox canvas = Some box ->
  exists p, inBounds (cwidth canvas) (cheight canvas) p /\
            drawnAt (cwidth canvas) (pixels canvas) p.
Proof.
  intros Hw. unfold getDrawingBoundingBox. pose proof (boxOf_canvas canvas) as Hbox.
  cbn zeta in Hbox. destruct (foldl _ _ _) as [[[a b] c] e].
  destruct Hbox as (_ & HminX & _ & HmaxX & _).
  destruct (Z.gtb_spec a c); [done|]. intros _.
  destruct HminX as [->|(p & Hp%elem_of_rowsOf & ? & ?)]; [|by exists p].
  destruct HmaxX as [->|(p & Hp%elem_of_rowsOf & ? & ?)]; [lia|by exists p].
Qed.

(** X14. [getDrawingBoundingBox] on a canvas of positive size returns
    [null] exactly when every pixel is pure opaque white, and otherwise the
    exact bounding box of the other pixels: every one of them lies in it,
    and each of its four sides holds one. *)
Theorem getDrawingBoundingBox_exact canvas :
  0 < cwidth canvas -> 0 < cheight canvas ->
  match getDrawingBoundingBox canvas with
  | None =>
      forall p, inBounds (cwidth canvas) (cheight canvas) p ->
        isWhite (pixelAt (cwidth canvas) (pixels canvas) p) = true
  | Some (minX, minY, maxX, maxY) =>
      (forall p, inBounds (cwidth canvas) (cheight canvas) p ->
         drawnAt (cwidth canvas) (pixels canvas) p ->
         minX <= p.1 <= maxX /\ minY <= p.2 <= maxY) /\
      (exists p, inBounds (cwidth canvas) (cheight canvas) p /\
         drawnAt (cwidth canvas) (pixels canvas) p /\ p.1 = minX) /\
      (exists p, inBounds (cwidth canvas) (cheight canvas) p /\
         drawnAt (cwidth canvas) (pixels canvas) p /\ p.2 = minY) /\
      (exists p, inBounds (cwidth canvas) (cheight canvas) p /\
         drawnAt (cwidth canvas) (pixels canvas) p /\ p.1 = maxX) /\
      (exists p, inBounds (cwidth canvas) (cheight canvas) p /\
         drawnAt (cwidth canvas) (pixels canvas) p /\ p.2 = maxY)
  end.
Proof.
  intros Hw Hh. unfold getDrawingBoundingBox.
  set (w := cwidth canvas) in *. set (h := cheight canvas) in *.
  pose proof (boxOf_canvas canvas) as Hbox. cbn zeta in Hbox. fold w h in Hbox.
  destruct (foldl _ _ _) as [[[minX minY] maxX] maxY].
  destruct Hbox as (Hin & HminX & HminY & HmaxX & HmaxY & Hnone).
  setoid_rewrite elem_of_rowsOf in Hin. setoid_rewrite elem_of_rowsOf in HminX.
  setoid_rewrite elem_of_rowsOf in HminY. setoid_rewrite elem_of_rowsOf in HmaxX.
  setoid_rewrite elem_of_rowsOf in HmaxY. setoid_rewrite elem_of_rowsOf in Hnone.
  destruct (Z.gtb_spec minX maxX) as [Hx|Hx]; simpl.
  { intros p Hp. destruct (isWhite (pixelAt w (pixels canvas) p)) eqn:E; [done|].
    destruct (Hin p Hp E). lia. }
  destruct (Z.gtb_spec minY maxY) as [Hy|Hy]; simpl.
  { intros p Hp. destruct (isWhite (pixelAt w (pixels canvas) p)) eqn:E; [done|].
    destruct (Hin p Hp E). lia. }
  assert (exists p0, inBounds w h p0 /\ drawnAt w (pixels canvas) p0) as (p0 & Hp0 & Hd0).
  { destruct HminX as [->|(p & ? & ? & ?)]; [|by exists p].
    destruct HmaxX as [->|(p & ? & ? & ?)]; [lia|by exists p]. }
  destruct (Hin p0 Hp0 Hd0) as [[? ?] [? ?]]. destruct Hp0 as [? ?].
  assert (forall q, inBounds w h q -> 0 <= q.1 /\ 0 <= q.2) as Hpos
    by (intros q [? ?]; lia).
  split; [done|]. split_and!.
  - destruct HminX as [->|?]; [lia|done].
  - destruct HminY as [->|?]; [lia|done].
  - destruct HmaxX as [->|?]; [|done].
    destruct HminX as [->|(p & Hp & Hd & E)]; [lia|].
    exists p. split_and!; try done. destruct (Hpos p Hp). lia.
  - destruct HmaxY as [->|?]; [|done].
    destruct HminY as [->|(p & Hp & Hd & E)]; [lia|].
    exists p. split_and!; try done. destruct (Hpos p Hp). lia.
Qed.

Lemma getDrawingBoundingBox_exact_witness :
  match getDrawingBoundingBox wall3 with
  | None =>
      forall p, inBounds (cwidth wall3) (cheight wall3) p ->
        isWhite (pixelAt (cwidth wall3) (pixels wall3) p) = true
  | Some (minX, minY, maxX, maxY) =>
      (forall p, inBounds (cwidth wall3) (cheight wall3) p ->
         drawnAt (cwidth wall3) (pixels wall3) p ->
         minX <= p.1 <= maxX /\ minY <= p.2 <= maxY) /\
      (exists p, inBounds (cwidth wall3) (cheight wall3) p /\
         drawnAt (cwidth wall3) (pixels wall3) p /\ p.1 = minX) /\
      (exists p, inBounds (cwidth wall3) (cheight wall3) p /\
         drawnAt (cwidth wall3) (pixels wall3) p /\ p.2 = minY) /\
      (exists p, inBounds (cwidth wall3) (cheight wall3) p /\
         drawnAt (cwidth wall3) (pixels wall3) p /\ p.1 = maxX) /\
      (exists p, inBounds (cwidth wall3) (cheight wall3) p /\
         drawnAt (cwidth wall3) (pixels wall3) p /\ p.2 = maxY)
  end.
Proof. apply (getDrawingBoundingBox_exact wall3); reflexivity. Defined.

(** The black middle column of [wall3], and a blank canvas. *)
Lemma getDrawingBoundingBox_example :
  getDrawingBoundingBox wall3 = Some (1, 0, 1, 2) /\
  getDrawingBoundingBox (MkCanvas 2 2 (whiteData 2 2)) = None.
Proof. split; reflexivity. Qed.

(** ** [hasDrawing] and the bounding box agree *)

(** On a whole number of pixels the scan of [hasDrawing] finds nothing
    exactly when every byte is 255. *)
Lemma anyNonWhite_false n : forall d,
  length d = (4 * n)%nat ->
  anyNonWhite d = false <-> Forall (fun v => v = 255) d.
Proof.
  induction n as [|n IH]; intros d Hlen.
  { destruct d; [done|simpl in Hlen; lia]. }
  destruct d as [|r [|g [|b [|a rest]]]]; simpl in Hlen; try lia.
  cbn [anyNonWhite]. rewrite !Forall_cons.
  destruct (Z.eqb_spec r 255), (Z.eqb_spec g 255), (Z.eqb_spec b 255),
    (Z.eqb_spec a 255); simpl; try (split; [done|tauto]).
  rewrite IH by lia. tauto.
Qed.

Lemma isWhite_true_iff c : isWhite c = true <-> c = rgbOf 255 255 255 255.
Proof.
  destruct c as [[[r g] b] a]. unfold isWhite, rgbOf. split.
  - rewrite !andb_true_iff. intros [[[?%strictEq_true ?%strictEq_true] ?%strictEq_true]
                                      ?%strictEq_true]. by subst.
  - by intros [= -> -> -> ->].
Qed.

Lemma data_get_Num d i v : data_get d i = Num v <-> 0 <= i /\ d !! Z.to_nat i = Some v.
Proof.
  unfold data_get. case_decide.
  - destruct (d !! Z.to_nat i); split; try done; try (intros [= ->]; by split);
      try (by intros [_ [= ->]]); by intros [_ ?].
  - split; [done|]. intros [? _]. lia.
Qed.

(** Every pixel reads white exactly when every byte is 255. *)
Lemma white_pixels_iff w h d :
  0 <= w -> 0 <= h -> Z.of_nat (length d) = 4 * (w * h) ->
  (forall p, inBounds w h p -> isWhite (pixelAt w d p) = true) <->
  Forall (fun v => v = 255) d.
Proof.
  intros Hw Hh Hlen. split.
  - intros Hall. apply Forall_lookup. intros i v Hi.
    pose proof (lookup_lt_Some _ _ _ Hi) as Hlt.
    assert (0 < w) as Hw' by nia.
    set (k := Z.of_nat i `div` 4). set (c := Z.of_nat i `mod` 4).
    assert (Z.of_nat i = 4 * k + c) as Ei by (apply Z.div_mod; lia).
    assert (0 <= c < 4) as Hc by (apply Z.mod_pos_bound; lia).
    assert (0 <= k < w * h) as Hk by (unfold k; split; [apply Z.div_pos; lia|];
                                       apply Z.div_lt_upper_bound; lia).
    set (x := k `mod` w). set (y := k `div` w).
    assert (k = w * y + x) as Ek by (apply Z.div_mod; lia).
    assert (0 <= x < w) as Hx by (apply Z.mod_pos_bound; lia).
    assert (0 <= y < h) as Hy by (unfold y; split; [apply Z.div_pos; lia|];
                                   apply Z.div_lt_upper_bound; lia).
    specialize (Hall (x, y) (conj Hx Hy)). apply isWhite_true_iff in Hall.
    unfold pixelAt, getPixelColor, rgbOf in Hall. cbn [fst snd] in Hall.
    injection Hall as H0 H1 H2 H3.
    apply data_get_Num in H0 as [_ H0], H1 as [_ H1], H2 as [_ H2], H3 as [_ H3].
    assert (c = 0 \/ c = 1 \/ c = 2 \/ c = 3) as [E|[E|[E|E]]] by lia.
    + replace (Z.to_nat ((y * w + x) * 4)) with i in H0 by lia. congruence.
    + replace (Z.to_nat ((y * w + x) * 4 + 1)) with i in H1 by lia. congruence.
    + replace (Z.to_nat ((y * w + x) * 4 + 2)) with i in H2 by lia. congruence.
    + replace (Z.to_nat ((y * w + x) * 4 + 3)) with i in H3 by lia. congruence.
  - intros Hall p Hp. apply isWhite_true_iff.
    pose proof (pixelIndex_range w h p Hp) as [H0 H3].
    unfold pixelAt, getPixelColor. fold (pixelIndex w p). unfold rgbOf.
    assert (forall i, 0 <= i < 4 * (w * h) -> data_get d i = Num 255) as Hget.
    { intros i Hi. apply data_get_Num. split; [lia|].
      destruct (lookup_lt_is_Some_2 d (Z.to_nat i)) as [v Hv]; [lia|].
      rewrite Hv. f_equal. by apply (Forall_lookup_1 _ _ _ _ Hall Hv). }
    by rewrite !Hget by lia.
Qed.

(** [hasDrawing] is false exactly when every pixel reads white. *)
Lemma hasDrawing_false_iff s canvas :
  canvasRef s = Some canvas -> wfCanvas canvas ->
  hasDrawing s = false <->
  forall p, inBounds (cwidth canvas) (cheight canvas) p ->
    isWhite (pixelAt (cwidth canvas) (pixels canvas) p) = true.
Proof.
  intros Hc (Hw & Hh & Hlen). unfold hasDrawing. rewrite Hc. unfold getImageData.
  rewrite (anyNonWhite_false (Z.to_nat (cwidth canvas * cheight canvas))) by lia.
  symmetry. by apply white_pixels_iff.
Qed.

(** X15. [hasDrawing] (the guard of the "finish" button) and
    [getDrawingBoundingBox] (the guard inside [startAnimation]) agree on a
    well-formed canvas of positive size: [hasDrawing] is true exactly when
    a bounding box is found, which is exactly when some pixel is not pure
    opaque white. *)
Theorem hasDrawing_iff_boundingBox s canvas :
  canvasRef s = Some canvas -> wfCanvas canvas ->
  0 < cwidth canvas -> 0 < cheight canvas ->
  (hasDrawing s = true <-> is_Some (getDrawingBoundingBox canvas)) /\
  (hasDrawing s = true <->
     exists p, inBounds (cwidth canvas) (cheight canvas) p /\
               drawnAt (cwidth canvas) (pixels canvas) p).
Proof.
  intros Hc Hwf Hw' Hh'.
  pose proof (hasDrawing_false_iff s canvas Hc Hwf) as Hfalse.
  split.
  - rewrite <- not_eq_None_Some, (getDrawingBoundingBox_None canvas Hw'), <- Hfalse.
    by destruct (hasDrawing s).
  - split.
    + intros Ht.
      destruct (getDrawingBoundingBox canvas) as [box|] eqn:Eb.
      * by apply (getDrawingBoundingBox_Some_drawn canvas box).
      * pose proof (proj2 Hfalse (proj1 (getDrawingBoundingBox_None canvas Hw') Eb)).
        congruence.
    + intros (p & Hp & Hd). destruct (hasDrawing s) eqn:E; [done|].
      unfold drawnAt in Hd. rewrite (proj1 Hfalse eq_refl p Hp) in Hd. done.
Qed.

Lemma hasDrawing_iff_boundingBox_witness :
  (hasDrawing (MkStore (Some wall3) [] (-1)) = true
     <-> is_Some (getDrawingBoundingBox wall3)) /\
  (hasDrawing (MkStore (Some wall3) [] (-1)) = true <->
     exists p, inBounds (cwidth wall3) (cheight wall3) p /\
               drawnAt (cwidth wall3) (pixels wall3) p).
Proof.
  apply (hasDrawing_iff_boundingBox (MkStore (Some wall3) [] (-1)) wall3);
    [reflexivity|apply wall3_wf|reflexivity|reflexivity].
Defined.

(** ** White canvases *)

Lemma anyNonWhite_whiteData w h : anyNonWhite (whiteData w h) = false.
Proof.
  apply (anyNonWhite_false (Z.to_nat (w * h))).
  - unfold whiteData. rewrite length_replicate. lia.
  - apply whiteData_white.
Qed.

(** X16. [hasDrawing] is false right after the setup effect, after
    [stopAnimation] and after an [undo] at the lower bound; and on a
    well-formed canvas it is false exactly when the canvas is the
    all-white one. *)
Theorem white_canvas_has_no_drawing :
  (forall w h speech rand, hasDrawing (store (started w h speech rand)) = false) /\
  (forall s, hasDrawing (store (stopAnimation s)) = false) /\
  (forall s, historyIndexRef s <= 0 -> hasDrawing (undo s) = false) /\
  (forall s canvas, canvasRef s = Some canvas -> wfCanvas canvas ->
     (hasDrawing s = false <-> canvas = fillWhite canvas)).
Proof.
  split_and!.
  - intros. apply anyNonWhite_whiteData.
  - intros s. unfold stopAnimation, resetStore, hasDrawing. cbn [store withStore].
    destruct (canvasRef (store s)) as [c|] eqn:Ec; [apply anyNonWhite_whiteData|].
    by rewrite Ec.
  - intros s Hi. unfold undo, hasDrawing.
    destruct (canvasRef s) as [c|] eqn:Ec; [|by rewrite Ec].
    rewrite (proj2 (Z.leb_le _ _) Hi). apply anyNonWhite_whiteData.
  - intros s canvas Hc (Hw & Hh & Hlen). unfold hasDrawing, getImageData.
    rewrite Hc. split.
    + intros Hno.
      apply (anyNonWhite_false (Z.to_nat (cwidth canvas * cheight canvas))) in Hno; [|lia].
      destruct canvas as [w h d]. unfold fillWhite. simpl in *. f_equal.
      unfold whiteData. apply list_eq_same_length with (length d);
        [rewrite length_replicate; lia|done|].
      intros i x y Hi Hx Hy. apply lookup_replicate in Hy as [-> _].
      by apply (Forall_lookup_1 _ _ _ _ Hno Hx).
    + intros ->. apply anyNonWhite_whiteData.
Qed.

(** ** The sprite is the tight crop of the drawing *)

(** Looking up in rows of equal length laid end to end. *)
Lemma flat_map_lookup_rows {A B} (f : A -> list B) (n : nat) l : forall j a i,
  (forall b, b ∈ l -> length (f b) = n) -> l !! j = Some a -> (i < n)%nat ->
  flat_map f l !! (j * n + i)%nat = f a !! i.
Proof.
  induction l as [|b l IH]; intros j a i Hlen Hj Hi; [done|].
  simpl. destruct j as [|j]; simpl in Hj.
  - injection Hj as ->. apply lookup_app_l. rewrite Hlen by left. lia.
  - rewrite lookup_app_r by (rewrite Hlen by left; lia).
    rewrite (Hlen b) by left.
    replace (S j * n + i - n)%nat with (j * n + i)%nat by lia.
    apply IH; [|done..]. intros c Hc. apply Hlen. by right.
Qed.

Lemma flat_map_length_rows {A B} (f : A -> list B) (n : nat) l :
  (forall b, b ∈ l -> length (f b) = n) ->
  length (flat_map f l) = (length l * n)%nat.
Proof.
  induction l as [|b l IH]; intros Hlen; [done|].
  simpl. rewrite length_app, (Hlen b) by left. rewrite IH; [lia|].
  intros c Hc. apply Hlen. by right.
Qed.

Section Crop.
Variables (canvas : Canvas) (minX minY dw dh : Z).
Hypothesis Hwf : wfCanvas canvas.
Hypothesis HminX : 0 <= minX.
Hypothesis HminY : 0 <= minY.
Hypothesis Hdw : 0 <= dw.
Hypothesis Hdh : 0 <= dh.
Hypothesis HmaxX : minX + dw <= cwidth canvas.
Hypothesis HmaxY : minY + dh <= cheight canvas.

Let row (y : Z) : list Z :=
  take (Z.to_nat (4 * dw))
    (drop (Z.to_nat ((y * cwidth canvas + minX) * 4)) (pixels canvas)).

(** A row of the rectangle lies inside the raster, so it is cut whole. *)
Lemma crop_row_length y :
  y ∈ seqZ minY dh -> length (row y) = Z.to_nat (4 * dw).
Proof.
  intros Hy%elem_of_seqZ. destruct Hwf as (Hw & Hh & Hlen).
  unfold row. rewrite length_take, length_drop. nia.
Qed.

Lemma cropCanvas_wf : wfCanvas (cropCanvas canvas minX minY dw dh).
Proof.
  unfold wfCanvas, cropCanvas. cbn [cwidth cheight pixels].
  split_and!; try done.
  rewrite (flat_map_length_rows _ (Z.to_nat (4 * dw))) by apply crop_row_length.
  rewrite length_seqZ. nia.
Qed.

(** A byte of the crop is the byte of the canvas at the shifted pixel. *)
Lemma cropCanvas_data i j c :
  0 <= i < dw -> 0 <= j < dh -> 0 <= c < 4 ->
  data_get (pixels (cropCanvas canvas minX minY dw dh)) ((j * dw + i) * 4 + c)
    = data_get (pixels canvas) (((minY + j) * cwidth canvas + (minX + i)) * 4 + c).
Proof.
  intros Hi Hj Hc. destruct Hwf as (Hw & Hh & Hlen).
  unfold data_get. rewrite !decide_True by nia.
  unfold cropCanvas. cbn [pixels].
  replace (Z.to_nat ((j * dw + i) * 4 + c))
    with (Z.to_nat j * Z.to_nat (4 * dw) + Z.to_nat (4 * i + c))%nat by nia.
  rewrite (flat_map_lookup_rows _ (Z.to_nat (4 * dw)) _ _ (minY + j));
    [|apply crop_row_length| |lia].
  - rewrite lookup_take_lt by lia. rewrite lookup_drop.
    replace (Z.to_nat (((minY + j) * cwidth canvas + minX) * 4) + Z.to_nat (4 * i + c))%nat
      with (Z.to_nat (((minY + j) * cwidth canvas + (minX + i)) * 4 + c)) by nia.
    done.
  - rewrite lookup_seqZ_lt by lia. f_equal. lia.
Qed.

(** A pixel of the crop is the pixel of the canvas shifted by the
    rectangle's corner. *)
Lemma cropCanvas_pixel i j :
  0 <= i < dw -> 0 <= j < dh ->
  pixelAt dw (pixels (cropCanvas canvas minX minY dw dh)) (i, j)
    = pixelAt (cwidth canvas) (pixels canvas) (minX + i, minY + j).
Proof.
  intros Hi Hj. unfold pixelAt, getPixelColor. cbn [fst snd].
  pose proof (cropCanvas_data i j 0 Hi Hj) as H0. rewrite !Z.add_0_r in H0.
  rewrite H0 by lia.
  by rewrite (cropCanvas_data i j 1 Hi Hj), (cropCanvas_data i j 2 Hi Hj),
    (cropCanvas_data i j 3 Hi Hj) by lia.
Qed.
End Crop.

(** [speakRandom] leaves the sprite, its position and the tool alone. *)
Lemma speakRandom_anim s :
  animating (anim (speakRandom s)) = animating (anim s) /\
  offscreenCanvasRef (anim (speakRandom s)) = offscreenCanvasRef (anim s) /\
  imgPosRef (anim (speakRandom s)) = imgPosRef (anim s) /\
  pen (speakRandom s) = pen s.
Proof. unfold speakRandom. by destruct (negb _). Qed.

(** X17. [startAnimation] on a well-formed canvas of positive size: if
    [hasDrawing] is false it does nothing at all; otherwise it sets
    [animating], leaves canvas and history alone, and stores as sprite the
    tight crop of the drawing: a well-formed canvas of the size of the
    bounding box, not larger than the canvas, whose pixel [(i, j)] is the
    canvas's pixel [(minX + i, minY + j)], so that every drawn pixel is on
    it. *)
Theorem startAnimation_sprite s canvas :
  canvasRef (store s) = Some canvas -> wfCanvas canvas ->
  0 < cwidth canvas -> 0 < cheight canvas ->
  (hasDrawing (store s) = false -> startAnimation s = s) /\
  (hasDrawing (store s) = true ->
     exists minX minY maxX maxY off,
       getDrawingBoundingBox canvas = Some (minX, minY, maxX, maxY) /\
       animating (anim (startAnimation s)) = true /\
       offscreenCanvasRef (anim (startAnimation s)) = Some off /\
       store (startAnimation s) = store s /\
       cwidth off = maxX - minX + 1 /\ cheight off = maxY - minY + 1 /\
       1 <= cwidth off <= cwidth canvas /\ 1 <= cheight off <= cheight canvas /\
       wfCanvas off /\
       (forall i j, inBounds (cwidth off) (cheight off) (i, j) ->
          pixelAt (cwidth off) (pixels off) (i, j)
            = pixelAt (cwidth canvas) (pixels canvas) (minX + i, minY + j)) /\
       (forall p, inBounds (cwidth canvas) (cheight canvas) p ->
          drawnAt (cwidth canvas) (pixels canvas) p ->
          inBounds (cwidth off) (cheight off) (p.1 - minX, p.2 - minY))).
Proof.
  intros Hc Hwf Hw Hh.
  pose proof (hasDrawing_false_iff (store s) canvas Hc Hwf) as Hfalse.
  split.
  - intros Hno.
    pose proof (proj2 (getDrawingBoundingBox_None canvas Hw) (proj1 Hfalse Hno)) as Hb.
    unfold startAnimation. by rewrite Hc, Hb.
  - intros Hyes.
    destruct (getDrawingBoundingBox canvas) as [[[[minX minY] maxX] maxY]|] eqn:Eb.
    2:{ pose proof (proj2 Hfalse (proj1 (getDrawingBoundingBox_None canvas Hw) Eb)).
        congruence. }
    pose proof (getDrawingBoundingBox_inside canvas _ _ _ _ Hw Hh Eb) as (Hx & Hx' & Hy & Hy').
    set (off := cropCanvas canvas minX minY (maxX - minX + 1) (maxY - minY + 1)).
    exists minX, minY, maxX, maxY, off.
    assert (startAnimation s = speakRandom
              (withEnv (MkEnv (speechSynthesis (env s)) (spoken (env s))
                          (random (env s)) (drawn (env s) + 4))
                 (withAnim (MkAnim true (Some off)
                              (MkImgPos (inject_Z (cwidth canvas) / 2)%Q
                                 (inject_Z (cheight canvas) / 2)%Q 0%Q)
                              (rolled (random (env s) (drawn (env s)))
                                 (random (env s) (drawn (env s) + 1))
                                 (random (env s) (drawn (env s) + 2))
                                 (random (env s) (drawn (env s) + 3)))) s))) as ->.
    { unfold startAnimation. by rewrite Hc, Eb. }
    rewrite speakRandom_store.
    destruct (speakRandom_anim
                (withEnv (MkEnv (speechSynthesis (env s)) (spoken (env s))
                            (random (env s)) (drawn (env s) + 4))
                   (withAnim (MkAnim true (Some off)
                                (MkImgPos (inject_Z (cwidth canvas) / 2)%Q
                                   (inject_Z (cheight canvas) / 2)%Q 0%Q)
                                (rolled (random (env s) (drawn (env s)))
                                   (random (env s) (drawn (env s) + 1))
                                   (random (env s) (drawn (env s) + 2))
                                   (random (env s) (drawn (env s) + 3)))) s)))
      as (-> & -> & _ & _).
    split; [done|]. split; [done|]. split; [done|]. split; [done|].
    split; [done|]. split; [done|]. cbn [off cropCanvas cwidth cheight].
    split; [lia|]. split; [lia|]. split; [|split].
    + apply cropCanvas_wf; try done; lia.
    + intros i j [Hi Hj]. cbn [fst snd] in Hi, Hj.
      apply cropCanvas_pixel; try done; lia.
    + intros p Hp Hd.
      destruct (getDrawingBoundingBox_covers canvas _ _ _ _ p Eb Hp Hd) as [? ?].
      split; cbn [fst snd]; lia.
Qed.

Lemma startAnimation_sprite_witness :
  (hasDrawing (store wallState) = false -> startAnimation wallState = wallState) /\
  (hasDrawing (store wallState) = true ->
     exists minX minY maxX maxY off,
       getDrawingBoundingBox wall3 = Some (minX, minY, maxX, maxY) /\
       animating (anim (startAnimation wallState)) = true /\
       offscreenCanvasRef (anim (startAnimation wallState)) = Some off /\
       store (startAnimation wallState) = store wallState /\
       cwidth off = maxX - minX + 1 /\ cheight off = maxY - minY + 1 /\
       1 <= cwidth off <= cwidth wall3 /\ 1 <= cheight off <= cheight wall3 /\
       wfCanvas off /\
       (forall i j, inBounds (cwidth off) (cheight off) (i, j) ->
          pixelAt (cwidth off) (pixels off) (i, j)
            = pixelAt (cwidth wall3) (pixels wall3) (minX + i, minY + j)) /\
       (forall p, inBounds (cwidth wall3) (cheight wall3) p ->
          drawnAt (cwidth wall3) (pixels wall3) p ->
          inBounds (cwidth off) (cheight off) (p.1 - minX, p.2 - minY))).
Proof.
  apply (startAnimation_sprite wallState wall3);
    [reflexivity|apply wall3_wf|reflexivity|reflexivity].
Defined.

(** The sprite cut out of [wall3] is its black column; on the blank canvas
    nothing happens. *)
Lemma startAnimation_sprite_example :
  offscreenCanvasRef (anim (startAnimation wallState))
    = Some (MkCanvas 1 3 [0; 0; 0; 255; 0; 0; 0; 255; 0; 0; 0; 255]) /\
  startAnimation (started 3 3 true ramp) = started 3 3 true ramp.
Proof. split; reflexivity. Qed.

Local Open Scope Q_scope.

(** X18. [startAnimation], when it finds a drawing, puts the sprite at the
    centre of the canvas with rotation 0.  Without speech synthesis the
    velocity is the one it rolls from the next four draws; with speech
    synthesis that roll is overwritten at once by the [speakRandom] it
    calls: one phrase is spoken and the velocity comes from draws 5 to 8,
    nine draws being used in all. *)
Theorem startAnimation_launch s canvas box :
  canvasRef (store s) = Some canvas ->
  getDrawingBoundingBox canvas = Some box ->
  let n := drawn (env s) in
  let r := random (env s) in
  animating (anim (startAnimation s)) = true /\
  imgPosRef (anim (startAnimation s))
    = MkImgPos (inject_Z (cwidth canvas) / 2) (inject_Z (cheight canvas) / 2) 0 /\
  store (startAnimation s) = store s /\ pen (startAnimation s) = pen s /\
  (speechSynthesis (env s) = false ->
     velocityRef (anim (startAnimation s))
       = rolled (r n) (r (n + 1)%nat) (r (n + 2)%nat) (r (n + 3)%nat) /\
     drawn (env (startAnimation s)) = (n + 4)%nat /\
     spoken (env (startAnimation s)) = spoken (env s)) /\
  (speechSynthesis (env s) = true ->
     velocityRef (anim (startAnimation s))
       = rolled (r (n + 5)%nat) (r (n + 6)%nat) (r (n + 7)%nat) (r (n + 8)%nat) /\
     drawn (env (startAnimation s)) = (n + 9)%nat /\
     spoken (env (startAnimation s))
       = spoken (env s) ++ [Qfloor (r (n + 4)%nat * 8)]).
Proof.
  intros Hc Hb n r. destruct box as [[[minX minY] maxX] maxY].
  rewrite startAnimation_store.
  unfold startAnimation. rewrite Hc, Hb.
  match goal with |- context [speakRandom ?t] =>
    destruct (speakRandom_anim t) as (-> & _ & -> & ->) end.
  split; [done|]. split; [done|]. split; [done|]. split; [done|].
  unfold speakRandom. cbn [env withEnv withAnim speechSynthesis drawn random spoken].
  split; intros ->; cbn [negb anim env withEnv withAnim velocityRef drawn spoken].
  - done.
  - fold n r.
    replace (n + 4 + 1)%nat with (n + 5)%nat by lia.
    replace (n + 4 + 2)%nat with (n + 6)%nat by lia.
    replace (n + 4 + 3)%nat with (n + 7)%nat by lia.
    replace (n + 4 + 4)%nat with (n + 8)%nat by lia.
    replace (n + 4 + 5)%nat with (n + 9)%nat by lia.
    done.
Qed.

Lemma startAnimation_launch_witness :
  let n := drawn (env wallState) in
  let r := random (env wallState) in
  animating (anim (startAnimation wallState)) = true /\
  imgPosRef (anim (startAnimation wallState))
    = MkImgPos (inject_Z (cwidth wall3) / 2) (inject_Z (cheight wall3) / 2) 0 /\
  store (startAnimation wallState) = store wallState /\
  pen (startAnimation wallState) = pen wallState /\
  (speechSynthesis (env wallState) = false ->
     velocityRef (anim (startAnimation wallState))
       = rolled (r n) (r (n + 1)%nat) (r (n + 2)%nat) (r (n + 3)%nat) /\
     drawn (env (startAnimation wallState)) = (n + 4)%nat /\
     spoken (env (startAnimation wallState)) = spoken (env wallState)) /\
  (speechSynthesis (env wallState) = true ->
     velocityRef (anim (startAnimation wallState))
       = rolled (r (n + 5)%nat) (r (n + 6)%nat) (r (n + 7)%nat) (r (n + 8)%nat) /\
     drawn (env (startAnimation wallState)) = (n + 9)%nat /\
     spoken (env (startAnimation wallState))
       = spoken (env wallState) ++ [Qfloor (r (n + 4)%nat * 8)]).
Proof.
  apply (startAnimation_launch wallState wall3 (1, 0, 1, 2)%Z); reflexivity.
Defined.

Local Close Scope Q_scope.

(** ** Frames *)

(** Frames are calls of [animate]. *)
Lemma run_frames `{DisplaySurface} n s :
  run (replicate n AnimationFrame) s = Some (Nat.iter n animate s).
Proof.
  revert s. induction n as [|n IH]; intros s; [done|].
  cbn [replicate run handle]. by rewrite IH, Nat.iter_succ_r.
Qed.

Lemma reachable_frames `{DisplaySurface} w h n s :
  reachable w h s -> reachable w h (Nat.iter n animate s).
Proof.
  intros Hr. induction n as [|n IH]; [done|].
  by apply (reachable_step w h _ AnimationFrame _ IH).
Qed.

Local Open Scope Q_scope.

(** A frame flips signs at most, and adds the angular velocity. *)
Lemma advance_speed iw ih wd ht p v :
  (vx (advance iw ih wd ht p v).2 = vx v \/ vx (advance iw ih wd ht p v).2 = - vx v) /\
  (vy (advance iw ih wd ht p v).2 = vy v \/ vy (advance iw ih wd ht p v).2 = - vy v) /\
  vr (advance iw ih wd ht p v).2 = vr v /\
  rotation (advance iw ih wd ht p v).1 = rotation p + vr v.
Proof.
  unfold advance.
  destruct (Qlt_le_dec _ 0); [|destruct (Qlt_le_dec wd _)];
    (destruct (Qlt_le_dec _ 0); [|destruct (Qlt_le_dec ht _)]);
    cbn; auto.
Qed.

(** X19. From an animating state of a run, any number [n] of animation
    frames keeps the animation going with the same sprite and touches
    neither history, tool nor collaborators; the angular velocity is
    unchanged and the rotation has grown by [n] times it; each velocity
    component has kept its magnitude; the sprite lies between the walls;
    and from the first frame on the canvas is the sprite composited on a
    fresh white background. *)
Theorem animation_frames `{DisplaySurface} w h s n :
  (0 < w)%Z -> (0 < h)%Z -> reachable w h s -> animating (anim s) = true ->
  exists s' off,
    run (replicate n AnimationFrame) s = Some s' /\
    animating (anim s') = true /\
    offscreenCanvasRef (anim s) = Some off /\
    offscreenCanvasRef (anim s') = Some off /\
    historyRef (store s') = historyRef (store s) /\
    historyIndexRef (store s') = historyIndexRef (store s) /\
    pen s' = pen s /\ env s' = env s /\
    vr (velocityRef (anim s')) = vr (velocityRef (anim s)) /\
    rotation (imgPosRef (anim s'))
      == rotation (imgPosRef (anim s))
         + inject_Z (Z.of_nat n) * vr (velocityRef (anim s)) /\
    (vx (velocityRef (anim s')) == vx (velocityRef (anim s)) \/
     vx (velocityRef (anim s')) == - vx (velocityRef (anim s))) /\
    (vy (velocityRef (anim s')) == vy (velocityRef (anim s)) \/
     vy (velocityRef (anim s')) == - vy (velocityRef (anim s))) /\
    (inject_Z (cwidth off) / 2 <= posX (imgPosRef (anim s'))
       <= inject_Z w - inject_Z (cwidth off) / 2) /\
    (inject_Z (cheight off) / 2 <= posY (imgPosRef (anim s'))
       <= inject_Z h - inject_Z (cheight off) / 2) /\
    ((0 < n)%nat ->
     canvasRef (store s')
       = Some (drawImage off (posX (imgPosRef (anim s'))) (posY (imgPosRef (anim s')))
                 (rotation (imgPosRef (anim s')))
                 (MkCanvas w h (whiteData w h)))).
Proof.
  intros Hw Hh Hr Ha.
  destruct (animate_frame w h s Hw Hh Hr Ha) as (off & Ho & _ & _ & Hx0 & Hy0 & _).
  exists (Nat.iter n animate s), off. split; [apply run_frames|].
  induction n as [|n IH].
  { simpl. split_and!; try done; try (by left); try apply Hx0; try apply Hy0;
      try (intros ?; lia).
    change (Z.of_nat 0) with 0%Z. ring. }
  destruct IH as (Ha' & _ & Ho' & Hh' & Hi' & Hp' & He' & Hvr & Hrot & Hvx & Hvy & _).
  set (t := Nat.iter n animate s) in *.
  pose proof (reachable_frames w h n s Hr) as Hr'. fold t in Hr'.
  destruct (animate_frame w h t Hw Hh Hr' Ha') as (off' & Ho2 & _ & _ & _ & _ & Hadv).
  rewrite Ho' in Ho2. injection Ho2 as <-.
  destruct (reachable_animInv w h Hw Hh t Hr') as [(c & Hc & Hcw & Hch) _ _].
  pose proof (advance_speed (inject_Z (cwidth off)) (inject_Z (cheight off))
                (inject_Z w) (inject_Z h) (imgPosRef (anim t)) (velocityRef (anim t)))
    as (Ax & Ay & Ar & Arot).
  rewrite <- Hadv in Ax, Ay, Ar, Arot. cbn [fst snd] in Ax, Ay, Ar, Arot.
  pose proof (reachable_frames w h (S n) s Hr) as Hr2.
  change (Nat.iter (S n) animate s) with (animate t) in *.
  pose proof (animate_running t c off Ha' Hc Ho') as Et. cbn zeta in Et.
  assert (animating (anim (animate t)) = true) as Ba by (by rewrite Et).
  assert (offscreenCanvasRef (anim (animate t)) = Some off) as Bo by (by rewrite Et).
  destruct (animate_frame w h (animate t) Hw Hh Hr2 Ba)
    as (off2 & Ho3 & _ & _ & Hx2 & Hy2 & _).
  rewrite Bo in Ho3. injection Ho3 as <-.
  split_and!; try congruence; try done; try (by rewrite Et); try apply Hx2; try apply Hy2.
  - rewrite Arot, Hrot, Hvr. rewrite Nat2Z.inj_succ. unfold Z.succ.
    rewrite inject_Z_plus. ring.
  - destruct Ax as [-> | ->], Hvx as [E|E]; rewrite E; [by left|by right|by right|].
    left. ring.
  - destruct Ay as [-> | ->], Hvy as [E|E]; rewrite E; [by left|by right|by right|].
    left. ring.
  - intros _.
    assert (imgPosRef (anim (animate t))
            = (advance (inject_Z (cwidth off)) (inject_Z (cheight off))
                 (inject_Z w) (inject_Z h) (imgPosRef (anim t))
                 (velocityRef (anim t))).1) as -> by (by rewrite <- Hadv).
    rewrite Et. cbn [store withStore withCanvas canvasRef].
    unfold fillWhite. by rewrite Hcw, Hch.
Qed.

Lemma animation_frames_witness :
  exists s' off,
    @run dotSurface (replicate 2 AnimationFrame) animatingMute = Some s' /\
    animating (anim s') = true /\
    offscreenCanvasRef (anim animatingMute) = Some off /\
    offscreenCanvasRef (anim s') = Some off /\
    historyRef (store s') = historyRef (store animatingMute) /\
    historyIndexRef (store s') = historyIndexRef (store animatingMute) /\
    pen s' = pen animatingMute /\ env s' = env animatingMute /\
    vr (velocityRef (anim s')) = vr (velocityRef (anim animatingMute)) /\
    rotation (imgPosRef (anim s'))
      == rotation (imgPosRef (anim animatingMute))
         + inject_Z (Z.of_nat 2) * vr (velocityRef (anim animatingMute)) /\
    (vx (velocityRef (anim s')) == vx (velocityRef (anim animatingMute)) \/
     vx (velocityRef (anim s')) == - vx (velocityRef (anim animatingMute))) /\
    (vy (velocityRef (anim s')) == vy (velocityRef (anim animatingMute)) \/
     vy (velocityRef (anim s')) == - vy (velocityRef (anim animatingMute))) /\
    (inject_Z (cwidth off) / 2 <= posX (imgPosRef (anim s'))
       <= inject_Z 2 - inject_Z (cwidth off) / 2) /\
    (inject_Z (cheight off) / 2 <= posY (imgPosRef (anim s'))
       <= inject_Z 2 - inject_Z (cheight off) / 2) /\
    ((0 < 2)%nat ->
     canvasRef (store s')
       = Some (@drawImage dotSurface off (posX (imgPosRef (anim s')))
                 (posY (imgPosRef (anim s'))) (rotation (imgPosRef (anim s')))
                 (MkCanvas 2 2 (whiteData 2 2)))).
Proof.
  apply (@animation_frames dotSurface 2 2 animatingMute 2).
  - reflexivity.
  - reflexivity.
  - apply animatingMute_reachable.
  - reflexivity.
Defined.

Local Close Scope Q_scope.

(** ** Sizes *)

(** X20. In every reachable state the canvas has the size of the setup and
    a raster of [4 * w * h] bytes, and so has every snapshot in the
    history: [undo] and [redo] always replace the whole raster. *)
Theorem snapshots_full_size `{DisplaySurface} w h s :
  reachable w h s ->
  (exists canvas, canvasRef (store s) = Some canvas /\
     cwidth canvas = w /\ cheight canvas = h /\
     length (pixels canvas) = rasterLength w h) /\
  Forall (fun img => length img = rasterLength w h) (historyRef (store s)).
Proof. apply reachable_rasters. Qed.

Lemma snapshots_full_size_witness :
  (exists canvas, canvasRef (store animatingMute) = Some canvas /\
     cwidth canvas = 2 /\ cheight canvas = 2 /\
     length (pixels canvas) = rasterLength 2 2) /\
  Forall (fun img => length img = rasterLength 2 2) (historyRef (store animatingMute)).
Proof.
  apply (@snapshots_full_size dotSurface 2 2 animatingMute).
  apply animatingMute_reachable.
Defined.

(** ** A bucket click on the blank canvas *)

(** The blank raster reads white everywhere. *)
Lemma pixelAt_whiteData w h p :
  0 <= w -> 0 <= h -> inBounds w h p -> pixelAt w (whiteData w h) p = white.
Proof.
  intros Hw Hh Hp. apply isWhite_true_iff.
  apply (white_pixels_iff w h (whiteData w h)); try done.
  - unfold whiteData. rewrite length_replicate. lia.
  - apply whiteData_white.
Qed.

(** X21. End to end: from the start, choosing the bucket, picking any
    colour of the colour input and clicking anywhere inside the canvas
    element returns, paints the whole canvas in that colour, starts no
    stroke, and leaves the blank frame twice on the history with the index
    on the second; one undo then shows the blank canvas again. *)
Theorem fill_click_on_blank `{DisplaySurface} w h speech rand c e :
  0 < w -> 0 < h -> isHexColor c = true ->
  (0 < rectWidth e)%Q -> (0 < rectHeight e)%Q ->
  (rectLeft e <= clientX e < rectLeft e + rectWidth e)%Q ->
  (rectTop e <= clientY e < rectTop e + rectHeight e)%Q ->
  exists s' canvas',
    run [ChangeMode ModeFill; ChangeColor c; PointerDown e] (started w h speech rand)
      = Some s' /\
    canvasRef (store s') = Some canvas' /\
    cwidth canvas' = w /\ cheight canvas' = h /\
    uniform w h (pixels canvas') (hexToRgba c) /\
    historyRef (store s') = [whiteData w h; whiteData w h] /\
    historyIndexRef (store s') = 1 /\
    isDrawing (pen s') = false /\
    rasterOf <$> run [ClickUndo] s' = Some (Some (whiteData w h)).
Proof.
  intros Hw Hh Hc Hrw Hrh Hx Hy.
  set (canvas := MkCanvas w h (whiteData w h)).
  set (s0 := started w h speech rand).
  set (s1 := withPen (MkPen false (0, 0)%Q "black" 2 ModeFill) s0).
  set (s2 := withPen (MkPen false (0, 0)%Q c 2 ModeFill) s0).
  assert (handle (ChangeMode ModeFill) s0 = Some s1) as E1 by reflexivity.
  assert (handle (ChangeColor c) s1 = Some s2) as E2 by reflexivity.
  cbn [run]. rewrite E1, E2. cbn [handle].
  assert (wfCanvas canvas) as Hwf.
  { unfold wfCanvas, canvas. cbn [cwidth cheight pixels]. unfold whiteData.
    rewrite length_replicate. lia. }
  pose proof (scaled_inside _ _ _ _ Hrw Hw Hx) as Hx'.
  pose proof (scaled_inside _ _ _ _ Hrh Hh Hy) as Hy'.
  apply Qfloor_inside in Hx', Hy'.
  destruct (fillFlood_covers canvas
              (Qfloor ((clientX e - rectLeft e) * (inject_Z w / rectWidth e)))
              (Qfloor ((clientY e - rectTop e) * (inject_Z h / rectHeight e)))
              (hexToRgba c) Hwf)
    as (canvas' & Hfill & Hcw & Hch & Hcov).
  { apply hexToRgba_valid. by right. }
  { by split. }
  set (st1 := MkStore (Some canvas) [whiteData w h; whiteData w h] 1).
  assert (saveHistory (store s2) = st1) as Esave.
  { by rewrite (saveHistory_push (store s2) canvas)
      by (try done; unfold historyLength; cbn; lia). }
  assert (startDrawing e s2 = Some (withStore (withCanvas canvas' st1) s2)) as ->.
  { unfold startDrawing.
    change (animating (anim s2)) with false.
    change (canvasRef (store s2)) with (Some canvas).
    unfold getCanvasRelativePosition. cbn [cwidth cheight canvas].
    change (mode (pen s2)) with ModeFill. cbn iota.
    change (color (pen s2)) with c.
    fold canvas. rewrite Hfill. by rewrite Esave. }
  exists (withStore (withCanvas canvas' st1) s2), canvas'.
  split; [done|]. split; [done|]. split; [done|]. split; [done|]. split.
  { intros p Hp. apply Hcov. apply connected_uniform.
    - by split.
    - intros q Hq. cbn [canvas pixels cwidth cheight] in *.
      rewrite !pixelAt_whiteData; try done; try lia.
    - done. }
  split; [done|]. split; [done|]. split; [done|].
  cbn [run handle]. change (animating (anim _)) with false. cbn iota.
  unfold undo. cbn [store withStore withCanvas canvasRef historyRef historyIndexRef st1].
  change (1 <=? 0) with false. cbn iota. change (1 - 1) with 0.
  unfold arrayGet. rewrite decide_True by lia. cbn [lookup list_lookup Z.to_nat].
  done.
Qed.

Lemma fill_click_on_blank_witness :
  exists s' canvas',
    @run dotSurface [ChangeMode ModeFill; ChangeColor "#ff0000";
                     PointerDown (pointerAt 2 2 1 1)] (started 2 2 true noDraws)
      = Some s' /\
    canvasRef (store s') = Some canvas' /\
    cwidth canvas' = 2 /\ cheight canvas' = 2 /\
    uniform 2 2 (pixels canvas') (hexToRgba "#ff0000") /\
    historyRef (store s') = [whiteData 2 2; whiteData 2 2] /\
    historyIndexRef (store s') = 1 /\
    isDrawing (pen s') = false /\
    rasterOf <$> @run dotSurface [ClickUndo] s' = Some (Some (whiteData 2 2)).
Proof.
  apply (@fill_click_on_blank dotSurface 2 2 true noDraws "#ff0000" (pointerAt 2 2 1 1));
    try reflexivity; split; (discriminate || reflexivity).
Defined.

(** A 2 by 2 canvas filled with red. *)
Lemma fill_click_on_blank_example :
  rasterOf <$> @run dotSurface [ChangeMode ModeFill; ChangeColor "#ff0000";
                                PointerDown (pointerAt 2 2 1 1)]
                 (started 2 2 true noDraws)
    = Some (Some [255; 0; 0; 255; 255; 0; 0; 255; 255; 0; 0; 255; 255; 0; 0; 255]).
Proof. vm_compute. reflexivity. Qed.
